(** * Smart File Sorter: classification, collision-free placement,
      duplicate scan and face clustering

    A shallow embedding of the backend of [smart_file_sorter.py]
    (the functions above the "Modern UI" section) and the properties
    of its specification.

    Modelling conventions
    - a [Path] is the list of its components, root first; [p / s] appends
      a component, [name] is the last one, [stem] and [suffix] split the
      name at its last dot the way [pathlib] does;
    - category names, log lines and digests are strings, as in the source;
    - a Python [str] is held as its UTF-8 bytes; [str.lower()] is exact
      on ASCII text and an oracle of the environment on any other text;
    - the operating system and the optional libraries ([mimetypes], PIL,
      [hashlib], [face_recognition]) are an environment record [Env] of
      oracles; a call that can raise returns an [outcome];
    - an I/O call that raises may have done part of its work: a failing
      [mkdir] with parents may have created some of them, a failing
      [shutil.copy2] or [shutil.move] may have written its destination,
      and a move that raises leaves its source in place;
    - the workers run in a small monad [M] threading the set of existing
      paths and the number of polls of the stop event, collecting the
      callback invocations and the instrumented I/O calls in a trace, and
      propagating exceptions;
    - Python floats that the code only compares are exact rationals
      ([Q]): the quotient [idx / total] of two positive counts is [1.0]
      exactly when [idx = total]. *)

From Stdlib Require Import QArith Ascii.
From stdpp Require Import gmap strings list pretty sorting.

Open Scope string_scope.
Open Scope list_scope.

(* ===================================================================== *)
(** ** Strings and paths                                                  *)
(* ===================================================================== *)

Abbreviation Path := (list string).

Module Str.

(** [str.lower()] on a character of the ASCII range: the letters [A] to
    [Z] become [a] to [z]. *)
Definition lower_ascii (a : Ascii.ascii) : Ascii.ascii :=
  let n := Ascii.nat_of_ascii a in
  if (65 <=? n)%nat && (n <=? 90)%nat then Ascii.ascii_of_nat (n + 32) else a.

(** [str.lower()] on a text made of ASCII characters. *)
Fixpoint lower_ascii_text (s : string) : string :=
  match s with
  | EmptyString => EmptyString
  | String a s' => String (lower_ascii a) (lower_ascii_text s')
  end.

(** [str.isascii()]: a text is held as its UTF-8 bytes, so it is ASCII
    when every byte is below 128. *)
Fixpoint isascii (s : string) : bool :=
  match s with
  | EmptyString => true
  | String a s' => (Ascii.nat_of_ascii a <? 128)%nat && isascii s'
  end.

(** [s.rfind(c)]: index of the last occurrence of [c]. *)
Fixpoint rfind (c : Ascii.ascii) (s : string) : option nat :=
  match s with
  | EmptyString => None
  | String a s' =>
      match rfind c s' with
      | Some i => Some (S i)
      | None => if Ascii.eqb a c then Some 0%nat else None
      end
  end.

(** [s.startswith(key)]. *)
Definition startswith (s key : string) : bool := String.prefix key s.

(** Truthiness of a Python string. *)
Definition nonempty (s : string) : bool :=
  match s with EmptyString => false | _ => true end.

(** [sep.join(parts)]. *)
Fixpoint join (sep : string) (parts : list string) : string :=
  match parts with
  | [] => ""
  | [x] => x
  | x :: rest => x +:+ sep +:+ join sep rest
  end.


(** [f"{n:02d}"]. *)
Definition pad2 (n : nat) : string :=
  if (n <? 10)%nat then "0" +:+ pretty n else pretty n.

End Str.

Module PathOps.

Definition div (p : Path) (s : string) : Path := p ++ [s].

Definition name (p : Path) : string := List.last p "".

Definition parent (p : Path) : Path := removelast p.

(** Position of the dot that starts the suffix: the last dot of the
    name when it is neither its first nor its last character. *)
Definition suffix_index (nm : string) : option nat :=
  match Str.rfind "."%char nm with
  | Some i =>
      if (0 <? i)%nat && (i <? String.length nm - 1)%nat then Some i else None
  | None => None
  end.

Definition suffix (p : Path) : string :=
  let nm := name p in
  match suffix_index nm with
  | Some i => String.substring i (String.length nm - i) nm
  | None => ""
  end.

Definition stem (p : Path) : string :=
  let nm := name p in
  match suffix_index nm with
  | Some i => String.substring 0 i nm
  | None => nm
  end.

(** [str(path)]. *)
Definition str (p : Path) : string := Str.join "/" p.

End PathOps.

Declare Scope path_scope.
Delimit Scope path_scope with path.
Infix "/" := PathOps.div : path_scope.
Import PathOps.

(* ===================================================================== *)
(** ** Configuration                                                      *)
(* ===================================================================== *)

Definition EXTENSIONS : list (string * list string) :=
  [ ("Photos", [".jpg"; ".jpeg"; ".png"; ".gif"; ".bmp"; ".tiff"; ".webp"; ".heic"]);
    ("Videos", [".mp4"; ".mkv"; ".mov"; ".avi"; ".wmv"; ".flv"; ".webm"]);
    ("Audio", [".mp3"; ".wav"; ".aac"; ".flac"; ".ogg"; ".m4a"]);
    ("Documents", [".doc"; ".docx"; ".odt"; ".rtf"; ".txt"]);
    ("PDFs", [".pdf"]);
    ("Presentations", [".ppt"; ".pptx"; ".key"]);
    ("Spreadsheets", [".xls"; ".xlsx"; ".csv"; ".ods"]);
    ("Archives", [".zip"; ".rar"; ".7z"; ".tar"; ".gz"; ".bz2"]);
    ("Code", [".py"; ".java"; ".c"; ".cpp"; ".js"; ".ts"; ".html"; ".css"; ".tsx"; ".jsx"]) ].

(** The nested loop [for g, s in EXTENSIONS.items(): for e in s:
    EXT_TO_GROUP[e] = g]. *)
Definition EXT_TO_GROUP : gmap string string :=
  foldl (fun m gs =>
           foldl (fun m' e => <[e := gs.1]> m') m gs.2)
        ∅ EXTENSIONS.

Definition MIME_MAP : list (string * string) :=
  [ ("image", "Photos");
    ("video", "Videos");
    ("audio", "Audio");
    ("application/pdf", "PDFs");
    ("text", "Documents") ].

Definition DEFAULT_FOLDERS : list string :=
  [ "Photos"; "Videos"; "Audio"; "Documents"; "PDFs"; "Presentations";
    "Spreadsheets"; "Archives"; "Code"; "Others" ].

(* ===================================================================== *)
(** ** The environment                                                    *)
(* ===================================================================== *)

(** Result of a call that may raise; the exception carries its message. *)
Inductive outcome (A : Type) : Type :=
| Ok (a : A)
| Raise (e : string).
Arguments Ok {A} a.
Arguments Raise {A} e.

(** A face encoding is a vector of numbers. *)
Abbreviation encoding := (list Q).

(** [datetime] as far as the sorter reads it. *)
Record datetime := { year : nat; month : nat }.

Record Env := {
  (* pathlib / os *)
  is_dir : Path -> bool;
  is_file : Path -> bool;
  iterdir : Path -> outcome (list Path);
  rglob : Path -> outcome (list Path);
  st_size : Path -> outcome Z;
  st_mtime : Path -> outcome Q;
  file_bytes : Path -> outcome string;
  mkdir_error : Path -> option string;
  copy_error : Path -> Path -> option string;
  move_error : Path -> Path -> option string;
  (* what a failing call leaves behind: how many of the missing parents a
     failing [mkdir(parents=True)] created, and whether a failing
     [shutil.copy2] or [shutil.move] had written its destination *)
  mkdir_partial : Path -> nat;
  copy_partial : Path -> Path -> bool;
  move_partial : Path -> Path -> bool;
  (* the error of a read that asks for a buffer of that many bytes, when
     it cannot be allocated ([OverflowError], [MemoryError]) *)
  alloc_error : Z -> option string;
  (* str.lower() on text that is not ASCII: the Unicode tables *)
  unicode_lower : string -> string;
  (* mimetypes.guess_type, first component *)
  guess_type : string -> option string;
  (* hashlib: hex digest of a byte string *)
  hexdigest : string -> string;
  (* PIL *)
  PIL_AVAILABLE : bool;
  exif_datetime : Path -> option datetime;
  (* face_recognition *)
  FACE_AVAILABLE : bool;
  face_encodings : Path -> outcome (list encoding);
  face_distance1 : encoding -> encoding -> Q
}.

(** [s.lower()]: on ASCII text the letters [A] to [Z] are mapped to [a]
    to [z]; on any other text the lowering is that of the interpreter's
    Unicode tables. *)
Definition lower (env : Env) (s : string) : string :=
  if Str.isascii s then Str.lower_ascii_text s else unicode_lower env s.

(* ===================================================================== *)
(** ** Classifier                                                         *)
(* ===================================================================== *)

(** The loop [for key, group in MIME_MAP: if mime.startswith(key):
    return group]; [None] when it falls through. *)
Fixpoint mime_loop (mime : string) (rules : list (string * string)) : option string :=
  match rules with
  | [] => None
  | (key, group) :: rest =>
      if Str.startswith mime key then Some group else mime_loop mime rest
  end.

(** [detect_group]: [None] is Python's [None], returned for a directory. *)
Definition detect_group (env : Env) (path : Path) : option string :=
  if is_dir env path then None
  else
    let ext := lower env (suffix path) in
    match EXT_TO_GROUP !! ext with
    | Some g => Some g
    | None =>
        match guess_type env (str path) with
        | Some mime =>
            if Str.nonempty mime then
              match mime_loop mime MIME_MAP with
              | Some g => Some g
              | None =>
                  if String.eqb mime "application/pdf" then Some "PDFs"
                  else Some "Others"
              end
            else Some "Others"
        | None => Some "Others"
        end
    end.

(** The resolution order in the specification's words: extension table,
    then the first MIME rule whose prefix matches, then [Others]. *)
Definition classify_spec (env : Env) (path : Path) : string :=
  match EXT_TO_GROUP !! lower env (suffix path) with
  | Some g => g
  | None =>
      match guess_type env (str path) with
      | Some mime =>
          match List.find (fun rule => String.prefix rule.1 mime) MIME_MAP with
          | Some rule => rule.2
          | None => "Others"
          end
      | None => "Others"
      end
  end.

(* ===================================================================== *)
(** ** Destination resolver                                               *)
(* ===================================================================== *)

(** The candidate [parent / f"{stem} ({i}){suffix}"]. *)
Definition candidate (dest : Path) (i : nat) : Path :=
  (parent dest / (stem dest +:+ " (" +:+ pretty i +:+ ")" +:+ suffix dest))%path.

(** The [while True] loop of [unique_dest], started at counter [i];
    [fuel] bounds the number of candidates tried. *)
Fixpoint unique_dest_loop (exists_ : Path -> bool) (dest : Path)
    (fuel i : nat) : option Path :=
  match fuel with
  | O => None
  | S fuel' =>
      let cand := candidate dest i in
      if negb (exists_ cand) then Some cand
      else unique_dest_loop exists_ dest fuel' (S i)
  end.

Definition unique_dest_fuel (exists_ : Path -> bool) (fuel : nat) (dest : Path) : option Path :=
  if negb (exists_ dest) then Some dest
  else unique_dest_loop exists_ dest fuel 1.

(** On a file system holding finitely many paths the loop needs at most
    one more candidate than there are paths. *)
Definition path_exists (fs : gset Path) (p : Path) : bool := bool_decide (p ∈ fs).

Definition unique_dest (fs : gset Path) (dest : Path) : Path :=
  default dest (unique_dest_fuel (path_exists fs) (S (size fs)) dest).


(* ===================================================================== *)
(** ** The worker monad                                                   *)
(* ===================================================================== *)

(** One entry of a duplicate-scan result: the dict
    [{"keep": .., "delete": .., "reason": ..}]. *)
Record dup_group := {
  keep : Path;
  delete : list Path;
  reason : string
}.

(** What a run does that an observer can see: the three callbacks, and the
    instrumented digest, copy and move calls. *)
Inductive event : Type :=
| EvLog (msg : string)
| EvProgress (q : Q)
| EvDupResult (groups : list dup_group)
| EvFaceResult (albums : list (list string))
| EvHash (p : Path)
| EvCopy (src dst : Path)
| EvMove (src dst : Path).

(** The state a worker threads: the paths that exist, and how many times
    the stop event has been polled. *)
Record State := {
  fs : gset Path;
  polls : nat
}.

Record Res (A : Type) := {
  trace : list event;
  final : State;
  result : outcome A
}.
Arguments trace {A} r.
Arguments final {A} r.
Arguments result {A} r.

Definition M (A : Type) : Type := State -> Res A.

Definition ret {A} (a : A) : M A :=
  fun s => {| trace := []; final := s; result := Ok a |}.

Definition bind {A B} (m : M A) (f : A -> M B) : M B :=
  fun s =>
    let r := m s in
    match result r with
    | Raise e => {| trace := trace r; final := final r; result := Raise e |}
    | Ok a =>
        let r' := f a (final r) in
        {| trace := trace r ++ trace r'; final := final r'; result := result r' |}
    end.

Definition raise {A} (e : string) : M A :=
  fun s => {| trace := []; final := s; result := Raise e |}.

(** [try: m except Exception as e: h e]. *)
Definition try_except {A} (m : M A) (h : string -> M A) : M A :=
  fun s =>
    let r := m s in
    match result r with
    | Ok a => r
    | Raise e =>
        let r' := h e (final r) in
        {| trace := trace r ++ trace r'; final := final r'; result := result r' |}
    end.

(** Runs [m] and hands back how it ended: the [try] whose [except] branch
    returns from the function. *)
Definition attempt {A} (m : M A) : M (outcome A) :=
  fun s =>
    let r := m s in
    {| trace := trace r; final := final r; result := Ok (result r) |}.

Definition emit (ev : event) : M unit :=
  fun s => {| trace := [ev]; final := s; result := Ok tt |}.

Definition lift {A} (o : outcome A) : M A :=
  match o with
  | Ok a => ret a
  | Raise e => raise e
  end.

Definition get_fs : M (gset Path) :=
  fun s => {| trace := []; final := s; result := Ok (fs s) |}.

Definition modify_fs (f : gset Path -> gset Path) : M unit :=
  fun s => {| trace := []; final := {| fs := f (fs s); polls := polls s |};
              result := Ok tt |}.

(** [stop_event.is_set()]: the event is set by another thread, so the
    answer to each poll is given by an oracle indexed by the number of
    polls made before it. *)
Definition is_set (stop_event : nat -> bool) : M bool :=
  fun s => {| trace := []; final := {| fs := fs s; polls := S (polls s) |};
              result := Ok (stop_event (polls s)) |}.

#[global] Instance M_ret : MRet M := @ret.
#[global] Instance M_bind : MBind M := fun A B f m => bind m f.

Definition log_cb (msg : string) : M unit := emit (EvLog msg).
Definition progress_cb (q : Q) : M unit := emit (EvProgress q).

(** Python's true division of two counts. *)
Definition py_div (a b : nat) : Q := (Z.of_nat a # Pos.of_nat b)%Q.

(* ===================================================================== *)
(** ** File-system primitives                                             *)
(* ===================================================================== *)

(** All proper and improper prefixes of a path but the empty one. *)
Definition ancestors (p : Path) : list Path :=
  map (fun n => take n p) (seq 1 (length p)).

(** [p.mkdir(exist_ok=True)]. *)
Definition mkdir (env : Env) (p : Path) : M unit :=
  match mkdir_error env p with
  | Some e => raise e
  | None => modify_fs (fun s => s ∪ {[p]})
  end.

(** [p.mkdir(parents=True, exist_ok=True)]. The missing parents are
    created from the root down, so a call that fails may have created
    the first of them. *)
Definition mkdir_parents (env : Env) (p : Path) : M unit :=
  match mkdir_error env p with
  | Some e =>
      modify_fs (fun s =>
                   s ∪ list_to_set (take (mkdir_partial env p) (ancestors (parent p))));;
      raise e
  | None => modify_fs (fun s => s ∪ list_to_set (ancestors p))
  end.

(** [shutil.copy2(str(src), str(dst))]. The event records a copy that
    returned; a copy that raises may have written its destination. *)
Definition copy2 (env : Env) (src dst : Path) : M unit :=
  match copy_error env src dst with
  | Some e =>
      modify_fs (fun s => if copy_partial env src dst then s ∪ {[dst]} else s);;
      raise e
  | None => emit (EvCopy src dst);; modify_fs (fun s => s ∪ {[dst]})
  end.

(** [shutil.move(str(src), str(dst))]. The event records a move that
    returned. When a rename is not possible the file is copied and the
    source unlinked afterwards, so a move that raises leaves the source
    in place and may have written its destination. *)
Definition move (env : Env) (src dst : Path) : M unit :=
  match move_error env src dst with
  | Some e =>
      modify_fs (fun s => if move_partial env src dst then s ∪ {[dst]} else s);;
      raise e
  | None => emit (EvMove src dst);; modify_fs (fun s => (s ∖ {[src]}) ∪ {[dst]})
  end.

Definition unique_dest_m (dest : Path) : M Path :=
  s ← get_fs; mret (unique_dest s dest).

(** [sha256]: the file is read in chunks that are fed to one hasher, so
    the result is the digest of the whole content. The call is recorded. *)
Definition sha256 (env : Env) (path : Path) : M string :=
  emit (EvHash path);;
  b ← lift (file_bytes env path);
  mret (hexdigest env b).

Definition ensure_dirs (env : Env) (base : Path) (groups : list string) : M unit :=
  let groups := match groups with [] => DEFAULT_FOLDERS | _ => groups end in
  foldr (fun g k => mkdir env (base / g)%path;; k) (mret tt) groups.

Definition iter_files (env : Env) (base : Path) (include_sub : bool) : M (list Path) :=
  if include_sub then
    ps ← lift (rglob env base); mret (List.filter (is_file env) ps)
  else
    ps ← lift (iterdir env base); mret (List.filter (is_file env) ps).

Definition safe_copy (env : Env) (src dst : Path) : M Path :=
  mkdir_parents env (parent dst);;
  dst' ← unique_dest_m dst;
  copy2 env src dst';;
  mret dst'.

Definition safe_move (env : Env) (src dst : Path) : M Path :=
  mkdir_parents env (parent dst);;
  dst' ← unique_dest_m dst;
  move env src dst';;
  mret dst'.

(** [get_exif_date]: every exception is caught inside. *)
Definition get_exif_date (env : Env) (path : Path) : option datetime :=
  if negb (PIL_AVAILABLE env) then None else exif_datetime env path.

Definition face_encodings_for_image (env : Env) (path : Path) : list encoding :=
  if negb (FACE_AVAILABLE env) then []
  else match face_encodings env path with
       | Ok encs => encs
       | Raise _ => []
       end.

(* ===================================================================== *)
(** ** Sort                                                               *)
(* ===================================================================== *)

(** [group not in groups_selected], where [group] may be [None]. *)
Definition group_in (group : option string) (groups_selected : list string) : bool :=
  match group with
  | Some g => bool_decide (g ∈ groups_selected)
  | None => false
  end.

(** The category a file is filed under once the caller's selection is
    applied. *)
Definition effective_group (env : Env) (groups_selected : list string) (f : Path)
    : option string :=
  let group := detect_group env f in
  if negb (bool_decide (groups_selected = [])) && negb (group_in group groups_selected)
  then Some "Others" else group.

(** The body of the [try] block of the sort loop. *)
Definition sort_item (env : Env) (base : Path) (move_mode : bool)
    (groups_selected : list string) (exif_by_date : bool) (f : Path) : M unit :=
  match effective_group env groups_selected f with
  | None => raise "unsupported operand type(s) for /: 'PosixPath' and 'NoneType'"
  | Some group =>
      let target_dir := (base / group)%path in
      let target_dir :=
        if String.eqb group "Photos" && exif_by_date && PIL_AVAILABLE env then
          match get_exif_date env f with
          | Some exif_dt =>
              (target_dir / pretty (year exif_dt) / Str.pad2 (month exif_dt))%path
          | None => target_dir
          end
        else target_dir in
      let dst := (target_dir / name f)%path in
      if move_mode then
        safe_move env f dst;; log_cb ("Moved: " +:+ name f)
      else
        safe_copy env f dst;; log_cb ("Copied: " +:+ name f)
  end.

(** [for idx, f in enumerate(files, start=1)]. *)
Fixpoint sort_loop (env : Env) (stop_event : nat -> bool) (base : Path)
    (move_mode : bool) (groups_selected : list string) (exif_by_date : bool)
    (total idx : nat) (files : list Path) : M unit :=
  match files with
  | [] => mret tt
  | f :: rest =>
      stopped ← is_set stop_event;
      if stopped : bool then log_cb "Sorting cancelled."
      else
        try_except
          (sort_item env base move_mode groups_selected exif_by_date f)
          (fun e => log_cb ("Error " +:+ name f +:+ ": " +:+ e));;
        progress_cb (py_div idx total);;
        sort_loop env stop_event base move_mode groups_selected exif_by_date
                  total (S idx) rest
  end.

Definition sort_worker (env : Env) (stop_event : nat -> bool) (base : Path)
    (move_mode include_sub : bool) (groups_selected : list string)
    (exif_by_date : bool) : M unit :=
  log_cb ("Scanning " +:+ str base +:+ "...");;
  listing ← attempt (iter_files env base include_sub);
  match listing with
  | Raise e => log_cb ("Scan failed: " +:+ e)
  | Ok files =>
      let total := length files in
      if (total =? 0)%nat then
        log_cb "No files found to sort in this folder.";;
        progress_cb 1
      else
        log_cb ("Found " +:+ pretty total +:+ " files. Processing...");;
        ensure_dirs env base DEFAULT_FOLDERS;;
        sort_loop env stop_event base move_mode groups_selected exif_by_date
                  total 1 files;;
        progress_cb 1;;
        log_cb "Operation complete!"
  end.

(* ===================================================================== *)
(** ** Duplicate scan                                                     *)
(* ===================================================================== *)

(** [d.setdefault(k, []).append(v)] on a dict kept in insertion order. *)
Fixpoint setdefault_append {K V : Type} `{EqDecision K} (k : K) (v : V)
    (d : list (K * list V)) : list (K * list V) :=
  match d with
  | [] => [(k, [v])]
  | (k', vs) :: d' =>
      if decide (k = k') then (k', vs ++ [v]) :: d'
      else (k', vs) :: setdefault_append k v d'
  end.

(** [d.values()]. *)
Definition values {K V : Type} (d : list (K * V)) : list V := d.*2.

(** The loop that fills [size_map]; a file whose [stat] raises is
    passed over. *)
Fixpoint build_size_map (env : Env) (files : list Path)
    (size_map : list (Z * list Path)) : M (list (Z * list Path)) :=
  match files with
  | [] => mret size_map
  | f :: rest =>
      size_map' ← try_except
                    (s ← lift (st_size env f);
                     mret (setdefault_append s f size_map))
                    (fun _ => mret size_map);
      build_size_map env rest size_map'
  end.

(** The loop that fills [hashes] for one size bucket; a file whose digest
    raises is passed over. *)
Fixpoint hash_group (env : Env) (group : list Path)
    (hashes : list (string * list Path)) : M (list (string * list Path)) :=
  match group with
  | [] => mret hashes
  | f :: rest =>
      hashes' ← try_except
                  (h ← sha256 env f;
                   mret (setdefault_append h f hashes))
                  (fun _ => mret hashes);
      hash_group env rest hashes'
  end.

Definition Qltb (x y : Q) : bool := negb (Qle_bool y x).

(** [max(items, key=key)] after its first element: the running maximum is
    replaced only by a strictly greater key. *)
Fixpoint max_loop (key : Path -> M Q) (items : list Path)
    (maxitem : Path) (maxval : Q) : M Path :=
  match items with
  | [] => mret maxitem
  | item :: rest =>
      val ← key item;
      if Qltb maxval val then max_loop key rest item val
      else max_loop key rest maxitem maxval
  end.

Definition py_max (key : Path -> M Q) (items : list Path) : M Path :=
  match items with
  | [] => raise "max() arg is an empty sequence"
  | item :: rest => val ← key item; max_loop key rest item val
  end.

(** [for h_group in hashes.values(): if len(h_group) > 1: ...]. *)
Fixpoint collect_duplicates (env : Env) (h_groups : list (list Path))
    (duplicates : list dup_group) : M (list dup_group) :=
  match h_groups with
  | [] => mret duplicates
  | h_group :: rest =>
      if (1 <? length h_group)%nat then
        keep_ ← py_max (fun p => lift (st_mtime env p)) h_group;
        collect_duplicates env rest
          (duplicates ++
             [{| keep := keep_;
                 delete := List.filter (fun p => negb (bool_decide (p = keep_))) h_group;
                 reason := "exact" |}])
      else collect_duplicates env rest duplicates
  end.

(** [for group in size_map.values()], with [current_grp] the number of
    buckets entered so far. *)
Fixpoint scan_buckets (env : Env) (stop_event : nat -> bool)
    (total_size_groups current_grp : nat) (duplicates : list dup_group)
    (groups : list (list Path)) : M (list dup_group) :=
  match groups with
  | [] => mret duplicates
  | group :: rest =>
      let current_grp := S current_grp in
      stopped ← is_set stop_event;
      if stopped : bool then mret duplicates
      else if (length group <? 2)%nat then
        progress_cb (py_div current_grp total_size_groups);;
        scan_buckets env stop_event total_size_groups current_grp duplicates rest
      else
        hashes ← hash_group env group [];
        duplicates' ← collect_duplicates env (values hashes) duplicates;
        progress_cb (py_div current_grp total_size_groups);;
        scan_buckets env stop_event total_size_groups current_grp duplicates' rest
  end.

Definition duplicate_scan_worker (env : Env) (stop_event : nat -> bool)
    (base : Path) (include_sub images_only use_phash : bool)
    (perceptual_threshold : Q) : M unit :=
  log_cb "Listing files...";;
  files ← iter_files env base include_sub;
  let files :=
    if images_only then
      List.filter (fun f => bool_decide (detect_group env f = Some "Photos")) files
    else files in
  let total := length files in
  if (total =? 0)%nat then
    log_cb "No files to scan.";;
    emit (EvDupResult [])
  else
    log_cb ("Scanning " +:+ pretty total +:+ " files for duplicates...");;
    size_map ← build_size_map env files [];
    let total_size_groups := length size_map in
    duplicates ← scan_buckets env stop_event total_size_groups 0 [] (values size_map);
    emit (EvDupResult duplicates);;
    log_cb ("Found " +:+ pretty (length duplicates) +:+ " duplicate groups.").

(* ===================================================================== *)
(** ** Face clustering                                                    *)
(* ===================================================================== *)

(** A cluster: the dict [{'encodings': [..], 'images': {..}}]. *)
Record cluster := {
  encodings : list encoding;
  images : gset Path
}.

(** [face_recognition.face_distance(encs, enc)]: one distance per known
    encoding. *)
Definition face_distance (env : Env) (encs : list encoding) (enc : encoding) : list Q :=
  map (fun e => face_distance1 env e enc) encs.

Definition Qmin_py (x y : Q) : Q := if Qltb y x then y else x.

(** [len(dists) > 0 and min(dists) < 0.6]. *)
Definition close_enough (dists : list Q) : bool :=
  match dists with
  | [] => false
  | d :: ds => Qltb (foldl Qmin_py d ds) (6 # 10)
  end.

(** [for c in clusters: ...], returning the clusters after the loop and
    the flag [found]. *)
Fixpoint scan_clusters (env : Env) (p : Path) (enc : encoding)
    (clusters : list cluster) : list cluster * bool :=
  match clusters with
  | [] => ([], false)
  | c :: rest =>
      if close_enough (face_distance env (encodings c) enc) then
        ({| encodings := encodings c ++ [enc]; images := images c ∪ {[p]} |} :: rest,
         true)
      else
        let r := scan_clusters env p enc rest in (c :: r.1, r.2)
  end.

(** The body of [for enc in encs]. *)
Definition add_encoding (env : Env) (p : Path) (clusters : list cluster)
    (enc : encoding) : list cluster :=
  let r := scan_clusters env p enc clusters in
  if r.2 then r.1
  else r.1 ++ [{| encodings := [enc]; images := {[p]} |}].

Definition add_image (env : Env) (clusters : list cluster) (p : Path) : list cluster :=
  foldl (add_encoding env p) clusters (face_encodings_for_image env p).

(** [for idx, p in enumerate(photos)]. *)
Fixpoint cluster_loop (env : Env) (stop_event : nat -> bool) (total idx : nat)
    (clusters : list cluster) (photos : list Path) : M (list cluster) :=
  match photos with
  | [] => mret clusters
  | p :: rest =>
      stopped ← is_set stop_event;
      if stopped : bool then mret clusters
      else
        let clusters' := add_image env clusters p in
        progress_cb (py_div (idx + 1) total);;
        cluster_loop env stop_event total (S idx) clusters' rest
  end.

(** [for img in c['images']], in the set's iteration order. *)
Fixpoint copy_images (env : Env) (p_dir : Path) (imgs : list Path)
    (img_list : list string) : M (list string) :=
  match imgs with
  | [] => mret img_list
  | img :: rest =>
      dest ← unique_dest_m (p_dir / name img)%path;
      copy2 env img dest;;
      copy_images env p_dir rest (img_list ++ [str dest])
  end.

(** [for i, c in enumerate(clusters, 1)]. *)
Fixpoint make_albums (env : Env) (faces_dir : Path) (i : nat)
    (clusters : list cluster) (final_groups : list (list string))
    : M (list (list string)) :=
  match clusters with
  | [] => mret final_groups
  | c :: rest =>
      let p_dir := (faces_dir / ("Person_" +:+ pretty i))%path in
      mkdir env p_dir;;
      img_list ← copy_images env p_dir (elements (images c)) [];
      make_albums env faces_dir (S i) rest (final_groups ++ [img_list])
  end.

Definition face_grouping_worker (env : Env) (stop_event : nat -> bool)
    (base : Path) (include_sub : bool) : M unit :=
  if negb (FACE_AVAILABLE env) then
    log_cb "Face recognition not installed.";;
    progress_cb 1
  else
    files ← iter_files env base include_sub;
    let photos :=
      List.filter (fun p => bool_decide (detect_group env p = Some "Photos")) files in
    let total := length photos in
    match photos with
    | [] =>
        log_cb "No photos found.";;
        progress_cb 1
    | _ =>
        log_cb ("Analyzing faces in " +:+ pretty total +:+ " photos...");;
        clusters ← cluster_loop env stop_event total 0 [] photos;
        let faces_dir := (base / "Faces")%path in
        mkdir env faces_dir;;
        final_groups ← make_albums env faces_dir 1 clusters [];
        log_cb ("Created " +:+ pretty (length final_groups) +:+ " face albums.");;
        emit (EvFaceResult final_groups)
    end.

(* ===================================================================== *)
(** ** Observing a run                                                    *)
(* ===================================================================== *)

(** The values passed to [progress_cb], in order. *)
Definition progress_of (tr : list event) : list Q :=
  omap (fun ev => match ev with EvProgress q => Some q | _ => None end) tr.

(** The lines passed to [log_cb], in order. *)
Definition logs_of (tr : list event) : list string :=
  omap (fun ev => match ev with EvLog msg => Some msg | _ => None end) tr.

(** The files the digest function was called on. *)
Definition hashed_of (tr : list event) : list Path :=
  omap (fun ev => match ev with EvHash p => Some p | _ => None end) tr.

(** The (source, destination) pairs of the copies and moves performed. *)
Definition placed_of (tr : list event) : list (Path * Path) :=
  omap (fun ev => match ev with
                  | EvCopy src dst | EvMove src dst => Some (src, dst)
                  | _ => None
                  end) tr.

(** The payloads passed to the duplicate scan's [result_cb]. *)
Definition dup_results_of (tr : list event) : list (list dup_group) :=
  omap (fun ev => match ev with EvDupResult r => Some r | _ => None end) tr.

Definition is_one (q : Q) : bool := Qeq_bool q 1.

(** How many times [progress_cb] was called with [1.0]. *)
Definition count_one (tr : list event) : nat :=
  length (List.filter is_one (progress_of tr)).

(** [[1/n; 2/n; ..; k/n]], starting at [i/n]. *)
Definition fractions (n i k : nat) : list Q :=
  map (fun j => py_div j n) (seq i k).

(** The files of a duplicate group: the kept one and the ones to delete. *)
Definition dup_members (d : dup_group) : list Path := keep d :: delete d.

(* ===================================================================== *)
(** ** The duplicate scan as a function of the listing                    *)
(* ===================================================================== *)

(** The size a file is bucketed under, when its [stat] succeeds. *)
Definition size_key (env : Env) (f : Path) : option Z :=
  match st_size env f with Ok z => Some z | Raise _ => None end.

(** The digest a file is grouped under, when it can be read. *)
Definition digest (env : Env) (f : Path) : option string :=
  match file_bytes env f with Ok b => Some (hexdigest env b) | Raise _ => None end.

(** The modification time of a file whose [stat] succeeds. *)
Definition mtime (env : Env) (f : Path) : Q :=
  match st_mtime env f with Ok t => t | Raise _ => 0 end.

(** Every file of [files] can be asked for its modification time. *)
Definition mtime_ok (env : Env) (files : list Path) : Prop :=
  forall f, f ∈ files -> exists t, st_mtime env f = Ok t.

(** Grouping by a key that may be missing: files without a key are left
    out, groups and their members keep the order of first appearance. *)
Definition group_by {K : Type} `{EqDecision K} (key : Path -> option K)
    (files : list Path) (acc : list (K * list Path)) : list (K * list Path) :=
  foldl (fun d f => match key f with
                    | Some k => setdefault_append k f d
                    | None => d
                    end) acc files.

(** The value stored under [k], or the empty list. *)
Definition lookup_list {K V : Type} `{EqDecision K} (k : K) (d : list (K * list V))
    : list V :=
  match List.find (fun kv => bool_decide (kv.1 = k)) d with
  | Some kv => kv.2
  | None => []
  end.

(** A dict built by [setdefault(..).append(..)] alone: distinct keys, no
    empty value. *)
Definition dict_wf {K V : Type} (d : list (K * list V)) : Prop :=
  NoDup d.*1 /\ forall k vs, (k, vs) ∈ d -> vs <> [].

(** The first element with the greatest key. *)
Fixpoint first_max_loop (t : Path -> Q) (items : list Path) (maxitem : Path) : Path :=
  match items with
  | [] => maxitem
  | item :: rest =>
      if Qltb (t maxitem) (t item) then first_max_loop t rest item
      else first_max_loop t rest maxitem
  end.

Definition first_max (t : Path -> Q) (items : list Path) : Path :=
  match items with
  | [] => []
  | item :: rest => first_max_loop t rest item
  end.

(** The duplicate group made of one digest group. *)
Definition mk_dup (env : Env) (h_group : list Path) : dup_group :=
  let k := first_max (mtime env) h_group in
  {| keep := k;
     delete := List.filter (fun p => negb (bool_decide (p = k))) h_group;
     reason := "exact" |}.

Definition dups_of_hashes (env : Env) (h_groups : list (list Path)) : list dup_group :=
  mk_dup env <$> List.filter (fun g => (1 <? length g)%nat) h_groups.

(** The duplicate groups found in one size bucket. *)
Definition bucket_dups (env : Env) (group : list Path) : list dup_group :=
  if (length group <? 2)%nat then []
  else dups_of_hashes env (values (group_by (digest env) group [])).

(** The events of one size bucket that is not cancelled. *)
Definition bucket_events (env : Env) (total i : nat) (group : list Path) : list event :=
  (if (length group <? 2)%nat then [] else EvHash <$> group)
  ++ [EvProgress (py_div i total)].

Fixpoint scan_events (env : Env) (total cur : nat) (groups : list (list Path))
    : list event :=
  match groups with
  | [] => []
  | g :: rest => bucket_events env total (S cur) g ++ scan_events env total (S cur) rest
  end.

(** The size buckets of a listing, in order of first appearance. *)
Definition size_buckets (env : Env) (files : list Path) : list (list Path) :=
  values (group_by (size_key env) files []).

(** The files of the listing that have a given size. *)
Definition bucket_of (env : Env) (files : list Path) (sz : Z) : list Path :=
  List.filter (fun f => bool_decide (size_key env f = Some sz)) files.

(** A duplicate group has a file in [g]. *)
Definition touches (g : list Path) (d : dup_group) : bool :=
  bool_decide (Exists (fun p => p ∈ g) (dup_members d)).

(** The files a duplicate scan looks at, given what [iter_files]
    returned. *)
Definition scan_listing (env : Env) (images_only : bool) (files : list Path) : list Path :=
  if images_only then
    List.filter (fun f => bool_decide (detect_group env f = Some "Photos")) files
  else files.

(** What [collect_duplicates] may add for a digest group [h]. *)
Definition made_from (h : list Path) (d : dup_group) : Prop :=
  (1 < length h)%nat /\ keep d ∈ h /\
  delete d = List.filter (fun p => negb (bool_decide (p = keep d))) h.

(** What the bucket loop may emit: progress, and digest calls on files of
    buckets with at least two files. *)
Definition scan_event_ok (groups : list (list Path)) (ev : event) : Prop :=
  match ev with
  | EvHash p => exists g, g ∈ groups /\ p ∈ g /\ (2 <= length g)%nat
  | EvProgress _ => True
  | _ => False
  end.

(** What the bucket loop may add to the duplicates: a group made from a
    digest group of one of the buckets with at least two files. *)
Definition scan_group_ok (env : Env) (groups : list (list Path)) (d : dup_group) : Prop :=
  exists g h, g ∈ groups /\ (2 <= length g)%nat /\
              h ∈ values (group_by (digest env) g []) /\ made_from h d.

(* ===================================================================== *)
(** ** Face clustering in the specification's words                       *)
(* ===================================================================== *)

(** The minimum distance between [enc] and the vectors already in [c] is
    below the threshold. *)
Definition matches (env : Env) (enc : encoding) (c : cluster) : Prop :=
  exists m, m ∈ face_distance env (encodings c) enc /\
            (forall d, d ∈ face_distance env (encodings c) enc -> (m <= d)%Q) /\
            (m < 6 # 10)%Q.

(** [c] after it took in the vector [enc] of image [p]. *)
Definition absorb (p : Path) (enc : encoding) (c : cluster) : cluster :=
  {| encodings := encodings c ++ [enc]; images := images c ∪ {[p]} |}.

(** The new cluster made of the vector [enc] of image [p] alone. *)
Definition fresh (p : Path) (enc : encoding) : cluster :=
  {| encodings := [enc]; images := {[p]} |}.

Definition cluster_nonempty (c : cluster) : Prop :=
  encodings c <> [] /\ images c <> ∅.

(** [c'] is [c] after it took in more vectors and images. *)
Definition cluster_grows (c c' : cluster) : Prop :=
  encodings c `prefix_of` encodings c' /\ images c ⊆ images c'.

(** Every cluster of [cl] is still there, at its place and possibly
    grown; new clusters come after. *)
Definition clusters_grow (cl cl' : list cluster) : Prop :=
  exists ext new, cl' = ext ++ new /\ Forall2 cluster_grows cl ext.

(* ===================================================================== *)
(** ** Vocabulary of the statements                                       *)
(* ===================================================================== *)

(** The part of [face_grouping_worker] that follows the clustering loop:
    the albums are written and the result is delivered. *)
Definition face_finish (env : Env) (base : Path) (clusters : list cluster) : M unit :=
  let faces_dir := (base / "Faces")%path in
  mkdir env faces_dir;;
  final_groups ← make_albums env faces_dir 1 clusters [];
  log_cb ("Created " +:+ pretty (length final_groups) +:+ " face albums.");;
  emit (EvFaceResult final_groups).

(** The photos a face-clustering run looks at, given what [iter_files]
    returned. *)
Definition photos_of (env : Env) (files : list Path) : list Path :=
  List.filter (fun p => bool_decide (detect_group env p = Some "Photos")) files.


(** The last line passed to [log_cb]: what the status label of the
    presentation layer shows once the run is over. *)
Definition last_log (tr : list event) : option string := last (logs_of tr).


(** Classes of events. *)
Definition not_progress (ev : event) : Prop :=
  match ev with EvProgress _ => False | _ => True end.

Definition not_io (ev : event) : Prop :=
  match ev with EvHash _ | EvCopy _ _ | EvMove _ _ => False | _ => True end.

Definition not_log (ev : event) : Prop :=
  match ev with EvLog _ => False | _ => True end.

(** [m] only emits events satisfying [P], and does not poll the stop
    event. *)
Definition emits (P : event -> Prop) {A} (m : M A) : Prop :=
  forall s, Forall P (trace (m s)) /\ polls (final (m s)) = polls s.

(** [m] never raises. *)
Definition total {A} (m : M A) : Prop := forall s, exists a, result (m s) = Ok a.

Create HintDb emits.

(* ===================================================================== *)
(** ** A concrete directory                                               *)
(* ===================================================================== *)

(** The end-to-end scenario of the specification: a directory [d] with
    [a.jpg] and [b.jpg] (1024 bytes, same content, [b.jpg] modified last)
    and [c.txt] (50 bytes), and variations of it. *)
Module Demo.

Definition base : Path := ["d"].
Definition a : Path := ["d"; "a.jpg"].
Definition b : Path := ["d"; "b.jpg"].
Definition c : Path := ["d"; "c.txt"].

(** [a.jpg] shows one face; [b.jpg] shows that face and another one, far
    from it; [c.txt] shows none. *)
Definition faces (p : Path) : list encoding :=
  if bool_decide (p = a) then [[0%Q]]
  else if bool_decide (p = b) then [[0%Q]; [1%Q]]
  else [].

Definition distance (e1 e2 : encoding) : Q :=
  let d := (List.hd 0 e1 - List.hd 0 e2)%Q in
  if Qle_bool 0 d then d else (- d)%Q.

(** The Kelvin sign U+212A, as its three UTF-8 bytes. *)
Definition kelvin : string :=
  String (Ascii.ascii_of_nat 226)
    (String (Ascii.ascii_of_nat 132) (String (Ascii.ascii_of_nat 170) "")).

(** The part of the Unicode lowering that the demo needs: the Kelvin sign
    becomes [k], ASCII letters are lowered, other bytes are kept. *)
Fixpoint lower_kelvin_fuel (fuel : nat) (s : string) : string :=
  match fuel with
  | 0 => s
  | S fuel =>
      if String.prefix kelvin s
      then String "k" (lower_kelvin_fuel fuel
                         (String.substring 3 (String.length s - 3) s))
      else match s with
           | EmptyString => EmptyString
           | String x s' => String (Str.lower_ascii x) (lower_kelvin_fuel fuel s')
           end
  end.

Definition lower_kelvin (s : string) : string :=
  lower_kelvin_fuel (String.length s) s.

(** [read_error p] is the error reading [p] raises, if any; a file that
    cannot be read cannot be copied either, and the failing copy has
    created its destination. Buffers of up to one megabyte can be
    allocated. *)
Definition make_env (listing : list Path) (read_error : Path -> option string) : Env :=
  {| is_dir := fun _ => false;
     is_file := fun _ => true;
     iterdir := fun _ => Ok listing;
     rglob := fun _ => Ok listing;
     st_size := fun p => if bool_decide (p = c) then Ok 50%Z else Ok 1024%Z;
     st_mtime := fun p => Ok (if bool_decide (p = b) then 5%Q else 3%Q);
     file_bytes := fun p =>
       match read_error p with
       | Some e => Raise e
       | None => if bool_decide (p = c) then Ok "text" else Ok "image"
       end;
     mkdir_error := fun _ => None;
     copy_error := fun src _ => read_error src;
     move_error := fun _ _ => None;
     mkdir_partial := fun _ => 0;
     copy_partial := fun _ _ => true;
     move_partial := fun _ _ => false;
     alloc_error := fun n =>
       if (n <=? 1024 * 1024)%Z then None else Some "MemoryError";
     unicode_lower := lower_kelvin;
     guess_type := fun _ => None;
     hexdigest := fun bytes => "sha256:" +:+ bytes;
     PIL_AVAILABLE := false;
     exif_datetime := fun _ => None;
     FACE_AVAILABLE := true;
     face_encodings := fun p => Ok (faces p);
     face_distance1 := distance |}.

Definition env : Env := make_env [a; b; c] (fun _ => None).


Definition start : State := {| fs := {[ base; a; b; c ]}; polls := 0 |}.

(** The stop event is never set. *)
Definition never : nat -> bool := fun _ => false.

(** The stop event is set before the first poll. *)
Definition at_once : nat -> bool := fun _ => true.

(** The stop event is set while the first unit of work is done. *)
Definition after_one : nat -> bool := fun k => (1 <=? k)%nat.

End Demo.

(* ===================================================================== *)
(** ** Further definitions                                                *)
(* ===================================================================== *)

(** The loop that builds [EXT_TO_GROUP], run on any table. *)
Definition ext_table (extensions : list (string * list string)) : gmap string string :=
  foldl (fun m gs =>
           foldl (fun m' e => <[e := gs.1]> m') m gs.2)
        ∅ extensions.


(** [Worker.run]: an exception of the target is printed to the console,
    which the log and progress callbacks never see, and the thread ends. *)
Definition Worker_run {A : Type} (target : M A) : M unit :=
  try_except (target;; mret tt) (fun _ => mret tt).

Module Demo2.

(** The environment of [Demo.env] with a base directory in which the
    folder [Archives] cannot be created. *)
Definition env_readonly : Env :=
  {| is_dir := is_dir Demo.env;
     is_file := is_file Demo.env;
     iterdir := iterdir Demo.env;
     rglob := rglob Demo.env;
     st_size := st_size Demo.env;
     st_mtime := st_mtime Demo.env;
     file_bytes := file_bytes Demo.env;
     mkdir_error := fun p =>
       if bool_decide (p = (Demo.base / "Archives")%path)
       then Some "Permission denied" else None;
     copy_error := copy_error Demo.env;
     move_error := move_error Demo.env;
     mkdir_partial := mkdir_partial Demo.env;
     copy_partial := copy_partial Demo.env;
     move_partial := move_partial Demo.env;
     alloc_error := alloc_error Demo.env;
     unicode_lower := unicode_lower Demo.env;
     guess_type := guess_type Demo.env;
     hexdigest := hexdigest Demo.env;
     PIL_AVAILABLE := PIL_AVAILABLE Demo.env;
     exif_datetime := exif_datetime Demo.env;
     FACE_AVAILABLE := FACE_AVAILABLE Demo.env;
     face_encodings := face_encodings Demo.env;
     face_distance1 := face_distance1 Demo.env |}.

End Demo2.

(** What one iteration of the sort loop leaves in the trace for the file
    [f]: the error line, or the placement followed by its log line. *)
Definition item_events (move_mode : bool) (f : Path) (evs : list event) : Prop :=
  (exists e, evs = [EvLog ("Error " +:+ name f +:+ ": " +:+ e)]) \/
  (exists d, evs = if move_mode then [EvMove f d; EvLog ("Moved: " +:+ name f)]
                   else [EvCopy f d; EvLog ("Copied: " +:+ name f)]).

(** The events of the iterations [idx, idx + 1, ..], each followed by its
    progress call. *)
Definition with_progress (total idx : nat) (chunks : list (list event)) : list event :=
  concat (zip_with (fun evs i => evs ++ [EvProgress (py_div i total)])
                   chunks (seq idx (length chunks))).

(** A digest group of one of the size buckets with at least two files,
    with at least two files itself, all of which can be asked for their
    modification time. *)
Definition dup_class (env : Env) (groups : list (list Path)) (h : list Path) : Prop :=
  exists g, g ∈ groups /\ (2 <= length g)%nat /\
            h ∈ values (group_by (digest env) g []) /\
            (1 < length h)%nat /\ mtime_ok env h.

(** The files of [scanned] that have the size and the digest of [p]. *)
Definition content_class (env : Env) (scanned : list Path) (p : Path) : list Path :=
  List.filter (fun f => bool_decide (size_key env f = size_key env p)
                        && bool_decide (digest env f = digest env p)) scanned.

(** All the vectors held by a list of clusters, and all their images. *)
Definition all_encodings (clusters : list cluster) : list encoding :=
  concat (encodings <$> clusters).

Definition all_images (clusters : list cluster) : gset Path :=
  ⋃ (images <$> clusters).

(** The payloads passed to the face grouping's [result_cb]. *)
Definition face_results_of (tr : list event) : list (list (list string)) :=
  omap (fun ev => match ev with EvFaceResult r => Some r | _ => None end) tr.

(** The events of a list of copies. *)
Definition copies (pairs : list (Path * Path)) : list event :=
  (fun pd => EvCopy pd.1 pd.2) <$> pairs.

(** A copy made between the file systems [fs0] and [fs1]: it met no
    error and went to a path that did not exist in [fs0]. *)
Definition fresh_copy (env : Env) (fs0 fs1 : gset Path) (pd : Path * Path) : Prop :=
  (pd.2 ∉ fs0) /\ (pd.2 ∈ fs1) /\ copy_error env pd.1 pd.2 = None.

(** A sequence of progress values that never goes back and stays within
    the range of a progress bar. *)
Definition progress_ok (qs : list Q) : Prop :=
  StronglySorted Qle qs /\ Forall (fun q => (0 < q)%Q /\ (q <= 1)%Q) qs.

(* ===================================================================== *)
(** ** The read loop of [sha256]                                          *)
(* ===================================================================== *)

(** The first [n] bytes of [s], and what follows them. *)
Fixpoint bytes_take (n : nat) (s : string) : string :=
  match n, s with
  | S n, String a s => String a (bytes_take n s)
  | _, _ => ""
  end.

Fixpoint bytes_drop (n : nat) (s : string) : string :=
  match n, s with
  | S n, String _ s => bytes_drop n s
  | _, _ => s
  end.

(** [f.read(chunk)] on a buffered binary file whose unread content is
    [rest]: the bytes returned and the content left. The size [-1] reads
    up to the end of the file and a smaller size is refused; the size
    [0] returns no byte; a positive size needs a buffer of that many
    bytes, which the interpreter may be unable to allocate. *)
Definition read (env : Env) (chunk : Z) (rest : string) : outcome (string * string) :=
  if (chunk <? -1)%Z then Raise "read length must be non-negative or -1"
  else if (chunk =? -1)%Z then Ok (rest, "")
  else if (chunk =? 0)%Z then Ok ("", rest)
  else match alloc_error env chunk with
       | Some e => Raise e
       | None =>
           Ok (bytes_take (Z.to_nat chunk) rest, bytes_drop (Z.to_nat chunk) rest)
       end.

(** The loop [while True: b = f.read(chunk); if not b: break;
    h.update(b)]. The hasher is the bytes fed to it so far: feeding
    chunks one after the other is feeding their concatenation. [None]
    stands for a loop that has not ended within [fuel] reads. *)
Fixpoint feed_chunks (env : Env) (fuel : nat) (chunk : Z) (rest fed : string)
    : option (outcome string) :=
  match fuel with
  | 0 => None
  | S fuel =>
      match read env chunk rest with
      | Raise e => Some (Raise e)
      | Ok (b, rest') =>
          if String.eqb b "" then Some (Ok fed)
          else feed_chunks env fuel chunk rest' (fed +:+ b)
      end
  end.

(** [sha256(path, chunk)], with the read loop written out. One read per
    byte of the file and one more are always enough. *)
Definition sha256_chunked (env : Env) (path : Path) (chunk : Z) : M string :=
  emit (EvHash path);;
  content ← lift (file_bytes env path);
  match feed_chunks env (S (String.length content)) chunk content "" with
  | Some (Ok fed) => mret (hexdigest env fed)
  | Some (Raise e) => raise e
  | None => raise "read loop did not end"
  end.

(** Where a sort puts the file [src]: in the folder of its category
    under [base], or for a photo with an EXIF date, when sorting by date
    is asked for, in the folder of its year and month below; under its
    own name, or under its name with a counter put before the suffix. *)
Definition sorted_to (env : Env) (base : Path) (groups_selected : list string)
    (exif_by_date : bool) (src d : Path) : Prop :=
  exists g,
    effective_group env groups_selected src = Some g /\
    parent d =
      match (if String.eqb g "Photos" && exif_by_date && PIL_AVAILABLE env
             then get_exif_date env src else None) with
      | Some dt => (base / g / pretty (year dt) / Str.pad2 (month dt))%path
      | None => (base / g)%path
      end /\
    (name d = name src \/
     exists n, 1 <= n /\
               name d = stem src +:+ " (" +:+ pretty n +:+ ")" +:+ suffix src).

(* ===================================================================== *)
(** ** Vocabulary of the classifier and of the sort on the file system   *)
(* ===================================================================== *)

(** [written] is [listed] with some of its ASCII letters in upper case. *)
Fixpoint upper_variant (written listed : string) : bool :=
  match written, listed with
  | EmptyString, EmptyString => true
  | String a w, String b l =>
      (Ascii.eqb a b ||
       (let n := Ascii.nat_of_ascii b in
        (97 <=? n)%nat && (n <=? 122)%nat && (Ascii.nat_of_ascii a =? n - 32)%nat))
      && upper_variant w l
  | _, _ => false
  end.

Module Demo3.

(** The environment of [Demo.env] with a [mimetypes] that knows three
    names. *)
Definition env_mime : Env :=
  {| is_dir := is_dir Demo.env;
     is_file := is_file Demo.env;
     iterdir := iterdir Demo.env;
     rglob := rglob Demo.env;
     st_size := st_size Demo.env;
     st_mtime := st_mtime Demo.env;
     file_bytes := file_bytes Demo.env;
     mkdir_error := mkdir_error Demo.env;
     copy_error := copy_error Demo.env;
     move_error := move_error Demo.env;
     mkdir_partial := mkdir_partial Demo.env;
     copy_partial := copy_partial Demo.env;
     move_partial := move_partial Demo.env;
     alloc_error := alloc_error Demo.env;
     unicode_lower := unicode_lower Demo.env;
     guess_type := fun nm =>
       if String.eqb nm "d/clip.mpeg" then Some "video/mpeg"
       else if String.eqb nm "d/drawing.svg" then Some "image/svg+xml"
       else if String.eqb nm "d/setup.exe" then Some "application/x-msdownload"
       else None;
     hexdigest := hexdigest Demo.env;
     PIL_AVAILABLE := PIL_AVAILABLE Demo.env;
     exif_datetime := exif_datetime Demo.env;
     FACE_AVAILABLE := FACE_AVAILABLE Demo.env;
     face_encodings := face_encodings Demo.env;
     face_distance1 := face_distance1 Demo.env |}.

End Demo3.

(** The paths a sort may create under [base]: [base] itself and the
    folders above it, and everything in or below a category folder. *)
Definition created_by_sort (base p : Path) : Prop :=
  p `prefix_of` base \/
  exists g, g ∈ DEFAULT_FOLDERS /\ (base / g)%path `prefix_of` p.

(* ===================================================================== *)
(** * Properties                                                          *)
(* ===================================================================== *)

(* ===================================================================== *)
(** ** Classifier                                                         *)
(* ===================================================================== *)

Section Classifier.

Variable env : Env.

Lemma mime_loop_find mime rules :
  mime_loop mime rules =
  (fun rule => rule.2) <$> List.find (fun rule => String.prefix rule.1 mime) rules.
Proof.
  induction rules as [|[key group] rest IH]; simpl; [reflexivity|].
  unfold Str.startswith. destruct (String.prefix key mime); [reflexivity|apply IH].
Qed.

(** The test [mime == "application/pdf"] after the loop never succeeds:
    the loop already returned on the rule with that key. *)
Lemma mime_loop_pdf mime :
  mime_loop mime MIME_MAP = None -> String.eqb mime "application/pdf" = false.
Proof.
  intros H. destruct (String.eqb mime "application/pdf") eqn:E; [|reflexivity].
  apply String.eqb_eq in E. subst mime. vm_compute in H. discriminate.
Qed.

Lemma detect_group_refines path :
  is_dir env path = false ->
  detect_group env path = Some (classify_spec env path).
Proof.
  intros Hdir. unfold detect_group, classify_spec. rewrite Hdir.
  destruct (EXT_TO_GROUP !! lower env (suffix path)); [reflexivity|].
  destruct (guess_type env (str path)) as [mime|]; [|reflexivity].
  destruct (Str.nonempty mime) eqn:Hne.
  - pose proof (mime_loop_pdf mime) as Hpdf.
    rewrite mime_loop_find in *.
    destruct (List.find _ MIME_MAP) as [rule|]; simpl in *; [reflexivity|].
    by rewrite Hpdf.
  - destruct mime; [|discriminate]. reflexivity.
Qed.

End Classifier.

(* ===================================================================== *)
(** ** Destination resolver                                               *)
(* ===================================================================== *)

Section Resolver.

Lemma string_length_app (s1 s2 : string) :
  String.length (s1 +:+ s2) = String.length s1 + String.length s2.
Proof.
  induction s1 as [|a s1 IH]; [reflexivity|].
  change (S (String.length (s1 +:+ s2)) = S (String.length s1 + String.length s2)).
  by rewrite IH.
Qed.

Lemma string_app_inv_tail (s1 s2 r : string) :
  s1 +:+ r = s2 +:+ r -> s1 = s2.
Proof.
  revert s2. induction s1 as [|a s1 IH]; intros [|b s2] H.
  - reflexivity.
  - apply (f_equal String.length) in H.
    rewrite !string_length_app in H. simpl in H. lia.
  - apply (f_equal String.length) in H.
    rewrite !string_length_app in H. simpl in H. lia.
  - change (String a (s1 +:+ r) = String b (s2 +:+ r)) in H.
    injection H as -> H. f_equal. by apply IH.
Qed.

Lemma candidate_inj dest i j : candidate dest i = candidate dest j -> i = j.
Proof.
  unfold candidate, div. intros H.
  apply app_inv_head in H. injection H as H.
  apply (inj (String.app _)) in H.
  apply (inj (String.app _)) in H.
  apply string_app_inv_tail in H.
  by apply (inj pretty) in H.
Qed.

#[local] Instance candidate_Inj dest : Inj (=) (=) (candidate dest).
Proof. intros i j. apply candidate_inj. Qed.

Variable exists_ : Path -> bool.

Lemma unique_dest_loop_free dest fuel i r :
  unique_dest_loop exists_ dest fuel i = Some r -> exists_ r = false.
Proof.
  revert i. induction fuel as [|fuel IH]; intros i; simpl; [discriminate|].
  destruct (exists_ (candidate dest i)) eqn:E; simpl.
  - apply IH.
  - intros [= <-]. exact E.
Qed.

Lemma unique_dest_loop_None dest fuel i :
  unique_dest_loop exists_ dest fuel i = None ->
  forall j, i <= j < i + fuel -> exists_ (candidate dest j) = true.
Proof.
  revert i. induction fuel as [|fuel IH]; intros i H j Hj; [lia|].
  simpl in H. destruct (exists_ (candidate dest i)) eqn:E; simpl in H; [|discriminate].
  destruct (decide (j = i)) as [->|Hne]; [exact E|].
  apply (IH (S i) H). lia.
Qed.

(** The loop stops at the first free candidate, if the fuel reaches it. *)
Lemma unique_dest_loop_first dest fuel i n :
  (forall j, i <= j < n -> exists_ (candidate dest j) = true) ->
  exists_ (candidate dest n) = false ->
  i <= n < i + fuel ->
  unique_dest_loop exists_ dest fuel i = Some (candidate dest n).
Proof.
  revert i. induction fuel as [|fuel IH]; intros i Hbusy Hfree Hn; [lia|].
  simpl. destruct (decide (i = n)) as [->|Hne].
  - by rewrite Hfree.
  - rewrite Hbusy by lia. simpl. apply IH; [|exact Hfree|lia].
    intros j Hj. apply Hbusy. lia.
Qed.

End Resolver.

Section ResolverFinite.

Variable fs : gset Path.

(** Consecutive candidates that all exist are no more than the paths of
    the file system. *)
Lemma candidates_bounded dest i n :
  (forall j, i <= j < i + n -> candidate dest j ∈ fs) -> n <= size fs.
Proof.
  intros H.
  assert (Hsub : list_to_set (C := gset Path) (candidate dest <$> seq i n) ⊆ fs).
  { intros p Hp. apply elem_of_list_to_set, list_elem_of_fmap in Hp.
    destruct Hp as (j & -> & Hj). apply elem_of_seq in Hj. apply H. lia. }
  apply subseteq_size in Hsub.
  rewrite size_list_to_set in Hsub.
  - by rewrite length_fmap, length_seq in Hsub.
  - apply NoDup_fmap_2; [apply candidate_Inj|apply NoDup_seq].
Qed.

Lemma path_exists_true p : path_exists fs p = true <-> p ∈ fs.
Proof. unfold path_exists. by rewrite bool_decide_eq_true. Qed.

Lemma path_exists_false p : path_exists fs p = false <-> p ∉ fs.
Proof. unfold path_exists. by rewrite bool_decide_eq_false. Qed.

Lemma unique_dest_fuel_enough dest :
  unique_dest_fuel (path_exists fs) (S (size fs)) dest = Some (unique_dest fs dest).
Proof.
  unfold unique_dest.
  destruct (unique_dest_fuel (path_exists fs) (S (size fs)) dest) as [r|] eqn:E;
    [reflexivity|exfalso].
  unfold unique_dest_fuel in E.
  destruct (negb (path_exists fs dest)); [discriminate|].
  pose proof (unique_dest_loop_None _ _ _ _ E) as Hall.
  assert (S (size fs) <= size fs); [|lia].
  apply (candidates_bounded dest 1). intros j Hj.
  apply path_exists_true, Hall. lia.
Qed.

Lemma unique_dest_not_exists dest : unique_dest fs dest ∉ fs.
Proof.
  pose proof (unique_dest_fuel_enough dest) as E. unfold unique_dest_fuel in E.
  destruct (path_exists fs dest) eqn:Hd; unfold negb in E.
  - apply unique_dest_loop_free in E. by apply path_exists_false.
  - injection E as <-. by apply path_exists_false.
Qed.

Lemma unique_dest_unchanged dest : dest ∉ fs -> unique_dest fs dest = dest.
Proof.
  intros Hd. apply path_exists_false in Hd.
  unfold unique_dest, unique_dest_fuel. by rewrite Hd.
Qed.

Lemma unique_dest_nth dest n :
  1 <= n -> dest ∈ fs ->
  (forall i, 1 <= i < n -> candidate dest i ∈ fs) ->
  candidate dest n ∉ fs ->
  unique_dest fs dest = candidate dest n.
Proof.
  intros Hn Hd Hbusy Hfree.
  apply path_exists_true in Hd. apply path_exists_false in Hfree.
  unfold unique_dest, unique_dest_fuel. rewrite Hd. simpl negb. cbv iota.
  rewrite (unique_dest_loop_first (path_exists fs) dest (S (size fs)) 1 n); [reflexivity| |exact Hfree|].
  - intros j Hj. apply path_exists_true, Hbusy. lia.
  - assert (n - 1 <= size fs); [|lia].
    apply (candidates_bounded dest 1). intros j Hj. apply Hbusy. lia.
Qed.

End ResolverFinite.

(* ===================================================================== *)
(** ** Running the monad                                                  *)
(* ===================================================================== *)

Section Runs.

Context {A B : Type}.

Lemma run_bind (m : M A) (f : A -> M B) (s : State) :
  (m ≫= f) s =
  match result (m s) with
  | Raise e => {| trace := trace (m s); final := final (m s); result := Raise e |}
  | Ok a =>
      {| trace := trace (m s) ++ trace (f a (final (m s)));
         final := final (f a (final (m s)));
         result := result (f a (final (m s))) |}
  end.
Proof. reflexivity. Qed.

Lemma run_bind_ok (m : M A) (f : A -> M B) (s : State) (a : A) :
  result (m s) = Ok a ->
  (m ≫= f) s =
  {| trace := trace (m s) ++ trace (f a (final (m s)));
     final := final (f a (final (m s)));
     result := result (f a (final (m s))) |}.
Proof. intros H. rewrite run_bind, H. reflexivity. Qed.

Lemma run_bind_raise (m : M A) (f : A -> M B) (s : State) (e : string) :
  result (m s) = Raise e ->
  (m ≫= f) s = {| trace := trace (m s); final := final (m s); result := Raise e |}.
Proof. intros H. rewrite run_bind, H. reflexivity. Qed.

(** Whatever happens, the trace of [m] is a prefix of the trace of
    [m ≫= f]. *)
Lemma trace_bind (m : M A) (f : A -> M B) (s : State) :
  trace ((m ≫= f) s) =
  trace (m s) ++
  match result (m s) with
  | Ok a => trace (f a (final (m s)))
  | Raise _ => []
  end.
Proof. rewrite run_bind. destruct (result (m s)); simpl; [reflexivity|by rewrite app_nil_r]. Qed.

End Runs.

Lemma run_try_except {A} (m : M A) (h : string -> M A) (s : State) :
  try_except m h s =
  match result (m s) with
  | Ok a => m s
  | Raise e =>
      {| trace := trace (m s) ++ trace (h e (final (m s)));
         final := final (h e (final (m s)));
         result := result (h e (final (m s))) |}
  end.
Proof. reflexivity. Qed.

(** *** Trace invariants that compose *)

Section Emits.

Variable P : event -> Prop.

Lemma emits_ret {A} (a : A) : emits P (mret a).
Proof. intros s. split; [constructor|reflexivity]. Qed.

Lemma emits_raise {A} e : emits P (@raise A e).
Proof. intros s. split; [constructor|reflexivity]. Qed.

Lemma emits_lift {A} (o : outcome A) : emits P (lift o).
Proof. destruct o; [apply (emits_ret a)|apply emits_raise]. Qed.

Lemma emits_emit ev : P ev -> emits P (emit ev).
Proof. intros H s. split; [by repeat constructor|reflexivity]. Qed.

Lemma emits_get_fs : emits P get_fs.
Proof. intros s. split; [constructor|reflexivity]. Qed.

Lemma emits_modify_fs f : emits P (modify_fs f).
Proof. intros s. split; [constructor|reflexivity]. Qed.

Lemma emits_bind {A B} (m : M A) (f : A -> M B) :
  emits P m -> (forall a, emits P (f a)) -> emits P (m ≫= f).
Proof.
  intros Hm Hf s. destruct (Hm s) as [Ht Hp]. rewrite run_bind.
  destruct (result (m s)) as [a|e]; simpl; [|by split].
  destruct (Hf a (final (m s))) as [Ht' Hp'].
  split; [by apply Forall_app|congruence].
Qed.

Lemma emits_try_except {A} (m : M A) (h : string -> M A) :
  emits P m -> (forall e, emits P (h e)) -> emits P (try_except m h).
Proof.
  intros Hm Hh s. destruct (Hm s) as [Ht Hp]. rewrite run_try_except.
  destruct (result (m s)) as [a|e]; simpl; [by split|].
  destruct (Hh e (final (m s))) as [Ht' Hp'].
  split; [by apply Forall_app|congruence].
Qed.

End Emits.

#[local] Hint Resolve emits_ret emits_raise emits_lift emits_emit emits_get_fs
  emits_modify_fs emits_bind emits_try_except : emits.

(** A handler that cannot raise makes the whole [try] unable to raise. *)
Lemma total_try_except {A} (m : M A) (h : string -> M A) :
  (forall e, total (h e)) -> total (try_except m h).
Proof.
  intros Hh s. rewrite run_try_except.
  destruct (result (m s)) as [a|e] eqn:E; [eauto|]. simpl. apply Hh.
Qed.

Lemma total_log msg : total (log_cb msg).
Proof. intros s. by exists tt. Qed.

(** *** Reading a trace *)

Lemma progress_of_app tr1 tr2 :
  progress_of (tr1 ++ tr2) = progress_of tr1 ++ progress_of tr2.
Proof. apply omap_app. Qed.

Lemma logs_of_app tr1 tr2 : logs_of (tr1 ++ tr2) = logs_of tr1 ++ logs_of tr2.
Proof. apply omap_app. Qed.

Lemma hashed_of_app tr1 tr2 : hashed_of (tr1 ++ tr2) = hashed_of tr1 ++ hashed_of tr2.
Proof. apply omap_app. Qed.

Lemma placed_of_app tr1 tr2 : placed_of (tr1 ++ tr2) = placed_of tr1 ++ placed_of tr2.
Proof. apply omap_app. Qed.

Lemma progress_of_quiet tr : Forall not_progress tr -> progress_of tr = [].
Proof.
  induction 1 as [|ev tr Hev _ IH]; [reflexivity|].
  destruct ev; simpl in *; try exact IH. contradiction.
Qed.

Lemma logs_of_quiet tr : Forall not_log tr -> logs_of tr = [].
Proof.
  induction 1 as [|ev tr Hev _ IH]; [reflexivity|].
  destruct ev; simpl in *; try exact IH. contradiction.
Qed.

Lemma hashed_of_quiet tr : Forall not_io tr -> hashed_of tr = [].
Proof.
  induction 1 as [|ev tr Hev _ IH]; [reflexivity|].
  destruct ev; simpl in *; try exact IH. contradiction.
Qed.

Lemma placed_of_quiet tr : Forall not_io tr -> placed_of tr = [].
Proof.
  induction 1 as [|ev tr Hev _ IH]; [reflexivity|].
  destruct ev; simpl in *; try exact IH; contradiction.
Qed.

Lemma fractions_cons n i k : fractions n i (S k) = py_div i n :: fractions n (S i) k.
Proof. reflexivity. Qed.

Lemma is_one_py_div i n : (0 < n)%nat -> is_one (py_div i n) = bool_decide (i = n).
Proof.
  intros Hn. unfold is_one, py_div, Qeq_bool. simpl.
  rewrite Z.mul_1_r.
  assert (Hpos : Z.pos (Pos.of_nat n) = Z.of_nat n).
  { rewrite <- positive_nat_Z, Nat2Pos.id by lia. reflexivity. }
  rewrite Hpos, ?Z.mul_1_l.
  destruct (bool_decide_reflect (i = n)) as [->|Hne].
  - apply Z.eqb_eq. reflexivity.
  - apply Z.eqb_neq. lia.
Qed.

(** Among [i/n, .., (i+k-1)/n] with [1 <= i], the value [1.0] occurs
    once if [n] is in range and not at all otherwise. *)
Lemma count_one_fractions n i k :
  (0 < n)%nat ->
  length (List.filter is_one (fractions n i k)) =
  if bool_decide (i <= n < i + k)%nat then 1%nat else 0%nat.
Proof.
  intros Hn. revert i. induction k as [|k IH]; intros i.
  - simpl. by rewrite bool_decide_eq_false_2 by lia.
  - rewrite fractions_cons. simpl. rewrite is_one_py_div by done.
    destruct (bool_decide_reflect (i = n)) as [->|Hne]; simpl; rewrite IH.
    + rewrite bool_decide_eq_false_2 by lia. by rewrite bool_decide_eq_true_2 by lia.
    + destruct (bool_decide_reflect (S i <= n < S i + k)%nat).
      * by rewrite bool_decide_eq_true_2 by lia.
      * by rewrite bool_decide_eq_false_2 by lia.
Qed.

(* ===================================================================== *)
(** ** Sort                                                               *)
(* ===================================================================== *)

Ltac emits_step :=
  match goal with
  | |- emits _ (mret _) => apply emits_ret
  | |- emits _ (raise _) => apply emits_raise
  | |- emits _ (lift _) => apply emits_lift
  | |- emits _ get_fs => apply emits_get_fs
  | |- emits _ (modify_fs _) => apply emits_modify_fs
  | |- emits _ (_ ≫= _) => apply emits_bind; [|intros ?]
  | |- emits _ (try_except _ _) => apply emits_try_except; [|intros ?]
  | |- emits _ (match ?x with _ => _ end) => destruct x
  | |- emits _ (emit _) => apply emits_emit
  | |- emits _ (log_cb _) => apply emits_emit
  end.

Section Placement.

Variable env : Env.
Variable P : event -> Prop.
Hypothesis P_log : forall msg, P (EvLog msg).
Hypothesis P_copy : forall src dst, copy_error env src dst = None -> P (EvCopy src dst).
Hypothesis P_move : forall src dst, move_error env src dst = None -> P (EvMove src dst).

Lemma emits_mkdir p : emits P (mkdir env p).
Proof. unfold mkdir. repeat emits_step. Qed.

Lemma emits_mkdir_parents p : emits P (mkdir_parents env p).
Proof. unfold mkdir_parents. repeat emits_step. Qed.

Lemma emits_unique_dest_m p : emits P (unique_dest_m p).
Proof. unfold unique_dest_m. repeat emits_step. Qed.

Lemma emits_copy2 src dst : emits P (copy2 env src dst).
Proof.
  unfold copy2. destruct (copy_error env src dst) eqn:E; repeat emits_step; auto.
Qed.

Lemma emits_move src dst : emits P (move env src dst).
Proof.
  unfold move. destruct (move_error env src dst) eqn:E; repeat emits_step; auto.
Qed.

Lemma emits_safe_copy src dst : emits P (safe_copy env src dst).
Proof.
  unfold safe_copy.
  repeat first [apply emits_mkdir_parents | apply emits_unique_dest_m
               | apply emits_copy2 | emits_step].
Qed.

Lemma emits_safe_move src dst : emits P (safe_move env src dst).
Proof.
  unfold safe_move.
  repeat first [apply emits_mkdir_parents | apply emits_unique_dest_m
               | apply emits_move | emits_step].
Qed.

Lemma emits_sort_item base move_mode groups_selected exif_by_date f :
  emits P (sort_item env base move_mode groups_selected exif_by_date f).
Proof.
  unfold sort_item.
  destruct (effective_group env groups_selected f) as [group|]; [|apply emits_raise].
  cbv zeta. destruct move_mode.
  - apply emits_bind; [apply emits_safe_move|intros ?; by apply emits_emit].
  - apply emits_bind; [apply emits_safe_copy|intros ?; by apply emits_emit].
Qed.

End Placement.

Section SortRun.

Variable env : Env.
Variable stop_event : nat -> bool.
Variable base : Path.
Variable move_mode : bool.
Variable groups_selected : list string.
Variable exif_by_date : bool.

(** The guarded body of one iteration. *)
Let body (f : Path) : M unit :=
  try_except
    (sort_item env base move_mode groups_selected exif_by_date f)
    (fun e => log_cb ("Error " +:+ name f +:+ ": " +:+ e)).

Lemma sort_body_emits P f :
  (forall msg, P (EvLog msg)) ->
  (forall a b, copy_error env a b = None -> P (EvCopy a b)) ->
  (forall a b, move_error env a b = None -> P (EvMove a b)) -> emits P (body f).
Proof.
  intros. apply emits_try_except; [by apply emits_sort_item|].
  intros e. by apply emits_emit.
Qed.

Lemma sort_body_total f : total (body f).
Proof. apply total_try_except. intros e. apply total_log. Qed.

Lemma sort_body_run f s :
  result (body f s) = Ok tt /\
  polls (final (body f s)) = polls s /\
  progress_of (trace (body f s)) = [].
Proof.
  destruct (sort_body_total f s) as [[] Hr].
  destruct (sort_body_emits not_progress f) with (s := s) as [Ht Hp]; try done.
  split; [done|]. split; [done|]. by apply progress_of_quiet.
Qed.

Lemma sort_loop_cons total idx f rest s :
  sort_loop env stop_event base move_mode groups_selected exif_by_date
            total idx (f :: rest) s =
  (stopped ← is_set stop_event;
   if stopped : bool then log_cb "Sorting cancelled."
   else
     body f;;
     progress_cb (py_div idx total);;
     sort_loop env stop_event base move_mode groups_selected exif_by_date
               total (S idx) rest) s.
Proof. reflexivity. Qed.

(** One iteration that is not cancelled: the body's events, the
    progress call, then the rest of the loop. *)
Lemma sort_loop_step total idx f rest s :
  stop_event (polls s) = false ->
  let s1 := {| fs := fs s; polls := S (polls s) |} in
  let r := sort_loop env stop_event base move_mode groups_selected exif_by_date
                     total (S idx) rest (final (body f s1)) in
  sort_loop env stop_event base move_mode groups_selected exif_by_date
            total idx (f :: rest) s =
  {| trace := trace (body f s1) ++ EvProgress (py_div idx total) :: trace r;
     final := final r;
     result := result r |}.
Proof.
  intros Hstop s1 r. rewrite sort_loop_cons.
  rewrite run_bind. simpl result. rewrite Hstop. cbv iota.
  change (final (is_set stop_event s)) with s1.
  change (trace (is_set stop_event s)) with (@nil event).
  change {| fs := fs s; polls := S (polls s) |} with s1.
  destruct (sort_body_run f s1) as (Hr & _ & _).
  rewrite (run_bind_ok _ _ _ tt Hr).
  rewrite run_bind. simpl. reflexivity.
Qed.

Lemma sort_loop_stopped total idx f rest s :
  stop_event (polls s) = true ->
  sort_loop env stop_event base move_mode groups_selected exif_by_date
            total idx (f :: rest) s =
  {| trace := [EvLog "Sorting cancelled."];
     final := {| fs := fs s; polls := S (polls s) |};
     result := Ok tt |}.
Proof. intros Hstop. rewrite sort_loop_cons, run_bind. simpl. by rewrite Hstop. Qed.

(** The loop over [files] when the first [k] polls answer "not set" and
    the next one, if there is one, answers "set". *)
Lemma sort_loop_progress total files :
  forall idx s k,
    k <= length files ->
    (forall j, j < k -> stop_event (polls s + j) = false) ->
    (k < length files -> stop_event (polls s + k) = true) ->
    let r := sort_loop env stop_event base move_mode groups_selected
                       exif_by_date total idx files s in
    result r = Ok tt /\ progress_of (trace r) = fractions total idx k.
Proof.
  induction files as [|f rest IH]; intros idx s k Hk Hrun Hstop.
  - simpl in Hk. assert (k = 0) as -> by lia. by split.
  - destruct k as [|k].
    + rewrite sort_loop_stopped; [by split|].
      rewrite <- (Nat.add_0_r (polls s)). apply Hstop. simpl. lia.
    + rewrite sort_loop_step by (rewrite <- (Nat.add_0_r (polls s)); apply Hrun; lia).
      cbv zeta. simpl result. simpl trace.
      set (s1 := {| fs := fs s; polls := S (polls s) |}).
      destruct (sort_body_run f s1) as (_ & Hp & Hq).
      specialize (IH (S idx) (final (body f s1)) k).
      destruct IH as [IHr IHt].
      * simpl in Hk. lia.
      * intros j Hj. rewrite Hp. simpl.
        replace (S (polls s + j)) with (polls s + S j) by lia. apply Hrun. lia.
      * intros Hlt. rewrite Hp. simpl.
        replace (S (polls s + k)) with (polls s + S k) by lia. apply Hstop.
        simpl. lia.
      * split; [exact IHr|].
        rewrite progress_of_app, Hq. simpl. rewrite IHt. reflexivity.
Qed.



Lemma parent_div (p : Path) (x : string) : parent (p / x)%path = p.
Proof. apply removelast_last. Qed.

Lemma name_div (p : Path) (x : string) : name (p / x)%path = x.
Proof. apply last_last. Qed.

Lemma unique_dest_loop_candidate ex dest fuel i r :
  unique_dest_loop ex dest fuel i = Some r -> exists n, r = candidate dest n.
Proof.
  revert i. induction fuel as [|fuel IH]; intros i; simpl; [discriminate|].
  destruct (negb (ex (candidate dest i))); [intros [= <-]; eauto|apply IH].
Qed.

(** The resolved destination stays in the directory asked for. *)
Lemma parent_unique_dest fs0 dest : parent (unique_dest fs0 dest) = parent dest.
Proof.
  pose proof (unique_dest_fuel_enough fs0 dest) as E. unfold unique_dest_fuel in E.
  destruct (negb (path_exists fs0 dest)); [by injection E as <-|].
  apply unique_dest_loop_candidate in E as [n ->]. apply parent_div.
Qed.

Lemma safe_copy_run src dst s :
  safe_copy env src dst s =
  match mkdir_error env (parent dst) with
  | Some e =>
      {| trace := [];
         final := {| fs := fs s ∪ list_to_set (take (mkdir_partial env (parent dst))
                                                    (ancestors (parent (parent dst))));
                     polls := polls s |};
         result := Raise e |}
  | None =>
      let fs1 := fs s ∪ list_to_set (ancestors (parent dst)) in
      let d := unique_dest fs1 dst in
      match copy_error env src d with
      | Some e =>
          {| trace := [];
             final := {| fs := if copy_partial env src d then fs1 ∪ {[d]} else fs1;
                         polls := polls s |};
             result := Raise e |}
      | None => {| trace := [EvCopy src d];
                   final := {| fs := fs1 ∪ {[d]}; polls := polls s |};
                   result := Ok d |}
      end
  end.
Proof.
  unfold safe_copy, mkdir_parents, copy2.
  destruct (mkdir_error env (parent dst)); [reflexivity|].
  rewrite run_bind. simpl.
  destruct (copy_error env src _); reflexivity.
Qed.

Lemma safe_move_run src dst s :
  safe_move env src dst s =
  match mkdir_error env (parent dst) with
  | Some e =>
      {| trace := [];
         final := {| fs := fs s ∪ list_to_set (take (mkdir_partial env (parent dst))
                                                    (ancestors (parent (parent dst))));
                     polls := polls s |};
         result := Raise e |}
  | None =>
      let fs1 := fs s ∪ list_to_set (ancestors (parent dst)) in
      let d := unique_dest fs1 dst in
      match move_error env src d with
      | Some e =>
          {| trace := [];
             final := {| fs := if move_partial env src d then fs1 ∪ {[d]} else fs1;
                         polls := polls s |};
             result := Raise e |}
      | None => {| trace := [EvMove src d];
                   final := {| fs := (fs1 ∖ {[src]}) ∪ {[d]}; polls := polls s |};
                   result := Ok d |}
      end
  end.
Proof.
  unfold safe_move, mkdir_parents, move.
  destruct (mkdir_error env (parent dst)); [reflexivity|].
  rewrite run_bind. simpl.
  destruct (move_error env src _); reflexivity.
Qed.

(** What one iteration leaves in the trace: either the error line, or
    the placement followed by its log line. *)
Lemma sort_body_cases f s :
  (exists e, trace (body f s) = [EvLog ("Error " +:+ name f +:+ ": " +:+ e)]) \/
  (exists d,
      trace (body f s) =
      if move_mode then [EvMove f d; EvLog ("Moved: " +:+ name f)]
      else [EvCopy f d; EvLog ("Copied: " +:+ name f)]).
Proof.
  unfold body. rewrite run_try_except. unfold sort_item.
  destruct (effective_group env groups_selected f) as [group|]; [|left; eauto].
  cbv zeta. set (dst := (_ / name f)%path). clearbody dst.
  destruct move_mode; rewrite run_bind.
  - rewrite safe_move_run.
    destruct (mkdir_error env (parent dst)); [left; eauto|]. cbv zeta.
    destruct (move_error env f _); [left; eauto|right; eauto].
  - rewrite safe_copy_run.
    destruct (mkdir_error env (parent dst)); [left; eauto|]. cbv zeta.
    destruct (copy_error env f _); [left; eauto|right; eauto].
Qed.

(** A file filed under [Others] whose placement meets no I/O error is
    copied or moved into [base / "Others"]. *)
Lemma sort_body_others f s :
  effective_group env groups_selected f = Some "Others" ->
  mkdir_error env (base / "Others")%path = None ->
  (forall d, copy_error env f d = None) ->
  (forall d, move_error env f d = None) ->
  exists d,
    parent d = (base / "Others")%path /\
    trace (body f s) =
    if move_mode then [EvMove f d; EvLog ("Moved: " +:+ name f)]
    else [EvCopy f d; EvLog ("Copied: " +:+ name f)].
Proof.
  intros Hg Hmk Hcp Hmv.
  unfold body. rewrite run_try_except. unfold sort_item. rewrite Hg.
  change (String.eqb "Others" "Photos") with false. cbv zeta.
  change (false && exif_by_date && PIL_AVAILABLE env) with false. cbv iota.
  set (dst := (base / "Others" / name f)%path).
  assert (Hparent : parent dst = (base / "Others")%path) by apply parent_div.
  destruct move_mode; rewrite run_bind.
  - rewrite safe_move_run, Hparent, Hmk. cbv zeta. rewrite Hmv. simpl.
    eexists. split; [|reflexivity]. by rewrite parent_unique_dest.
  - rewrite safe_copy_run, Hparent, Hmk. cbv zeta. rewrite Hcp. simpl.
    eexists. split; [|reflexivity]. by rewrite parent_unique_dest.
Qed.

End SortRun.

Section SortWorker.

Variable env : Env.
Variable stop_event : nat -> bool.
Variable base : Path.
Variable move_mode include_sub : bool.
Variable groups_selected : list string.
Variable exif_by_date : bool.

Lemma iter_files_run s :
  trace (iter_files env base include_sub s) = [] /\
  final (iter_files env base include_sub s) = s.
Proof.
  unfold iter_files. destruct include_sub.
  - rewrite run_bind. destruct (rglob env base); simpl; by split.
  - rewrite run_bind. destruct (iterdir env base); simpl; by split.
Qed.

Lemma mkdir_all_run (groups : list string) s :
  (forall g, g ∈ groups -> mkdir_error env (base / g)%path = None) ->
  let r := foldr (fun g k => mkdir env (base / g)%path;; k) (mret tt) groups s in
  trace r = [] /\ result r = Ok tt /\ polls (final r) = polls s.
Proof.
  revert s. induction groups as [|g groups IH]; intros s Hok; [by repeat split|].
  assert (Hm : mkdir env (base / g)%path s =
               {| trace := [];
                  final := {| fs := fs s ∪ {[(base / g)%path]}; polls := polls s |};
                  result := Ok tt |}).
  { unfold mkdir. by rewrite Hok by (apply elem_of_cons; by left). }
  destruct (IH {| fs := fs s ∪ {[(base / g)%path]}; polls := polls s |})
    as (Ht & Hr & Hp).
  { intros g' Hg'. apply Hok. apply elem_of_cons. by right. }
  cbv zeta in Ht, Hr, Hp.
  change (foldr _ _ (g :: groups)) with
    (mkdir env (base / g)%path;;
     foldr (fun g k => mkdir env (base / g)%path;; k) (mret tt) groups).
  cbv zeta. rewrite run_bind, Hm. cbn [trace final result app].
  rewrite Ht, Hr, Hp. by repeat split.
Qed.

Lemma ensure_dirs_run s :
  (forall g, g ∈ DEFAULT_FOLDERS -> mkdir_error env (base / g)%path = None) ->
  let r := ensure_dirs env base DEFAULT_FOLDERS s in
  trace r = [] /\ result r = Ok tt /\ polls (final r) = polls s.
Proof. intros Hok. by apply (mkdir_all_run DEFAULT_FOLDERS). Qed.

Lemma sort_loop_result total files :
  forall idx s,
    result (sort_loop env stop_event base move_mode groups_selected
                      exif_by_date total idx files s) = Ok tt.
Proof.
  induction files as [|f rest IH]; intros idx s; [reflexivity|].
  destruct (stop_event (polls s)) eqn:Hstop.
  - by rewrite sort_loop_stopped.
  - rewrite sort_loop_step by done. apply IH.
Qed.

Lemma sort_worker_empty s :
  result (iter_files env base include_sub s) = Ok [] ->
  sort_worker env stop_event base move_mode include_sub groups_selected
              exif_by_date s =
  {| trace := [EvLog ("Scanning " +:+ str base +:+ "...");
               EvLog "No files found to sort in this folder.";
               EvProgress 1];
     final := s;
     result := Ok tt |}.
Proof.
  intros Hls. destruct (iter_files_run s) as [Ht Hf].
  unfold sort_worker. rewrite run_bind. simpl result. cbv iota.
  rewrite run_bind. unfold attempt at 1 2 3 4 5. simpl final. simpl result.
  rewrite Hls, Ht, Hf. reflexivity.
Qed.

Lemma sort_worker_scan_failed s e :
  result (iter_files env base include_sub s) = Raise e ->
  sort_worker env stop_event base move_mode include_sub groups_selected
              exif_by_date s =
  {| trace := [EvLog ("Scanning " +:+ str base +:+ "...");
               EvLog ("Scan failed: " +:+ e)];
     final := s;
     result := Ok tt |}.
Proof.
  intros Hls. destruct (iter_files_run s) as [Ht Hf].
  unfold sort_worker. rewrite run_bind. simpl result. cbv iota.
  rewrite run_bind. unfold attempt at 1 2 3 4 5. simpl final. simpl result.
  rewrite Hls, Ht, Hf. reflexivity.
Qed.

(** A non-empty batch: the two opening log lines, the loop, then the
    closing progress call and log line, whatever the loop did. *)
Lemma sort_worker_run files s :
  result (iter_files env base include_sub s) = Ok files ->
  files <> [] ->
  (forall g, g ∈ DEFAULT_FOLDERS -> mkdir_error env (base / g)%path = None) ->
  exists s',
    polls s' = polls s /\
    let r := sort_loop env stop_event base move_mode groups_selected
                       exif_by_date (length files) 1 files s' in
    sort_worker env stop_event base move_mode include_sub groups_selected
                exif_by_date s =
    {| trace := EvLog ("Scanning " +:+ str base +:+ "...")
                :: EvLog ("Found " +:+ pretty (length files) +:+ " files. Processing...")
                :: trace r ++ [EvProgress 1; EvLog "Operation complete!"];
       final := final r;
       result := Ok tt |}.
Proof.
  intros Hls Hne Hok. destruct (iter_files_run s) as [Ht Hf].
  destruct (ensure_dirs_run s Hok) as (Het & Her & Hep).
  exists (final (ensure_dirs env base DEFAULT_FOLDERS s)). split; [exact Hep|].
  assert (Hlen : (length files =? 0)%nat = false).
  { apply Nat.eqb_neq. by destruct files. }
  cbv zeta.
  unfold sort_worker, mbind, M_bind, bind, attempt, log_cb, progress_cb, emit.
  cbn [trace final result app].
  rewrite Hls, Ht, Hf, Hlen. cbn [trace final result app].
  rewrite Her, Het. cbn [trace final result app].
  rewrite sort_loop_result. cbn [trace final result app].
  reflexivity.
Qed.

End SortWorker.

(* ===================================================================== *)
(** ** Insertion-ordered dicts of lists                                   *)
(* ===================================================================== *)

Section Dict.

Context {K V : Type} `{EqDecision K}.
Implicit Types (d : list (K * list V)) (k : K) (v : V).

Lemma setdefault_append_keys k v d :
  (setdefault_append k v d).*1 = if bool_decide (k ∈ d.*1) then d.*1 else d.*1 ++ [k].
Proof.
  induction d as [|[k' vs] d IH]; csimpl; [reflexivity|].
  destruct (decide (k = k')) as [->|Hne]; csimpl.
  - rewrite bool_decide_eq_true_2; [reflexivity|]. apply elem_of_cons. by left.
  - rewrite IH. destruct (bool_decide_reflect (k ∈ d.*1)) as [Hin|Hnin].
    + rewrite bool_decide_eq_true_2; [reflexivity|]. apply elem_of_cons. by right.
    + rewrite bool_decide_eq_false_2; [reflexivity|].
      intros [?|?]%elem_of_cons; congruence.
Qed.

Lemma setdefault_append_elem k v d k' vs' :
  (k', vs') ∈ setdefault_append k v d ->
  (k', vs') ∈ d \/ (k' = k /\ exists vs0, vs' = vs0 ++ [v]).
Proof.
  induction d as [|[k0 vs0] d IH]; simpl.
  - intros [= -> ->]%list_elem_of_singleton. right. split; [done|]. by exists [].
  - destruct (decide (k = k0)) as [->|Hne].
    + intros [[= -> ->]|Hin]%elem_of_cons; [right; eauto|].
      left. apply elem_of_cons. by right.
    + intros [[= -> ->]|Hin]%elem_of_cons; [left; apply elem_of_cons; by left|].
      destruct (IH Hin) as [?|?]; [left; apply elem_of_cons; by right|by right].
Qed.

Lemma setdefault_append_wf k v d : dict_wf d -> dict_wf (setdefault_append k v d).
Proof.
  intros [Hnd Hne]. split.
  - rewrite setdefault_append_keys. destruct (bool_decide_reflect (k ∈ d.*1)); [done|].
    apply NoDup_app. split; [done|]. split; [|apply NoDup_singleton].
    intros x Hx ->%list_elem_of_singleton. done.
  - intros k' vs' [Hin|[_ [vs0 ->]]]%setdefault_append_elem; [by eapply Hne|].
    by destruct vs0.
Qed.

Lemma lookup_list_setdefault_append k v d k' :
  lookup_list k' (setdefault_append k v d) =
  if bool_decide (k = k') then lookup_list k' d ++ [v] else lookup_list k' d.
Proof.
  unfold lookup_list. induction d as [|[k0 vs0] d IH]; simpl.
  - destruct (bool_decide_reflect (k = k')); reflexivity.
  - destruct (decide (k = k0)) as [->|Hne]; simpl.
    + destruct (bool_decide_reflect (k0 = k')); reflexivity.
    + destruct (bool_decide_reflect (k0 = k')) as [->|Hne'].
      * by rewrite bool_decide_eq_false_2.
      * exact IH.
Qed.

Lemma lookup_list_elem k vs d : NoDup d.*1 -> (k, vs) ∈ d -> lookup_list k d = vs.
Proof.
  unfold lookup_list. induction d as [|[k0 vs0] d IH]; csimpl; intros Hnd Hin.
  - by apply elem_of_nil in Hin.
  - apply NoDup_cons in Hnd as [Hk0 Hnd].
    apply elem_of_cons in Hin as [[= -> ->]|Hin].
    + by rewrite bool_decide_eq_true_2.
    + rewrite bool_decide_eq_false_2; [by apply IH|].
      intros ->. apply Hk0. apply list_elem_of_fmap. by exists (k, vs).
Qed.

Lemma lookup_list_nonempty k d :
  lookup_list k d <> [] -> (k, lookup_list k d) ∈ d.
Proof.
  unfold lookup_list. induction d as [|[k0 vs0] d IH]; simpl; [done|].
  destruct (bool_decide_reflect (k0 = k)) as [->|Hne]; simpl.
  - intros _. apply elem_of_cons. by left.
  - intros Hl. apply elem_of_cons. right. by apply IH.
Qed.

End Dict.

Section GroupBy.

Context {K : Type} `{EqDecision K}.
Variable key : Path -> option K.

Lemma group_by_snoc files f acc :
  group_by key (files ++ [f]) acc =
  match key f with
  | Some k => setdefault_append k f (group_by key files acc)
  | None => group_by key files acc
  end.
Proof. unfold group_by. by rewrite foldl_app. Qed.

Lemma group_by_wf files acc : dict_wf acc -> dict_wf (group_by key files acc).
Proof.
  intros Hwf. induction files as [|f files IH] using rev_ind; [exact Hwf|].
  rewrite group_by_snoc. destruct (key f); [by apply setdefault_append_wf|exact IH].
Qed.

Lemma group_by_lookup files acc k :
  lookup_list k (group_by key files acc) =
  lookup_list k acc ++ List.filter (fun f => bool_decide (key f = Some k)) files.
Proof.
  induction files as [|f files IH] using rev_ind; [by rewrite app_nil_r|].
  rewrite group_by_snoc, List.filter_app. simpl.
  destruct (key f) as [k'|] eqn:Hk.
  - rewrite lookup_list_setdefault_append, IH.
    destruct (bool_decide_reflect (k' = k)) as [->|Hne].
    + rewrite bool_decide_eq_true_2 by done. by rewrite app_assoc.
    + rewrite bool_decide_eq_false_2 by congruence. by rewrite app_nil_r.
  - rewrite IH. rewrite bool_decide_eq_false_2 by congruence. by rewrite app_nil_r.
Qed.

Lemma dict_wf_nil {V} : dict_wf (@nil (K * list V)).
Proof. split; [constructor|]. intros k vs Hin. by apply elem_of_nil in Hin. Qed.

(** Each group is the sub-list of the files with its key, and is not
    empty. *)
Lemma group_by_elem files k g :
  (k, g) ∈ group_by key files [] ->
  g = List.filter (fun f => bool_decide (key f = Some k)) files /\ g <> [].
Proof.
  intros Hin. destruct (group_by_wf files [] dict_wf_nil) as [Hnd Hne].
  split; [|by eapply Hne].
  rewrite <- (lookup_list_elem _ _ _ Hnd Hin). by rewrite group_by_lookup.
Qed.

Lemma group_by_complete files k :
  List.filter (fun f => bool_decide (key f = Some k)) files <> [] ->
  (k, List.filter (fun f => bool_decide (key f = Some k)) files)
    ∈ group_by key files [].
Proof.
  intros Hne. pose proof (group_by_lookup files [] k) as Hl. simpl in Hl.
  rewrite <- Hl in *. by apply lookup_list_nonempty.
Qed.

End GroupBy.

(* ===================================================================== *)
(** ** Duplicate scan                                                     *)
(* ===================================================================== *)

Section DupRun.

Variable env : Env.

Lemma build_size_map_run files :
  forall acc s,
    build_size_map env files acc s =
    {| trace := []; final := s; result := Ok (group_by (size_key env) files acc) |}.
Proof.
  induction files as [|f rest IH]; intros acc s; [reflexivity|].
  change (build_size_map env (f :: rest) acc) with
    (size_map' ← try_except
                   (sz ← lift (st_size env f);
                    mret (setdefault_append sz f acc))
                   (fun _ => mret acc);
     build_size_map env rest size_map').
  unfold group_by. simpl foldl. fold (group_by (size_key env) rest).
  unfold size_key at 2. rewrite run_bind, run_try_except, run_bind.
  destruct (st_size env f) as [z|e];
    cbn [lift ret mret M_ret raise trace final result app];
    rewrite IH; reflexivity.
Qed.

Lemma hash_group_run group :
  forall acc s,
    hash_group env group acc s =
    {| trace := EvHash <$> group; final := s;
       result := Ok (group_by (digest env) group acc) |}.
Proof.
  induction group as [|f rest IH]; intros acc s; [reflexivity|].
  change (hash_group env (f :: rest) acc) with
    (hashes' ← try_except
                 (h ← sha256 env f;
                  mret (setdefault_append h f acc))
                 (fun _ => mret acc);
     hash_group env rest hashes').
  unfold group_by. simpl foldl. fold (group_by (digest env) rest).
  unfold digest at 2.
  unfold sha256, mbind, M_bind, bind, try_except, emit.
  destruct (file_bytes env f) as [b|e];
    cbn [lift ret mret M_ret raise trace final result app];
    rewrite IH; reflexivity.
Qed.

Let key (p : Path) : M Q := lift (st_mtime env p).

Lemma key_run p s :
  key p s = {| trace := []; final := s;
               result := match st_mtime env p with Ok t => Ok t | Raise e => Raise e end |}.
Proof. unfold key. by destruct (st_mtime env p). Qed.

Lemma max_loop_cons item rest maxitem maxval :
  max_loop key (item :: rest) maxitem maxval =
  (val ← key item;
   if Qltb maxval val then max_loop key rest item val
   else max_loop key rest maxitem maxval).
Proof. reflexivity. Qed.

(** Whatever the [stat] calls do, [max] emits nothing, and what it
    returns is one of the items. *)
Lemma max_loop_any items :
  forall maxitem maxval s,
    trace (max_loop key items maxitem maxval s) = [] /\
    final (max_loop key items maxitem maxval s) = s /\
    forall k, result (max_loop key items maxitem maxval s) = Ok k ->
              k ∈ maxitem :: items.
Proof.
  induction items as [|item rest IH]; intros maxitem maxval s.
  - repeat split. intros k [= <-]. apply elem_of_cons. by left.
  - rewrite max_loop_cons, run_bind, key_run. cbn [trace final result app].
    destruct (st_mtime env item) as [t|e]; [|by repeat split].
    destruct (Qltb maxval t).
    + destruct (IH item t s) as (Ht & Hf & Hk). rewrite Ht, Hf.
      repeat split. intros k Hr. apply Hk in Hr.
      apply elem_of_cons. right. exact Hr.
    + destruct (IH maxitem maxval s) as (Ht & Hf & Hk). rewrite Ht, Hf.
      repeat split. intros k Hr. apply Hk in Hr.
      apply elem_of_cons in Hr as [->|Hr]; [apply elem_of_cons; by left|].
      apply elem_of_cons. right. apply elem_of_cons. by right.
Qed.

Lemma py_max_any items s :
  trace (py_max key items s) = [] /\
  final (py_max key items s) = s /\
  forall k, result (py_max key items s) = Ok k -> k ∈ items.
Proof.
  destruct items as [|item rest]; [by repeat split|].
  unfold py_max. rewrite run_bind, key_run. cbn [trace final result app].
  destruct (st_mtime env item) as [t|e]; [|by repeat split].
  destruct (max_loop_any rest item t s) as (Ht & Hf & Hk).
  by rewrite Ht, Hf.
Qed.

Lemma max_loop_run items :
  forall maxitem s,
    mtime_ok env (maxitem :: items) ->
    max_loop key items maxitem (mtime env maxitem) s =
    {| trace := []; final := s;
       result := Ok (first_max_loop (mtime env) items maxitem) |}.
Proof.
  induction items as [|item rest IH]; intros maxitem s Hok; [reflexivity|].
  rewrite max_loop_cons, run_bind, key_run. cbn [trace final result app].
  destruct (Hok item) as [t Ht]; [apply elem_of_cons; right; apply elem_of_cons; by left|].
  rewrite Ht. simpl first_max_loop.
  assert (Hm : mtime env item = t) by (unfold mtime; by rewrite Ht).
  rewrite Hm. destruct (Qltb (mtime env maxitem) t).
  - rewrite <- Hm, IH; [reflexivity|].
    intros f Hf. apply Hok. apply elem_of_cons. by right.
  - rewrite IH; [reflexivity|].
    intros f [->|Hf]%elem_of_cons; apply Hok.
    + apply elem_of_cons. by left.
    + apply elem_of_cons. right. apply elem_of_cons. by right.
Qed.

Lemma py_max_run items s :
  items <> [] -> mtime_ok env items ->
  py_max key items s =
  {| trace := []; final := s; result := Ok (first_max (mtime env) items) |}.
Proof.
  intros Hne Hok. destruct items as [|item rest]; [done|].
  unfold py_max. rewrite run_bind, key_run. cbn [trace final result app].
  destruct (Hok item) as [t Ht]; [apply elem_of_cons; by left|].
  rewrite Ht.
  assert (Hm : mtime env item = t) by (unfold mtime; by rewrite Ht).
  rewrite <- Hm, max_loop_run by done. reflexivity.
Qed.

Lemma collect_duplicates_cons h_group rest duplicates :
  collect_duplicates env (h_group :: rest) duplicates =
  if (1 <? length h_group)%nat then
    keep_ ← py_max key h_group;
    collect_duplicates env rest
      (duplicates ++
         [{| keep := keep_;
             delete := List.filter (fun p => negb (bool_decide (p = keep_))) h_group;
             reason := "exact" |}])
  else collect_duplicates env rest duplicates.
Proof. reflexivity. Qed.

(** Whatever the [stat] calls do, grouping emits nothing, and each group
    it adds is made from one of the digest groups. *)
Lemma collect_duplicates_any h_groups :
  forall duplicates s,
    trace (collect_duplicates env h_groups duplicates s) = [] /\
    final (collect_duplicates env h_groups duplicates s) = s /\
    forall dups, result (collect_duplicates env h_groups duplicates s) = Ok dups ->
      exists new, dups = duplicates ++ new /\
                  Forall (fun d => exists h, h ∈ h_groups /\ made_from h d) new.
Proof.
  induction h_groups as [|h rest IH]; intros duplicates s.
  - repeat split. intros dups [= <-]. exists []. by rewrite app_nil_r.
  - rewrite collect_duplicates_cons.
    destruct (1 <? length h)%nat eqn:Hlen.
    + rewrite run_bind. destruct (py_max_any h s) as (Ht & Hf & Hk).
      rewrite Ht, Hf.
      destruct (result (py_max key h s)) as [k|e]; [|by repeat split].
      cbn [trace final result app].
      match goal with |- context [collect_duplicates env rest ?d s] =>
        destruct (IH d s) as (Ht' & Hf' & Hd') end.
      repeat split; [done..|].
      intros dups Hr. destruct (Hd' dups Hr) as (new & -> & Hnew).
      eexists (_ :: new). split; [by rewrite <- app_assoc|].
      constructor.
      * exists h. split; [apply elem_of_cons; by left|].
        split; [by apply Nat.ltb_lt|]. split; [by apply Hk|reflexivity].
      * eapply Forall_impl; [exact Hnew|].
        intros d (h' & Hh' & Hm). exists h'. split; [|done].
        apply elem_of_cons. by right.
    + destruct (IH duplicates s) as (Ht' & Hf' & Hd').
      repeat split; [done..|].
      intros dups Hr. destruct (Hd' dups Hr) as (new & -> & Hnew).
      exists new. split; [done|].
      eapply Forall_impl; [exact Hnew|].
      intros d (h' & Hh' & Hm). exists h'. split; [|done].
      apply elem_of_cons. by right.
Qed.

Lemma collect_duplicates_run h_groups :
  forall duplicates s,
    (forall h, h ∈ h_groups -> mtime_ok env h) ->
    collect_duplicates env h_groups duplicates s =
    {| trace := []; final := s;
       result := Ok (duplicates ++ dups_of_hashes env h_groups) |}.
Proof.
  induction h_groups as [|h rest IH]; intros duplicates s Hok.
  - unfold dups_of_hashes. simpl. by rewrite app_nil_r.
  - rewrite collect_duplicates_cons. unfold dups_of_hashes. simpl List.filter.
    destruct (1 <? length h)%nat eqn:Hlen.
    + rewrite run_bind, py_max_run.
      * cbn [trace final result app]. rewrite IH.
        -- rewrite fmap_cons, <- app_assoc. reflexivity.
        -- intros h' Hh'. apply Hok. apply elem_of_cons. by right.
      * destruct h; [discriminate|done].
      * apply Hok. apply elem_of_cons. by left.
    + apply IH. intros h' Hh'. apply Hok. apply elem_of_cons. by right.
Qed.

End DupRun.

Section DupScan.

Variable env : Env.
Variable stop_event : nat -> bool.

Lemma scan_buckets_stopped total cur duplicates group rest s :
  stop_event (polls s) = true ->
  scan_buckets env stop_event total cur duplicates (group :: rest) s =
  {| trace := []; final := {| fs := fs s; polls := S (polls s) |};
     result := Ok duplicates |}.
Proof.
  intros Hstop. simpl scan_buckets. rewrite run_bind.
  cbn [is_set trace final result app]. by rewrite Hstop.
Qed.

Lemma scan_buckets_step total cur duplicates group rest s :
  stop_event (polls s) = false ->
  let s1 := {| fs := fs s; polls := S (polls s) |} in
  let pr := EvProgress (py_div (S cur) total) in
  scan_buckets env stop_event total cur duplicates (group :: rest) s =
  if (length group <? 2)%nat then
    let r := scan_buckets env stop_event total (S cur) duplicates rest s1 in
    {| trace := pr :: trace r; final := final r; result := result r |}
  else
    match result (collect_duplicates env (values (group_by (digest env) group []))
                                     duplicates s1) with
    | Ok duplicates' =>
        let r := scan_buckets env stop_event total (S cur) duplicates' rest s1 in
        {| trace := (EvHash <$> group) ++ pr :: trace r;
           final := final r; result := result r |}
    | Raise e => {| trace := EvHash <$> group; final := s1; result := Raise e |}
    end.
Proof.
  intros Hstop s1 pr. simpl scan_buckets. rewrite run_bind.
  cbn [is_set trace final result app]. rewrite Hstop. fold s1.
  destruct (length group <? 2)%nat.
  - rewrite run_bind. reflexivity.
  - rewrite run_bind, hash_group_run. cbn [trace final result].
    rewrite run_bind.
    destruct (collect_duplicates_any env (values (group_by (digest env) group []))
                                     duplicates s1) as (Ht & Hf & _).
    rewrite Ht, Hf.
    destruct (result (collect_duplicates env _ duplicates s1)) as [dups'|e];
      cbn [trace final result app]; [|by rewrite app_nil_r].
    rewrite run_bind. reflexivity.
Qed.

Lemma digest_group_sub group h :
  h ∈ values (group_by (digest env) group []) -> forall f, f ∈ h -> f ∈ group.
Proof.
  unfold values. intros [[k h'] [-> Hin]]%list_elem_of_fmap f Hf. simpl in Hf.
  apply group_by_elem in Hin as [-> _].
  apply list_elem_of_In, List.filter_In in Hf as [Hf _]. by apply list_elem_of_In.
Qed.

(** The bucket loop when nothing is cancelled and every [stat] for a
    modification time succeeds. *)
Lemma scan_buckets_run total groups :
  forall cur duplicates s,
    (forall j, j < length groups -> stop_event (polls s + j) = false) ->
    (forall g, g ∈ groups -> mtime_ok env g) ->
    scan_buckets env stop_event total cur duplicates groups s =
    {| trace := scan_events env total cur groups;
       final := {| fs := fs s; polls := polls s + length groups |};
       result := Ok (duplicates ++ flat_map (bucket_dups env) groups) |}.
Proof.
  induction groups as [|g rest IH]; intros cur duplicates s Hrun Hok.
  - simpl. rewrite app_nil_r, Nat.add_0_r. by destruct s.
  - assert (Hstop : stop_event (polls s) = false).
    { rewrite <- (Nat.add_0_r (polls s)). apply Hrun. simpl. lia. }
    assert (Hrun' : forall j, j < length rest ->
              stop_event (polls {| fs := fs s; polls := S (polls s) |} + j) = false).
    { intros j Hj. simpl. replace (S (polls s + j)) with (polls s + S j) by lia.
      apply Hrun. simpl. lia. }
    assert (Hok' : forall g', g' ∈ rest -> mtime_ok env g').
    { intros g' Hg'. apply Hok. apply elem_of_cons. by right. }
    rewrite scan_buckets_step by done. cbv zeta.
    simpl scan_events. simpl flat_map. unfold bucket_events, bucket_dups.
    destruct (length g <? 2)%nat.
    + rewrite IH by done. cbn [trace final result app].
      do 2 f_equal. simpl. lia.
    + rewrite collect_duplicates_run.
      * cbn [result]. rewrite IH by done. cbn [trace final result].
        rewrite <- !app_assoc. do 2 f_equal. simpl. lia.
      * intros h Hh f Hf. apply (Hok g); [apply elem_of_cons; by left|].
        by eapply digest_group_sub.
Qed.

(** The bucket loop, whatever is cancelled or raised. *)
Lemma scan_buckets_any total groups :
  forall cur duplicates s,
    let r := scan_buckets env stop_event total cur duplicates groups s in
    Forall (scan_event_ok groups) (trace r) /\
    forall dups, result r = Ok dups ->
      exists new, dups = duplicates ++ new /\ Forall (scan_group_ok env groups) new.
Proof.
  induction groups as [|g rest IH]; intros cur duplicates s.
  - split; [constructor|]. intros dups [= <-]. exists []. by rewrite app_nil_r.
  - assert (Hev : forall tr, Forall (scan_event_ok rest) tr ->
                             Forall (scan_event_ok (g :: rest)) tr).
    { intros tr Htr. eapply Forall_impl; [exact Htr|].
      intros [] Hev; simpl in *; try done.
      destruct Hev as (g' & ? & ? & ?). exists g'. split; [|done].
      apply elem_of_cons. by right. }
    assert (Hgr : forall new, Forall (scan_group_ok env rest) new ->
                              Forall (scan_group_ok env (g :: rest)) new).
    { intros new Hnew. eapply Forall_impl; [exact Hnew|].
      intros d (g' & h & ? & ?).
      exists g', h. split; [|done]. apply elem_of_cons. by right. }
    destruct (stop_event (polls s)) eqn:Hstop.
    { cbv zeta. rewrite scan_buckets_stopped by done. split; [constructor|].
      intros dups [= <-]. exists []. by rewrite app_nil_r. }
    cbv zeta. rewrite scan_buckets_step by done. cbv zeta.
    set (s1 := {| fs := fs s; polls := S (polls s) |}).
    destruct (length g <? 2)%nat eqn:Hlen.
    + destruct (IH (S cur) duplicates s1) as [Ht Hd]. cbn [trace result]. split.
      * constructor; [exact I|by apply Hev].
      * intros dups Hr. destruct (Hd dups Hr) as (new & -> & Hnew).
        exists new. split; [done|by apply Hgr].
    + apply Nat.ltb_ge in Hlen.
      assert (Hhash : Forall (scan_event_ok (g :: rest)) (EvHash <$> g)).
      { apply Forall_fmap, Forall_forall. intros f Hf. simpl.
        exists g. split; [apply elem_of_cons; by left|done]. }
      destruct (collect_duplicates_any env (values (group_by (digest env) g []))
                                       duplicates s1) as (_ & _ & Hc).
      destruct (result (collect_duplicates env _ duplicates s1)) as [dups'|e];
        [|split; [exact Hhash|discriminate]].
      destruct (Hc dups' eq_refl) as (new1 & -> & Hnew1).
      destruct (IH (S cur) (duplicates ++ new1) s1) as [Ht Hd].
      cbn [trace result]. split.
      * apply Forall_app. split; [exact Hhash|].
        constructor; [exact I|by apply Hev].
      * intros dups Hr. destruct (Hd dups Hr) as (new2 & -> & Hnew2).
        exists (new1 ++ new2). split; [by rewrite app_assoc|].
        apply Forall_app. split; [|by apply Hgr].
        eapply Forall_impl; [exact Hnew1|].
        intros d (h & Hh & Hm). exists g, h.
        split; [apply elem_of_cons; by left|done].
Qed.

End DupScan.

Section DupWorker.

Variable env : Env.
Variable stop_event : nat -> bool.
Variable base : Path.
Variable include_sub images_only use_phash : bool.
Variable perceptual_threshold : Q.

Lemma duplicate_scan_worker_listing_failed s e :
  result (iter_files env base include_sub s) = Raise e ->
  duplicate_scan_worker env stop_event base include_sub images_only use_phash
                        perceptual_threshold s =
  {| trace := [EvLog "Listing files..."]; final := s; result := Raise e |}.
Proof.
  intros Hls. destruct (iter_files_run env base include_sub s) as [Ht Hf].
  unfold duplicate_scan_worker, mbind, M_bind, bind, log_cb, emit.
  cbn [trace final result app]. rewrite Hls, Ht, Hf. reflexivity.
Qed.

Lemma duplicate_scan_worker_empty files s :
  result (iter_files env base include_sub s) = Ok files ->
  scan_listing env images_only files = [] ->
  duplicate_scan_worker env stop_event base include_sub images_only use_phash
                        perceptual_threshold s =
  {| trace := [EvLog "Listing files..."; EvLog "No files to scan."; EvDupResult []];
     final := s; result := Ok tt |}.
Proof.
  intros Hls Hnil. destruct (iter_files_run env base include_sub s) as [Ht Hf].
  unfold duplicate_scan_worker, mbind, M_bind, bind, log_cb, emit.
  cbn [trace final result app]. rewrite Hls, Ht, Hf.
  cbn [trace final result app]. fold (scan_listing env images_only files).
  rewrite Hnil. reflexivity.
Qed.

(** A non-empty listing: two log lines, the bucket loop and, unless the
    loop raised, the result and the closing log line. *)
Lemma duplicate_scan_worker_run files s :
  result (iter_files env base include_sub s) = Ok files ->
  scan_listing env images_only files <> [] ->
  let scanned := scan_listing env images_only files in
  let groups := size_buckets env scanned in
  let r := scan_buckets env stop_event (length groups) 0 [] groups s in
  duplicate_scan_worker env stop_event base include_sub images_only use_phash
                        perceptual_threshold s =
  {| trace :=
       EvLog "Listing files..."
       :: EvLog ("Scanning " +:+ pretty (length scanned) +:+ " files for duplicates...")
       :: trace r ++
          match result r with
          | Ok dups =>
              [EvDupResult dups;
               EvLog ("Found " +:+ pretty (length dups) +:+ " duplicate groups.")]
          | Raise _ => []
          end;
     final := final r;
     result := match result r with Ok _ => Ok tt | Raise e => Raise e end |}.
Proof.
  intros Hls Hne scanned groups r.
  destruct (iter_files_run env base include_sub s) as [Ht Hf].
  assert (Hlen : (length scanned =? 0)%nat = false).
  { apply Nat.eqb_neq. subst scanned. by destruct (scan_listing _ _ _). }
  unfold duplicate_scan_worker, mbind, M_bind, bind, log_cb, emit.
  cbn [trace final result app]. rewrite Hls, Ht, Hf.
  cbn [trace final result app]. fold (scan_listing env images_only files).
  fold scanned. rewrite Hlen. cbn [trace final result app].
  rewrite build_size_map_run. cbn [trace final result app].
  replace (length (group_by (size_key env) scanned [])) with (length groups)
    by (subst groups; unfold size_buckets, values; by rewrite length_fmap).
  fold (size_buckets env scanned). fold groups. fold r.
  destruct (result r) as [dups|e]; cbn [trace final result app]; [reflexivity|].
  by rewrite app_nil_r.
Qed.

End DupWorker.

(** *** The first maximum *)

Section FirstMax.

Variable t : Path -> Q.

Lemma Qltb_true x y : Qltb x y = true <-> (x < y)%Q.
Proof.
  unfold Qltb. rewrite negb_true_iff. split.
  - intros H. apply Qnot_le_lt. intros Hle. apply Qle_bool_iff in Hle. congruence.
  - intros H. destruct (Qle_bool y x) eqn:E; [|reflexivity].
    apply Qle_bool_iff in E. exfalso. by apply (Qlt_not_le x y).
Qed.

Lemma Qltb_false x y : Qltb x y = false <-> (y <= x)%Q.
Proof.
  unfold Qltb. rewrite negb_false_iff. apply Qle_bool_iff.
Qed.

Lemma first_max_loop_spec items :
  forall m l1 mid,
    (forall p, p ∈ l1 -> (t p < t m)%Q) ->
    (forall p, p ∈ mid -> (t p <= t m)%Q) ->
    exists l1' l2',
      l1 ++ m :: mid ++ items = l1' ++ first_max_loop t items m :: l2' /\
      (forall p, p ∈ l1' -> (t p < t (first_max_loop t items m))%Q) /\
      (forall p, p ∈ l2' -> (t p <= t (first_max_loop t items m))%Q).
Proof.
  induction items as [|item rest IH]; intros m l1 mid H1 H2.
  - exists l1, mid. by rewrite app_nil_r.
  - simpl. destruct (Qltb (t m) (t item)) eqn:E.
    + apply Qltb_true in E.
      destruct (IH item (l1 ++ m :: mid) []) as (l1' & l2' & Heq & Hl1 & Hl2).
      * intros p Hp. apply elem_of_app in Hp as [Hp|Hp].
        { eapply Qlt_trans; [by apply H1|exact E]. }
        apply elem_of_cons in Hp as [Hp|Hp]; [by subst p|].
        eapply Qle_lt_trans; [by apply H2|exact E].
      * intros p Hp. by apply elem_of_nil in Hp.
      * exists l1', l2'. split; [|done]. rewrite <- Heq.
        rewrite <- !app_assoc. simpl. reflexivity.
    + apply Qltb_false in E.
      destruct (IH m l1 (mid ++ [item])) as (l1' & l2' & Heq & Hl1 & Hl2).
      * exact H1.
      * intros p Hp. apply elem_of_app in Hp as [Hp|Hp]; [by apply H2|].
        apply list_elem_of_singleton in Hp. by subst p.
      * exists l1', l2'. split; [|done]. rewrite <- Heq.
        rewrite <- !app_assoc. reflexivity.
Qed.

(** [max(items, key=t)] is an item with the greatest key, and the first
    such: every item before it has a strictly smaller key. *)
Lemma first_max_spec items :
  items <> [] ->
  exists l1 l2,
    items = l1 ++ first_max t items :: l2 /\
    (forall p, p ∈ l1 -> (t p < t (first_max t items))%Q) /\
    (forall p, p ∈ l2 -> (t p <= t (first_max t items))%Q).
Proof.
  intros Hne. destruct items as [|item rest]; [done|].
  destruct (first_max_loop_spec rest item [] []) as (l1 & l2 & Heq & H1 & H2).
  - intros p Hp. by apply elem_of_nil in Hp.
  - intros p Hp. by apply elem_of_nil in Hp.
  - exists l1, l2. by split.
Qed.

Lemma first_max_elem items : items <> [] -> first_max t items ∈ items.
Proof.
  intros Hne. destruct (first_max_spec items Hne) as (l1 & l2 & Heq & _).
  rewrite Heq at 2. apply elem_of_app. right. apply elem_of_cons. by left.
Qed.

End FirstMax.

Lemma keep_delete_permutation (h : list Path) (k : Path) :
  NoDup h -> k ∈ h ->
  k :: List.filter (fun p => negb (bool_decide (p = k))) h ≡ₚ h.
Proof.
  induction h as [|x h IH]; intros Hnd Hk; [by apply elem_of_nil in Hk|].
  apply NoDup_cons in Hnd as [Hx Hnd]. simpl.
  destruct (bool_decide_reflect (x = k)) as [->|Hne]; simpl.
  - constructor. clear IH Hk Hnd. induction h as [|y h IH]; [done|].
    simpl. apply not_elem_of_cons in Hx as [Hyk Hx].
    rewrite bool_decide_eq_false_2 by done. simpl. by rewrite IH.
  - apply elem_of_cons in Hk as [->|Hk]; [done|].
    rewrite Permutation_swap. constructor. by apply IH.
Qed.

(** *** Buckets and digest groups *)

Section Buckets.

Variable env : Env.

Lemma size_buckets_elem files g :
  g ∈ size_buckets env files ->
  exists sz, g = bucket_of env files sz /\ g <> [].
Proof.
  unfold size_buckets, values. intros [[sz g'] [-> Hin]]%list_elem_of_fmap.
  apply group_by_elem in Hin as [-> Hne]. by exists sz.
Qed.

Lemma bucket_of_elem files sz f :
  f ∈ bucket_of env files sz <-> f ∈ files /\ size_key env f = Some sz.
Proof.
  unfold bucket_of. rewrite !list_elem_of_In, List.filter_In, bool_decide_eq_true.
  reflexivity.
Qed.

Lemma digest_group_elem group h f :
  h ∈ values (group_by (digest env) group []) -> f ∈ h ->
  f ∈ group /\ exists dg, digest env f = Some dg /\
                          forall f', f' ∈ h -> digest env f' = Some dg.
Proof.
  unfold values. intros [[k h'] [-> Hin]]%list_elem_of_fmap Hf. simpl in Hf.
  apply group_by_elem in Hin as [-> _].
  apply list_elem_of_In, List.filter_In in Hf as [Hf Hk].
  apply bool_decide_eq_true in Hk. split; [by apply list_elem_of_In|].
  exists k. split; [done|]. intros f' Hf'.
  apply list_elem_of_In, List.filter_In in Hf' as [_ Hk'].
  by apply bool_decide_eq_true in Hk'.
Qed.

Lemma digest_group_NoDup group h :
  NoDup group -> h ∈ values (group_by (digest env) group []) -> NoDup h.
Proof.
  unfold values. intros Hnd [[k h'] [-> Hin]]%list_elem_of_fmap.
  apply group_by_elem in Hin as [-> _]. simpl.
  apply NoDup_ListNoDup, List.NoDup_filter, NoDup_ListNoDup, Hnd.
Qed.

Lemma bucket_of_NoDup files sz : NoDup files -> NoDup (bucket_of env files sz).
Proof.
  intros Hnd. apply NoDup_ListNoDup, List.NoDup_filter, NoDup_ListNoDup, Hnd.
Qed.

(** A bucket whose files all have the same key is one group. *)
Lemma group_by_cons {K} `{EqDecision K} (key : Path -> option K) f files acc :
  group_by key (f :: files) acc =
  group_by key files
    (match key f with Some k => setdefault_append k f acc | None => acc end).
Proof. reflexivity. Qed.

(** A bucket whose files all have the same key is one group. *)
Lemma group_by_const {K} `{EqDecision K} (key : Path -> option K) group k :
  (forall f, f ∈ group -> key f = Some k) -> group <> [] ->
  group_by key group [] = [(k, group)].
Proof.
  intros Hk Hne.
  assert (Hacc : forall rest vs,
             (forall f, f ∈ rest -> key f = Some k) ->
             group_by key rest [(k, vs)] = [(k, vs ++ rest)]).
  { induction rest as [|f rest IH]; intros vs Hrest; [by rewrite app_nil_r|].
    rewrite group_by_cons, (Hrest f) by (apply elem_of_cons; by left).
    cbn [setdefault_append]. destruct (decide (k = k)); [|done].
    rewrite IH.
    - by rewrite <- app_assoc.
    - intros f' Hf'. apply Hrest. apply elem_of_cons. by right. }
  destruct group as [|f rest]; [done|].
  rewrite group_by_cons, (Hk f) by (apply elem_of_cons; by left).
  cbn [setdefault_append]. apply Hacc.
  intros f' Hf'. apply Hk. apply elem_of_cons. by right.
Qed.

Lemma made_from_members h d :
  made_from h d -> forall p, p ∈ dup_members d -> p ∈ h.
Proof.
  intros (_ & Hk & Hd) p [->|Hp]%elem_of_cons; [done|].
  rewrite Hd in Hp. apply list_elem_of_In, List.filter_In in Hp as [Hp _].
  by apply list_elem_of_In.
Qed.

Lemma made_from_permutation h d :
  NoDup h -> made_from h d -> dup_members d ≡ₚ h.
Proof.
  intros Hnd (_ & Hk & Hd). unfold dup_members. rewrite Hd.
  by apply keep_delete_permutation.
Qed.

Lemma mk_dup_made_from h : (1 < length h)%nat -> made_from h (mk_dup env h).
Proof.
  intros Hlen. split; [done|]. split; [|reflexivity].
  apply first_max_elem. destruct h; [simpl in Hlen; lia|done].
Qed.

Lemma bucket_dups_members group d p :
  d ∈ bucket_dups env group -> p ∈ dup_members d -> p ∈ group.
Proof.
  unfold bucket_dups. destruct (length group <? 2)%nat; [by intros ?%elem_of_nil|].
  unfold dups_of_hashes. intros [h [-> Hh]]%list_elem_of_fmap Hp.
  apply list_elem_of_In, List.filter_In in Hh as [Hh Hlen].
  apply list_elem_of_In in Hh. apply Nat.ltb_lt in Hlen.
  eapply digest_group_sub; [exact Hh|].
  eapply made_from_members; [by apply mk_dup_made_from|exact Hp].
Qed.

(** What every group added by the bucket loop looks like. *)
Lemma scan_group_ok_spec files d :
  scan_group_ok env (size_buckets env files) d ->
  (NoDup files -> (2 <= length (dup_members d))%nat /\ NoDup (dup_members d)) /\
  forall p, p ∈ dup_members d ->
    p ∈ files /\
    (exists sz, size_key env p = Some sz /\ size_key env (keep d) = Some sz) /\
    (exists dg, digest env p = Some dg /\ digest env (keep d) = Some dg).
Proof.
  intros (g & h & Hg & Hlen & Hh & Hm).
  apply size_buckets_elem in Hg as (sz & -> & _).
  assert (Hkeep : keep d ∈ h) by apply Hm.
  split.
  - intros Hnd.
    assert (Hndh : NoDup h).
    { eapply digest_group_NoDup; [|exact Hh]. by apply bucket_of_NoDup. }
    pose proof (made_from_permutation h d Hndh Hm) as Hperm.
    split.
    + rewrite Hperm. destruct Hm as (Hl & _). lia.
    + by rewrite Hperm.
  - intros p Hp. apply (made_from_members h d Hm) in Hp.
    destruct (digest_group_elem _ _ _ Hh Hp) as (Hpg & dg & Hdp & Hall).
    destruct (digest_group_elem _ _ _ Hh Hkeep) as (Hkg & _).
    apply bucket_of_elem in Hpg as [Hpf Hps].
    apply bucket_of_elem in Hkg as [_ Hks].
    split; [done|]. split; [by exists sz|].
    exists dg. split; [done|by apply Hall].
Qed.

Lemma progress_of_scan_events total groups :
  forall cur,
    progress_of (scan_events env total cur groups) =
    fractions total (S cur) (length groups).
Proof.
  induction groups as [|g rest IH]; intros cur; [reflexivity|].
  simpl scan_events. unfold bucket_events.
  rewrite !progress_of_app, IH. simpl length. rewrite fractions_cons.
  rewrite progress_of_quiet; [reflexivity|].
  destruct (length g <? 2)%nat; [constructor|].
  apply Forall_fmap, Forall_forall. by intros.
Qed.

End Buckets.

Lemma dup_results_of_app tr1 tr2 :
  dup_results_of (tr1 ++ tr2) = dup_results_of tr1 ++ dup_results_of tr2.
Proof. apply omap_app. Qed.

Lemma scan_events_no_result groups tr :
  Forall (scan_event_ok groups) tr -> dup_results_of tr = [] /\ logs_of tr = [].
Proof.
  induction 1 as [|ev tr Hev _ [IH1 IH2]]; [done|].
  destruct ev; simpl in *; done.
Qed.

Lemma scan_events_hashed groups tr p :
  Forall (scan_event_ok groups) tr -> p ∈ hashed_of tr ->
  exists g, g ∈ groups /\ p ∈ g /\ (2 <= length g)%nat.
Proof.
  induction 1 as [|ev tr Hev _ IH]; [by intros ?%elem_of_nil|].
  destruct ev; simpl in *; try done.
  intros [->|Hp]%elem_of_cons; [exact Hev|by apply IH].
Qed.

Section OneGroup.

Variable env : Env.
Variable files : list Path.

Lemma filter_none {A} (f : A -> bool) (l : list A) :
  (forall x, x ∈ l -> f x = false) -> List.filter f l = [].
Proof.
  induction l as [|x l IH]; intros H; [reflexivity|]. simpl.
  rewrite H by (apply elem_of_cons; by left).
  apply IH. intros y Hy. apply H. apply elem_of_cons. by right.
Qed.

Lemma bucket_dups_identical g c :
  (2 <= length g)%nat ->
  (forall f, f ∈ g -> file_bytes env f = Ok c) ->
  bucket_dups env g = [mk_dup env g].
Proof.
  intros Hlen Hc. unfold bucket_dups.
  assert (Hlt : (length g <? 2)%nat = false) by (apply Nat.ltb_ge; lia).
  rewrite Hlt.
  rewrite (group_by_const (digest env) g (hexdigest env c)).
  - unfold dups_of_hashes, values. simpl.
    assert (Hgt : (1 <? length g)%nat = true) by (apply Nat.ltb_lt; lia).
    by rewrite Hgt.
  - intros f Hf. unfold digest. by rewrite (Hc f Hf).
  - destruct g; [simpl in Hlen; lia|done].
Qed.

(** Groups found in the bucket of another size have no file of the
    bucket of size [sz]. *)
Lemma touches_other_bucket sz k d :
  k <> sz -> d ∈ bucket_dups env (bucket_of env files k) ->
  touches (bucket_of env files sz) d = false.
Proof.
  intros Hne Hd. unfold touches. apply bool_decide_eq_false.
  intros Hex. apply Exists_exists in Hex as (p & Hp & Hpg).
  apply (bucket_dups_members env _ d p Hd) in Hp.
  apply bucket_of_elem in Hp as [_ Hk]. apply bucket_of_elem in Hpg as [_ Hsz].
  congruence.
Qed.

Lemma filter_touches_others sz (d : list (Z * list Path)) :
  (forall k g, (k, g) ∈ d -> k <> sz /\ g = bucket_of env files k) ->
  List.filter (touches (bucket_of env files sz))
              (flat_map (bucket_dups env) (values d)) = [].
Proof.
  intros Hd. apply filter_none. intros x Hx.
  apply list_elem_of_In, in_flat_map in Hx as (g & Hg & Hx).
  apply list_elem_of_In in Hg, Hx.
  unfold values in Hg. apply list_elem_of_fmap in Hg as ([k g'] & -> & Hin).
  destruct (Hd k g' Hin) as [Hne ->]. simpl in Hx.
  by eapply touches_other_bucket.
Qed.

(** In the whole result, the groups that have a file of the bucket of
    size [sz] are the groups found in that bucket. *)
Lemma filter_touches_bucket sz :
  bucket_of env files sz <> [] ->
  List.filter (touches (bucket_of env files sz))
              (flat_map (bucket_dups env) (size_buckets env files)) =
  List.filter (touches (bucket_of env files sz))
              (bucket_dups env (bucket_of env files sz)).
Proof.
  intros Hne. unfold size_buckets.
  pose proof (group_by_complete (size_key env) files sz Hne) as Hin.
  fold (bucket_of env files sz) in Hin.
  destruct (group_by_wf (size_key env) files [] dict_wf_nil) as [Hnd _].
  assert (Hall : forall k g, (k, g) ∈ group_by (size_key env) files [] ->
                             g = bucket_of env files k).
  { intros k g Hkg. by apply group_by_elem in Hkg as [-> _]. }
  apply list_elem_of_split in Hin as (l1 & l2 & Heq).
  rewrite Heq in Hnd, Hall. rewrite Heq. clear Heq.
  rewrite fmap_app, fmap_cons in Hnd. simpl in Hnd.
  apply NoDup_app in Hnd as (_ & Hl1 & Hnd).
  apply NoDup_cons in Hnd as [Hl2 _].
  unfold values. rewrite fmap_app, fmap_cons. simpl.
  rewrite flat_map_app. simpl. rewrite !List.filter_app.
  change (l1.*2) with (values l1). change (l2.*2) with (values l2).
  rewrite (filter_touches_others sz l1), (filter_touches_others sz l2).
  - by rewrite app_nil_r.
  - intros k g Hkg. split.
    + intros ->. apply Hl2. apply list_elem_of_fmap. by exists (sz, g).
    + apply Hall. apply elem_of_app. right. apply elem_of_cons. by right.
  - intros k g Hkg. split.
    + intros ->. apply (Hl1 sz); [|apply elem_of_cons; by left].
      apply list_elem_of_fmap. by exists (sz, g).
    + apply Hall. apply elem_of_app. by left.
Qed.

End OneGroup.

(* ===================================================================== *)
(** ** Face clustering                                                    *)
(* ===================================================================== *)

Section Clustering.

Variable env : Env.

Lemma Qmin_py_spec x y :
  (Qmin_py x y = x \/ Qmin_py x y = y) /\
  (Qmin_py x y <= x)%Q /\ (Qmin_py x y <= y)%Q.
Proof.
  unfold Qmin_py. destruct (Qltb y x) eqn:E.
  - apply Qltb_true in E. split; [by right|].
    split; [by apply Qlt_le_weak|apply Qle_refl].
  - apply Qltb_false in E. split; [by left|]. split; [apply Qle_refl|done].
Qed.

Lemma foldl_min_spec ds :
  forall d,
    foldl Qmin_py d ds ∈ d :: ds /\
    forall x, x ∈ d :: ds -> (foldl Qmin_py d ds <= x)%Q.
Proof.
  induction ds as [|y ds IH]; intros d; simpl.
  - split; [apply elem_of_cons; by left|].
    intros x ->%list_elem_of_singleton. apply Qle_refl.
  - destruct (IH (Qmin_py d y)) as [Hin Hle].
    destruct (Qmin_py_spec d y) as (Hor & Hd & Hy).
    split.
    + apply elem_of_cons in Hin as [Hin|Hin].
      * rewrite Hin. destruct Hor as [->| ->].
        -- apply elem_of_cons. by left.
        -- apply elem_of_cons. right. apply elem_of_cons. by left.
      * apply elem_of_cons. right. apply elem_of_cons. by right.
    + assert (Hm : (foldl Qmin_py (Qmin_py d y) ds <= Qmin_py d y)%Q).
      { apply Hle. apply elem_of_cons. by left. }
      intros x Hx. apply elem_of_cons in Hx as [->|Hx].
      { eapply Qle_trans; [exact Hm|exact Hd]. }
      apply elem_of_cons in Hx as [->|Hx].
      { eapply Qle_trans; [exact Hm|exact Hy]. }
      apply Hle. apply elem_of_cons. by right.
Qed.

(** The test [len(dists) > 0 and min(dists) < 0.6] holds exactly when
    the list has a least element below the threshold. *)
Lemma close_enough_spec dists :
  close_enough dists = true <->
  exists m, m ∈ dists /\ (forall d, d ∈ dists -> (m <= d)%Q) /\ (m < 6 # 10)%Q.
Proof.
  destruct dists as [|d ds]; simpl.
  - split; [discriminate|]. intros (m & Hm & _). by apply elem_of_nil in Hm.
  - destruct (foldl_min_spec ds d) as [Hin Hle]. rewrite Qltb_true. split.
    + intros Hlt. by exists (foldl Qmin_py d ds).
    + intros (m & Hm & _ & Hlt). eapply Qle_lt_trans; [by apply Hle|exact Hlt].
Qed.

Lemma close_enough_matches enc c :
  close_enough (face_distance env (encodings c) enc) = true <-> matches env enc c.
Proof. apply close_enough_spec. Qed.

(** The inner loop: it stops at the first cluster that matches, which
    takes the vector in; the clusters after it are not looked at. *)
Lemma scan_clusters_cases p enc clusters :
  (exists i c,
      clusters !! i = Some c /\ matches env enc c /\
      (forall j c', j < i -> clusters !! j = Some c' -> ~ matches env enc c') /\
      scan_clusters env p enc clusters = (<[i := absorb p enc c]> clusters, true)) \/
  ((forall c, c ∈ clusters -> ~ matches env enc c) /\
   scan_clusters env p enc clusters = (clusters, false)).
Proof.
  induction clusters as [|c rest IH]; simpl.
  - right. split; [|reflexivity]. intros c Hc. by apply elem_of_nil in Hc.
  - destruct (close_enough (face_distance env (encodings c) enc)) eqn:E.
    + left. exists 0, c. split; [reflexivity|].
      split; [by apply close_enough_matches|]. split; [intros; lia|reflexivity].
    + assert (Hc : ~ matches env enc c).
      { intros Hm. apply close_enough_matches in Hm. congruence. }
      destruct IH as [(i & c0 & Hi & Hm & Hfirst & ->)|[Hnone ->]].
      * left. exists (S i), c0. split; [exact Hi|]. split; [exact Hm|].
        split; [|reflexivity].
        intros [|j] c' Hj; simpl; [by intros [= <-]|].
        apply Hfirst. lia.
      * right. split; [|reflexivity].
        intros c' [->|Hc']%elem_of_cons; [exact Hc|by apply Hnone].
Qed.

Lemma add_encoding_match p enc clusters i c :
  clusters !! i = Some c -> matches env enc c ->
  (forall j c', j < i -> clusters !! j = Some c' -> ~ matches env enc c') ->
  add_encoding env p clusters enc = <[i := absorb p enc c]> clusters.
Proof.
  intros Hi Hm Hfirst. unfold add_encoding.
  destruct (scan_clusters_cases p enc clusters)
    as [(i' & c' & Hi' & Hm' & Hfirst' & ->)|[Hnone _]]; simpl.
  - destruct (Nat.lt_trichotomy i i') as [Hlt|[->|Hgt]].
    + exfalso. by apply (Hfirst' i c Hlt Hi).
    + congruence.
    + exfalso. by apply (Hfirst i' c' Hgt Hi').
  - exfalso. apply (Hnone c); [|done]. by eapply list_elem_of_lookup_2.
Qed.

Lemma add_encoding_no_match p enc clusters :
  (forall c, c ∈ clusters -> ~ matches env enc c) ->
  add_encoding env p clusters enc = clusters ++ [fresh p enc].
Proof.
  intros Hnone. unfold add_encoding.
  destruct (scan_clusters_cases p enc clusters)
    as [(i' & c' & Hi' & Hm' & _ & _)|[_ ->]]; simpl; [|reflexivity].
  exfalso. apply (Hnone c'); [|done]. by eapply list_elem_of_lookup_2.
Qed.

(** Either way of adding a vector, seen at once. *)
Lemma add_encoding_cases p enc clusters :
  (exists i c, clusters !! i = Some c /\
               add_encoding env p clusters enc = <[i := absorb p enc c]> clusters) \/
  add_encoding env p clusters enc = clusters ++ [fresh p enc].
Proof.
  destruct (scan_clusters_cases p enc clusters)
    as [(i & c & Hi & Hm & Hfirst & _)|[Hnone _]].
  - left. exists i, c. split; [done|]. by apply add_encoding_match.
  - right. by apply add_encoding_no_match.
Qed.

Lemma absorb_nonempty p enc c : cluster_nonempty (absorb p enc c).
Proof.
  split; simpl.
  - by destruct (encodings c).
  - set_solver.
Qed.

Lemma fresh_nonempty p enc : cluster_nonempty (fresh p enc).
Proof. split; simpl; [done|set_solver]. Qed.

Lemma cluster_grows_refl c : cluster_grows c c.
Proof. split; reflexivity. Qed.

Lemma cluster_grows_trans c1 c2 c3 :
  cluster_grows c1 c2 -> cluster_grows c2 c3 -> cluster_grows c1 c3.
Proof. intros [? ?] [? ?]. split; etrans; eauto. Qed.

Lemma absorb_grows p enc c : cluster_grows c (absorb p enc c).
Proof. split; simpl; [by apply prefix_app_r|set_solver]. Qed.

Lemma clusters_grow_refl cl : clusters_grow cl cl.
Proof.
  exists cl, []. split; [by rewrite app_nil_r|].
  apply Forall2_same_length_lookup_2; [done|].
  intros i x y Hx Hy. assert (x = y) as -> by congruence. apply cluster_grows_refl.
Qed.

Lemma clusters_grow_trans cl1 cl2 cl3 :
  clusters_grow cl1 cl2 -> clusters_grow cl2 cl3 -> clusters_grow cl1 cl3.
Proof.
  intros (ext & new & -> & H12) (ext' & new' & -> & H23).
  apply Forall2_app_inv_l in H23 as (e1 & e2 & He1 & He2 & ->).
  exists e1, (e2 ++ new'). split; [by rewrite app_assoc|].
  eapply Forall2_trans; [|exact H12|exact He1].
  intros ? ? ?. apply cluster_grows_trans.
Qed.

Lemma add_encoding_nonempty p enc clusters :
  Forall cluster_nonempty clusters ->
  Forall cluster_nonempty (add_encoding env p clusters enc).
Proof.
  intros Hne. destruct (add_encoding_cases p enc clusters) as [(i & c & _ & ->)| ->].
  - apply Forall_insert; [done|apply absorb_nonempty].
  - apply Forall_app. split; [done|].
    constructor; [apply fresh_nonempty|constructor].
Qed.

Lemma add_encoding_grows p enc clusters :
  clusters_grow clusters (add_encoding env p clusters enc).
Proof.
  destruct (add_encoding_cases p enc clusters) as [(i & c & Hi & ->)| ->].
  - exists (<[i := absorb p enc c]> clusters), []. split; [by rewrite app_nil_r|].
    rewrite <- (list_insert_id clusters i c Hi) at 1.
    apply Forall2_insert; [|apply absorb_grows].
    destruct (clusters_grow_refl clusters) as (ext & new & Heq & HF).
    apply Forall2_same_length_lookup_2; [done|].
    intros j x y Hx Hy. assert (x = y) as -> by congruence. apply cluster_grows_refl.
  - exists clusters, [fresh p enc]. split; [done|].
    apply Forall2_same_length_lookup_2; [done|].
    intros j x y Hx Hy. assert (x = y) as -> by congruence. apply cluster_grows_refl.
Qed.

Lemma add_image_invariants p clusters :
  clusters_grow clusters (add_image env clusters p) /\
  (Forall cluster_nonempty clusters ->
   Forall cluster_nonempty (add_image env clusters p)).
Proof.
  unfold add_image. generalize (face_encodings_for_image env p). intros encs.
  revert clusters. induction encs as [|enc encs IH]; intros clusters; simpl.
  - split; [apply clusters_grow_refl|done].
  - destruct (IH (add_encoding env p clusters enc)) as [Hg Hn]. split.
    + eapply clusters_grow_trans; [apply add_encoding_grows|exact Hg].
    + intros Hne. by apply Hn, add_encoding_nonempty.
Qed.

End Clustering.

Section FaceWorker.

Variable env : Env.
Variable stop_event : nat -> bool.
Variable base : Path.
Variable include_sub : bool.

Lemma cluster_loop_stopped total idx clusters p rest s :
  stop_event (polls s) = true ->
  cluster_loop env stop_event total idx clusters (p :: rest) s =
  {| trace := []; final := {| fs := fs s; polls := S (polls s) |};
     result := Ok clusters |}.
Proof.
  intros Hstop. simpl cluster_loop. rewrite run_bind.
  cbn [is_set trace final result app]. by rewrite Hstop.
Qed.

Lemma cluster_loop_step total idx clusters p rest s :
  stop_event (polls s) = false ->
  let r := cluster_loop env stop_event total (S idx) (add_image env clusters p) rest
                        {| fs := fs s; polls := S (polls s) |} in
  cluster_loop env stop_event total idx clusters (p :: rest) s =
  {| trace := EvProgress (py_div (idx + 1) total) :: trace r;
     final := final r; result := result r |}.
Proof.
  intros Hstop r. simpl cluster_loop. rewrite run_bind.
  cbn [is_set trace final result app]. rewrite Hstop.
  cbv zeta. rewrite run_bind. reflexivity.
Qed.

(** The loop never raises; what it returns keeps every cluster it was
    given, and no cluster is empty. *)
Lemma cluster_loop_result total photos :
  forall idx clusters s,
    exists clusters',
      result (cluster_loop env stop_event total idx clusters photos s) = Ok clusters' /\
      clusters_grow clusters clusters' /\
      (Forall cluster_nonempty clusters -> Forall cluster_nonempty clusters').
Proof.
  induction photos as [|p rest IH]; intros idx clusters s.
  - exists clusters. split; [reflexivity|]. split; [apply clusters_grow_refl|done].
  - destruct (stop_event (polls s)) eqn:Hstop.
    + rewrite cluster_loop_stopped by done. exists clusters.
      split; [reflexivity|]. split; [apply clusters_grow_refl|done].
    + rewrite cluster_loop_step by done. cbv zeta. cbn [result].
      destruct (IH (S idx) (add_image env clusters p)
                   {| fs := fs s; polls := S (polls s) |})
        as (cl' & Hr & Hg & Hn).
      destruct (add_image_invariants env p clusters) as [Hg0 Hn0].
      exists cl'. split; [exact Hr|]. split.
      * eapply clusters_grow_trans; [exact Hg0|exact Hg].
      * intros Hne. by apply Hn, Hn0.
Qed.

Lemma cluster_loop_progress total photos :
  forall idx clusters s k,
    k <= length photos ->
    (forall j, j < k -> stop_event (polls s + j) = false) ->
    (k < length photos -> stop_event (polls s + k) = true) ->
    progress_of (trace (cluster_loop env stop_event total idx clusters photos s)) =
    fractions total (S idx) k.
Proof.
  induction photos as [|p rest IH]; intros idx clusters s k Hk Hrun Hstop.
  - simpl in Hk. by assert (k = 0) as -> by lia.
  - destruct k as [|k].
    + rewrite cluster_loop_stopped; [reflexivity|].
      rewrite <- (Nat.add_0_r (polls s)). apply Hstop. simpl. lia.
    + rewrite cluster_loop_step
        by (rewrite <- (Nat.add_0_r (polls s)); apply Hrun; lia).
      cbv zeta. cbn [trace]. rewrite fractions_cons. simpl progress_of.
      rewrite (IH _ _ _ k).
      * by rewrite Nat.add_1_r.
      * simpl in Hk. lia.
      * intros j Hj. simpl. replace (S (polls s + j)) with (polls s + S j) by lia.
        apply Hrun. lia.
      * intros Hlt. simpl. replace (S (polls s + k)) with (polls s + S k) by lia.
        apply Hstop. simpl. lia.
Qed.

Lemma emits_copy_images P p_dir imgs :
  (forall a b, copy_error env a b = None -> P (EvCopy a b)) ->
  forall img_list, emits P (copy_images env p_dir imgs img_list).
Proof.
  intros Hcopy. induction imgs as [|img rest IH]; intros img_list; [apply emits_ret|].
  simpl. apply emits_bind; [unfold unique_dest_m; repeat emits_step|intros dest].
  apply emits_bind; [|intros _; apply IH].
  unfold copy2. destruct (copy_error env img dest) eqn:E; repeat emits_step; auto.
Qed.

Lemma emits_make_albums P faces_dir clusters :
  (forall a b, copy_error env a b = None -> P (EvCopy a b)) ->
  forall i final_groups, emits P (make_albums env faces_dir i clusters final_groups).
Proof.
  intros Hcopy. induction clusters as [|c rest IH]; intros i final_groups;
    [apply emits_ret|].
  simpl. apply emits_bind; [unfold mkdir; repeat emits_step|intros _].
  apply emits_bind; [by apply emits_copy_images|intros img_list]. apply IH.
Qed.

Lemma emits_face_finish P clusters :
  (forall msg, P (EvLog msg)) ->
  (forall a b, copy_error env a b = None -> P (EvCopy a b)) ->
  (forall r, P (EvFaceResult r)) ->
  emits P (face_finish env base clusters).
Proof.
  intros Hlog Hcopy Hres. unfold face_finish. cbv zeta.
  apply emits_bind; [unfold mkdir; repeat emits_step|intros _].
  apply emits_bind; [by apply emits_make_albums|intros final_groups].
  apply emits_bind; [by apply emits_emit|intros _]. by apply emits_emit.
Qed.

Lemma face_grouping_worker_unavailable s :
  FACE_AVAILABLE env = false ->
  face_grouping_worker env stop_event base include_sub s =
  {| trace := [EvLog "Face recognition not installed."; EvProgress 1];
     final := s; result := Ok tt |}.
Proof. intros Hf. unfold face_grouping_worker. by rewrite Hf. Qed.

Lemma face_grouping_worker_no_photos files s :
  FACE_AVAILABLE env = true ->
  result (iter_files env base include_sub s) = Ok files ->
  photos_of env files = [] ->
  face_grouping_worker env stop_event base include_sub s =
  {| trace := [EvLog "No photos found."; EvProgress 1];
     final := s; result := Ok tt |}.
Proof.
  intros Hface Hls Hnil. destruct (iter_files_run env base include_sub s) as [Ht Hf].
  unfold face_grouping_worker. rewrite Hface. cbn [negb].
  unfold mbind, M_bind, bind. rewrite Hls, Ht, Hf.
  fold (photos_of env files). rewrite Hnil. reflexivity.
Qed.

(** A non-empty set of photos: one log line, the clustering loop, then
    the albums. *)
Lemma face_grouping_worker_run files s :
  FACE_AVAILABLE env = true ->
  result (iter_files env base include_sub s) = Ok files ->
  photos_of env files <> [] ->
  let photos := photos_of env files in
  let r := cluster_loop env stop_event (length photos) 0 [] photos s in
  exists clusters,
    result r = Ok clusters /\
    face_grouping_worker env stop_event base include_sub s =
    {| trace := EvLog ("Analyzing faces in " +:+ pretty (length photos) +:+ " photos...")
                :: trace r ++ trace (face_finish env base clusters (final r));
       final := final (face_finish env base clusters (final r));
       result := result (face_finish env base clusters (final r)) |}.
Proof.
  intros Hface Hls Hne. cbv zeta.
  destruct (iter_files_run env base include_sub s) as [Ht Hf].
  set (photos := photos_of env files) in *.
  destruct (cluster_loop_result (length photos) photos 0 [] s) as (cl & Hr & _).
  exists cl. split; [exact Hr|].
  unfold face_grouping_worker. rewrite Hface. cbn [negb].
  unfold mbind at 1, M_bind at 1, bind at 1. rewrite Hls, Ht, Hf.
  fold (photos_of env files). fold photos. clearbody photos.
  destruct photos as [|p0 rest]; [done|].
  rewrite run_bind. cbn [log_cb emit trace final result app].
  rewrite run_bind, Hr. reflexivity.
Qed.

End FaceWorker.

(* ===================================================================== *)
(** * The claims                                                          *)
(* ===================================================================== *)

(** C4. On a file system holding the finite set [fs0] of paths,
    [unique_dest] returns (its loop ends within [size fs0 + 1] candidates)
    a path that does not exist; the original path unchanged if it does not
    exist; and, if the original path and the candidates with suffixes (1)
    to (n-1) exist while the one with suffix (n) does not, the candidate
    with (n) appended to the stem. *)
Theorem unique_dest_first_free (fs0 : gset Path) (dest : Path) :
  unique_dest_fuel (path_exists fs0) (S (size fs0)) dest = Some (unique_dest fs0 dest) /\
  (unique_dest fs0 dest ∉ fs0) /\
  (dest ∉ fs0 -> unique_dest fs0 dest = dest) /\
  (forall n,
      1 <= n -> dest ∈ fs0 ->
      (forall i, 1 <= i < n -> candidate dest i ∈ fs0) ->
      candidate dest n ∉ fs0 ->
      unique_dest fs0 dest = candidate dest n).
Proof.
  split; [apply unique_dest_fuel_enough|].
  split; [apply unique_dest_not_exists|].
  split; [apply unique_dest_unchanged|].
  intros n. apply unique_dest_nth.
Qed.

Lemma unique_dest_first_free_witness :
  let fs0 : gset Path := {[ ["d"; "a.jpg"]; ["d"; "a (1).jpg"] ]} in
  let dest : Path := ["d"; "a.jpg"] in
  (1 <= 2 /\ (dest ∈ fs0) /\
   (forall i, 1 <= i < 2 -> candidate dest i ∈ fs0) /\
   (candidate dest 2 ∉ fs0)) /\
  unique_dest fs0 dest = ["d"; "a (2).jpg"].
Proof.
  intros fs0 dest.
  assert (H1 : 1 <= 2) by lia.
  assert (H2 : dest ∈ fs0) by (apply (bool_decide_unpack _); vm_compute; exact I).
  assert (H3 : forall i, 1 <= i < 2 -> candidate dest i ∈ fs0).
  { intros i Hi. assert (i = 1) as -> by lia.
    apply (bool_decide_unpack _). vm_compute. exact I. }
  assert (H4 : candidate dest 2 ∉ fs0) by (apply (bool_decide_unpack _); vm_compute; exact I).
  split; [by repeat split|].
  destruct (unique_dest_first_free fs0 dest) as (_ & _ & _ & Hn).
  exact (Hn 2 H1 H2 H3 H4).
Defined.

(** C7. The duplicate scan does not depend on the use-perceptual-hash
    flag or on the perceptual threshold: two runs that differ only in
    these arguments are the same run, so they deliver the same duplicate
    groups. *)
Theorem duplicate_scan_ignores_perceptual_options
    (env : Env) (stop_event : nat -> bool) (base : Path)
    (include_sub images_only use_phash use_phash' : bool)
    (perceptual_threshold perceptual_threshold' : Q) (s : State) :
  duplicate_scan_worker env stop_event base include_sub images_only
                        use_phash perceptual_threshold s =
  duplicate_scan_worker env stop_event base include_sub images_only
                        use_phash' perceptual_threshold' s /\
  dup_results_of (trace (duplicate_scan_worker env stop_event base include_sub
                           images_only use_phash perceptual_threshold s)) =
  dup_results_of (trace (duplicate_scan_worker env stop_event base include_sub
                           images_only use_phash' perceptual_threshold' s)).
Proof. split; reflexivity. Qed.

Lemma In_placed_of tr src dst :
  EvCopy src dst ∈ tr \/ EvMove src dst ∈ tr -> (src, dst) ∈ placed_of tr.
Proof.
  unfold placed_of. intros [H|H]; apply list_elem_of_omap; eexists; (split; [exact H|reflexivity]).
Qed.

Lemma count_one_full n : (0 < n)%nat -> length (List.filter is_one (fractions n 1 n)) = 1.
Proof.
  intros Hn. rewrite count_one_fractions by done.
  by rewrite bool_decide_eq_true_2 by lia.
Qed.

(** C1, as stated, fails: a sort of the three files of the demo directory
    that runs to completion calls the progress callback with 1.0 twice,
    once for the last file (3/3) and once after the loop. *)
Lemma sort_reports_one_twice :
  count_one (trace (sort_worker Demo.env Demo.never Demo.base false false []
                                false Demo.start)) <> 1.
Proof. vm_compute. discriminate. Qed.

(** The duplicate scan of an empty directory never calls the progress
    callback, and neither does a duplicate scan or a face clustering that
    is cancelled at once. *)
Lemma no_progress_without_work :
  progress_of (trace (duplicate_scan_worker (Demo.make_env [] (fun _ => None))
                        Demo.never Demo.base false false true 10 Demo.start)) = [] /\
  progress_of (trace (duplicate_scan_worker Demo.env Demo.at_once Demo.base
                        false false true 10 Demo.start)) = [] /\
  progress_of (trace (face_grouping_worker Demo.env Demo.at_once Demo.base
                        false Demo.start)) = [].
Proof.
  split; [vm_compute; reflexivity|]. split; vm_compute; reflexivity.
Qed.

(** C1, amended. Once the listing succeeded: a sort calls the progress
    callback with 1.0 as its last progress value on zero-file input, on
    cancellation and on completion, once on zero-file input and when
    cancelled before the last file, twice on completion; a face
    clustering calls it exactly once when the capability is missing, on
    zero-photo input and when its loop is not cancelled; a duplicate scan
    whose bucket loop is not cancelled calls it exactly once, provided
    there is at least one size bucket and the modification times can be
    read. *)
Theorem progress_reaches_one
    (env : Env) (stop_event : nat -> bool) (base : Path) (include_sub : bool)
    (s : State) (files : list Path) :
  result (iter_files env base include_sub s) = Ok files ->
  (forall move_mode groups_selected exif_by_date,
      let tr := trace (sort_worker env stop_event base move_mode include_sub
                                   groups_selected exif_by_date s) in
      (files = [] -> progress_of tr = [1%Q]) /\
      (files <> [] ->
       (forall d, d ∈ DEFAULT_FOLDERS -> mkdir_error env (base / d)%path = None) ->
       forall k,
         k <= length files ->
         (forall j, j < k -> stop_event (polls s + j) = false) ->
         (k < length files -> stop_event (polls s + k) = true) ->
         progress_of tr = fractions (length files) 1 k ++ [1%Q] /\
         count_one tr = if bool_decide (k = length files) then 2 else 1)) /\
  (let tr := trace (face_grouping_worker env stop_event base include_sub s) in
   (FACE_AVAILABLE env = false -> progress_of tr = [1%Q]) /\
   (FACE_AVAILABLE env = true -> photos_of env files = [] -> progress_of tr = [1%Q]) /\
   (FACE_AVAILABLE env = true -> photos_of env files <> [] ->
    (forall j, j < length (photos_of env files) -> stop_event (polls s + j) = false) ->
    progress_of tr =
      fractions (length (photos_of env files)) 1 (length (photos_of env files)) /\
    count_one tr = 1)) /\
  (forall images_only use_phash perceptual_threshold,
      let scanned := scan_listing env images_only files in
      let tr := trace (duplicate_scan_worker env stop_event base include_sub images_only
                                             use_phash perceptual_threshold s) in
      size_buckets env scanned <> [] ->
      (forall j, j < length (size_buckets env scanned) ->
                 stop_event (polls s + j) = false) ->
      mtime_ok env scanned ->
      progress_of tr =
        fractions (length (size_buckets env scanned)) 1 (length (size_buckets env scanned)) /\
      count_one tr = 1).
Proof.
  intros Hls. split; [|split].
  - (* sort *)
    intros move_mode groups_selected exif_by_date tr. split.
    + intros ->. subst tr. by rewrite sort_worker_empty.
    + intros Hne Hmk k Hk Hrun Hstop.
      destruct (sort_worker_run env stop_event base move_mode include_sub
                  groups_selected exif_by_date files s Hls Hne Hmk) as (s' & Hp & Heq).
      cbv zeta in Heq. subst tr. rewrite Heq. cbn [trace].
      destruct (sort_loop_progress env stop_event base move_mode groups_selected
                  exif_by_date (length files) files 1 s' k) as [_ Hprog].
      { exact Hk. }
      { intros j Hj. rewrite Hp. by apply Hrun. }
      { intros Hlt. rewrite Hp. by apply Hstop. }
      assert (Hall : progress_of
                (EvLog ("Scanning " +:+ str base +:+ "...")
                 :: EvLog ("Found " +:+ pretty (length files) +:+ " files. Processing...")
                 :: trace (sort_loop env stop_event base move_mode groups_selected
                                     exif_by_date (length files) 1 files s')
                    ++ [EvProgress 1; EvLog "Operation complete!"])
              = fractions (length files) 1 k ++ [1%Q]).
      { change (progress_of (?a :: ?b :: ?l)) with (progress_of l).
        by rewrite progress_of_app, Hprog. }
      split; [exact Hall|].
      unfold count_one. rewrite Hall, List.filter_app, length_app.
      assert (Hn : (0 < length files)%nat) by (destruct files; simpl; [done|lia]).
      rewrite count_one_fractions by done. simpl.
      destruct (bool_decide_reflect (k = length files)) as [->|Hnk].
      * by rewrite bool_decide_eq_true_2 by lia.
      * by rewrite bool_decide_eq_false_2 by lia.
  - (* face clustering *)
    cbv zeta. split; [|split].
    + intros Hface. by rewrite face_grouping_worker_unavailable.
    + intros Hface Hnil. by rewrite (face_grouping_worker_no_photos _ _ _ _ files).
    + intros Hface Hne Hrun.
      destruct (face_grouping_worker_run env stop_event base include_sub files s
                  Hface Hls Hne) as (cl & Hr & Heq).
      cbv zeta in Heq. rewrite Heq. cbn [trace].
      assert (Hall : progress_of
                (EvLog ("Analyzing faces in " +:+ pretty (length (photos_of env files))
                        +:+ " photos...")
                 :: trace (cluster_loop env stop_event (length (photos_of env files)) 0 []
                                        (photos_of env files) s)
                    ++ trace (face_finish env base cl
                                (final (cluster_loop env stop_event
                                          (length (photos_of env files)) 0 []
                                          (photos_of env files) s))))
              = fractions (length (photos_of env files)) 1 (length (photos_of env files))).
      { change (progress_of (?a :: ?l)) with (progress_of l).
        rewrite progress_of_app.
        rewrite (cluster_loop_progress env stop_event _ _ 0 [] s
                   (length (photos_of env files))); [|lia|exact Hrun|lia].
        rewrite (progress_of_quiet (trace (face_finish _ _ _ _))); [by rewrite app_nil_r|].
        by apply (emits_face_finish env base not_progress). }
      split; [exact Hall|].
      unfold count_one. rewrite Hall. apply count_one_full.
      destruct (photos_of env files); simpl; [done|lia].
  - (* duplicate scan *)
    intros images_only use_phash perceptual_threshold scanned tr Hne Hrun Hok.
    assert (Hsc : scanned <> []).
    { intros Heq. apply Hne. by rewrite Heq. }
    subst tr. rewrite (duplicate_scan_worker_run _ _ _ _ _ _ _ files) by done.
    cbv zeta. fold scanned.
    rewrite scan_buckets_run.
    + cbn [trace result].
      assert (Hall : progress_of
                (EvLog "Listing files..."
                 :: EvLog ("Scanning " +:+ pretty (length scanned)
                           +:+ " files for duplicates...")
                 :: scan_events env (length (size_buckets env scanned)) 0
                                (size_buckets env scanned)
                    ++ [EvDupResult ([] ++ flat_map (bucket_dups env) (size_buckets env scanned));
                        EvLog ("Found " +:+
                               pretty (length ([] ++ flat_map (bucket_dups env)
                                                        (size_buckets env scanned)))
                               +:+ " duplicate groups.")])
              = fractions (length (size_buckets env scanned)) 1
                          (length (size_buckets env scanned))).
      { change (progress_of (?a :: ?b :: ?l)) with (progress_of l).
        rewrite progress_of_app, progress_of_scan_events. simpl. by rewrite app_nil_r. }
      split; [exact Hall|].
      unfold count_one. rewrite Hall. apply count_one_full.
      destruct (size_buckets env scanned); simpl; [done|lia].
    + exact Hrun.
    + intros g Hg f Hf. apply Hok.
      apply size_buckets_elem in Hg as (sz & -> & _).
      by apply bucket_of_elem in Hf as [Hf _].
Qed.

Lemma progress_reaches_one_witness :
  result (iter_files Demo.env Demo.base false Demo.start) = Ok [Demo.a; Demo.b; Demo.c] /\
  count_one (trace (sort_worker Demo.env Demo.never Demo.base false false []
                                false Demo.start)) = 2 /\
  count_one (trace (sort_worker Demo.env Demo.after_one Demo.base false false []
                                false Demo.start)) = 1 /\
  count_one (trace (face_grouping_worker Demo.env Demo.never Demo.base false
                                         Demo.start)) = 1 /\
  count_one (trace (duplicate_scan_worker Demo.env Demo.never Demo.base false false
                                          true 10 Demo.start)) = 1.
Proof.
  assert (Hls : result (iter_files Demo.env Demo.base false Demo.start)
                = Ok [Demo.a; Demo.b; Demo.c]) by reflexivity.
  assert (Hne : [Demo.a; Demo.b; Demo.c] <> []) by discriminate.
  assert (Hmk : forall d, d ∈ DEFAULT_FOLDERS ->
                          mkdir_error Demo.env (Demo.base / d)%path = None)
    by (intros; reflexivity).
  split; [exact Hls|].
  destruct (progress_reaches_one Demo.env Demo.never Demo.base false Demo.start
              [Demo.a; Demo.b; Demo.c] Hls) as (Hsort & Hface & Hdup).
  destruct (progress_reaches_one Demo.env Demo.after_one Demo.base false Demo.start
              [Demo.a; Demo.b; Demo.c] Hls) as (Hsort' & _ & _).
  split; [|split; [|split]].
  - destruct (Hsort false [] false) as [_ H].
    destruct (H Hne Hmk 3) as [_ Hc]; [simpl; lia|intros; reflexivity|simpl; lia|].
    exact Hc.
  - destruct (Hsort' false [] false) as [_ H].
    destruct (H Hne Hmk 1) as [_ Hc]; [simpl; lia| |intros; reflexivity|].
    { intros j Hj. assert (j = 0) as -> by lia. reflexivity. }
    exact Hc.
  - destruct Hface as (_ & _ & H).
    destruct H as [_ Hc]; [reflexivity|vm_compute; discriminate|intros; reflexivity|].
    exact Hc.
  - destruct (Hdup false true 10%Q) as [_ Hc];
      [vm_compute; discriminate|intros; reflexivity| |exact Hc].
    intros f _. eexists. reflexivity.
Defined.

(* ===================================================================== *)
(** ** Per-item failures                                                  *)
(* ===================================================================== *)

Lemma scan_events_quiet env total groups :
  forall cur,
    logs_of (scan_events env total cur groups) = [] /\
    dup_results_of (scan_events env total cur groups) = [].
Proof.
  induction groups as [|g rest IH]; intros cur; [done|].
  simpl scan_events. unfold bucket_events.
  rewrite !logs_of_app, !dup_results_of_app.
  destruct (IH (S cur)) as [-> ->].
  destruct (length g <? 2)%nat; simpl; [done|].
  split.
  - rewrite logs_of_quiet; [done|]. apply Forall_fmap, Forall_forall. by intros.
  - induction g as [|f g IHg]; [done|exact IHg].
Qed.


(* ===================================================================== *)
(** ** Cancellation before any work                                       *)
(* ===================================================================== *)

(** C9, as stated, fails: with the stop event set before the first poll,
    the last status line of a sort is "Operation complete!", the same as
    that of a sort that ran to completion, and a duplicate scan writes its
    usual lines and delivers a result, with no word of a cancellation. *)
Lemma cancelled_run_reports_completion :
  let cancelled := trace (sort_worker Demo.env Demo.at_once Demo.base false false []
                                      false Demo.start) in
  let completed := trace (sort_worker Demo.env Demo.never Demo.base false false []
                                      false Demo.start) in
  let scan := trace (duplicate_scan_worker Demo.env Demo.at_once Demo.base false false
                                           true 10 Demo.start) in
  Demo.at_once 0 = true /\
  last_log cancelled = Some "Operation complete!" /\
  last_log cancelled = last_log completed /\
  logs_of scan = ["Listing files..."; "Scanning 3 files for duplicates...";
                  "Found 0 duplicate groups."] /\
  dup_results_of scan = [[]].
Proof.
  intros cancelled completed scan.
  split; [reflexivity|].
  split; [vm_compute; reflexivity|].
  split; [vm_compute; reflexivity|].
  split; vm_compute; reflexivity.
Qed.

(** C9, amended. If the stop event is set when it is first polled, no
    file is copied, moved or hashed. The sort (which has already created
    the category folders) logs "Sorting cancelled.", then still reports
    progress 1.0 and logs "Operation complete!". The duplicate scan
    delivers an empty result and logs "Found 0 duplicate groups."; the
    face clustering logs "Created 0 face albums." and delivers an empty
    result. Neither reports the cancellation. *)
Theorem cancelled_at_start
    (env : Env) (stop_event : nat -> bool) (base : Path) (include_sub : bool)
    (s : State) (files : list Path) :
  result (iter_files env base include_sub s) = Ok files ->
  stop_event (polls s) = true ->
  (forall move_mode groups_selected exif_by_date,
      files <> [] ->
      (forall d, d ∈ DEFAULT_FOLDERS -> mkdir_error env (base / d)%path = None) ->
      let tr := trace (sort_worker env stop_event base move_mode include_sub
                                   groups_selected exif_by_date s) in
      tr = [EvLog ("Scanning " +:+ str base +:+ "...");
            EvLog ("Found " +:+ pretty (length files) +:+ " files. Processing...");
            EvLog "Sorting cancelled.";
            EvProgress 1;
            EvLog "Operation complete!"] /\
      placed_of tr = [] /\ hashed_of tr = []) /\
  (forall images_only use_phash perceptual_threshold,
      scan_listing env images_only files <> [] ->
      let tr := trace (duplicate_scan_worker env stop_event base include_sub images_only
                                             use_phash perceptual_threshold s) in
      tr = [EvLog "Listing files...";
            EvLog ("Scanning " +:+ pretty (length (scan_listing env images_only files))
                   +:+ " files for duplicates...");
            EvDupResult [];
            EvLog "Found 0 duplicate groups."] /\
      placed_of tr = [] /\ hashed_of tr = []) /\
  (FACE_AVAILABLE env = true ->
   photos_of env files <> [] ->
   mkdir_error env (base / "Faces")%path = None ->
   let tr := trace (face_grouping_worker env stop_event base include_sub s) in
   tr = [EvLog ("Analyzing faces in " +:+ pretty (length (photos_of env files))
                +:+ " photos...");
         EvLog "Created 0 face albums.";
         EvFaceResult []] /\
   placed_of tr = [] /\ hashed_of tr = []).
Proof.
  intros Hls Hstop. split; [|split].
  - intros move_mode groups_selected exif_by_date Hne Hmk tr.
    destruct (sort_worker_run env stop_event base move_mode include_sub
                groups_selected exif_by_date files s Hls Hne Hmk) as (s' & Hp & Heq).
    cbv zeta in Heq. subst tr. rewrite Heq. cbn [trace].
    destruct files as [|f rest]; [done|].
    rewrite sort_loop_stopped by (by rewrite Hp).
    cbn [trace app]. by repeat split.
  - intros images_only use_phash perceptual_threshold Hne tr. subst tr.
    rewrite (duplicate_scan_worker_run _ _ _ _ _ _ _ files) by done. cbv zeta.
    destruct (size_buckets env (scan_listing env images_only files)) as [|g rest].
    + cbn [scan_buckets mret M_ret ret trace result app length]. by repeat split.
    + rewrite scan_buckets_stopped by done.
      cbn [trace result app length]. by repeat split.
  - intros Hface Hne Hmk tr.
    destruct (face_grouping_worker_run env stop_event base include_sub files s
                Hface Hls Hne) as (cl & Hr & Heq).
    cbv zeta in Heq. subst tr. rewrite Heq. cbn [trace]. clear Heq.
    destruct (photos_of env files) as [|p rest]; [done|].
    rewrite cluster_loop_stopped in * by done.
    cbn [trace final result app] in *. injection Hr as <-.
    unfold face_finish, mkdir. rewrite Hmk. by repeat split.
Qed.

Lemma cancelled_at_start_witness :
  (result (iter_files Demo.env Demo.base false Demo.start) = Ok [Demo.a; Demo.b; Demo.c] /\
   Demo.at_once (polls Demo.start) = true) /\
  trace (sort_worker Demo.env Demo.at_once Demo.base false false [] false Demo.start)
  = [EvLog "Scanning d..."; EvLog "Found 3 files. Processing...";
     EvLog "Sorting cancelled."; EvProgress 1; EvLog "Operation complete!"] /\
  trace (duplicate_scan_worker Demo.env Demo.at_once Demo.base false false true 10
                               Demo.start)
  = [EvLog "Listing files..."; EvLog "Scanning 3 files for duplicates...";
     EvDupResult []; EvLog "Found 0 duplicate groups."] /\
  trace (face_grouping_worker Demo.env Demo.at_once Demo.base false Demo.start)
  = [EvLog "Analyzing faces in 2 photos..."; EvLog "Created 0 face albums.";
     EvFaceResult []].
Proof.
  assert (Hls : result (iter_files Demo.env Demo.base false Demo.start)
                = Ok [Demo.a; Demo.b; Demo.c]) by reflexivity.
  assert (Hstop : Demo.at_once (polls Demo.start) = true) by reflexivity.
  split; [by split|].
  destruct (cancelled_at_start Demo.env Demo.at_once Demo.base false Demo.start
              [Demo.a; Demo.b; Demo.c] Hls Hstop) as (Hsort & Hdup & Hface).
  split; [|split].
  - destruct (Hsort false [] false) as [H _]; [discriminate|intros; reflexivity|].
    exact H.
  - destruct (Hdup false true 10%Q) as [H _]; [discriminate|]. exact H.
  - destruct Hface as [H _]; [reflexivity|vm_compute; discriminate|reflexivity|].
    exact H.
Defined.

(* ===================================================================== *)
(** ** Greedy clustering                                                  *)
(* ===================================================================== *)

(** A clustering loop that is not cancelled adds the images one at a
    time, in the order of the listing. *)
Lemma cluster_loop_foldl env stop_event total photos :
  forall idx clusters s,
    (forall j, j < length photos -> stop_event (polls s + j) = false) ->
    result (cluster_loop env stop_event total idx clusters photos s) =
    Ok (foldl (add_image env) clusters photos).
Proof.
  induction photos as [|p rest IH]; intros idx clusters s Hrun; [reflexivity|].
  rewrite cluster_loop_step
    by (rewrite <- (Nat.add_0_r (polls s)); apply Hrun; simpl; lia).
  cbv zeta. cbn [result]. rewrite IH; [reflexivity|].
  intros j Hj. simpl. replace (S (polls s + j)) with (polls s + S j) by lia.
  apply Hrun. simpl. lia.
Qed.

(** C6. A vector [enc] extracted from image [p] is added to the first
    cluster, in creation order, whose minimum distance to [enc] is below
    0.6: that cluster takes the vector and the image, and no other cluster
    changes; if there is none, a new cluster holding only [enc] and [p] is
    appended. The images are processed in enumeration order. So no cluster
    is ever empty, a cluster once created stays at its place and only
    grows, and an image with two distinct faces can be in two clusters. *)
Theorem greedy_clustering (env : Env) (p : Path) (enc : encoding)
    (clusters : list cluster) :
  (forall i c,
      clusters !! i = Some c ->
      matches env enc c ->
      (forall j c', j < i -> clusters !! j = Some c' -> ~ matches env enc c') ->
      add_encoding env p clusters enc = <[i := absorb p enc c]> clusters) /\
  ((forall c, c ∈ clusters -> ~ matches env enc c) ->
   add_encoding env p clusters enc = clusters ++ [fresh p enc]) /\
  (forall stop_event total idx photos s,
      (forall j, j < length photos -> stop_event (polls s + j) = false) ->
      result (cluster_loop env stop_event total idx clusters photos s) =
      Ok (foldl (fun cl q => foldl (add_encoding env q) cl
                                   (face_encodings_for_image env q))
                clusters photos)) /\
  (forall stop_event total idx photos s,
      exists clusters',
        result (cluster_loop env stop_event total idx clusters photos s) = Ok clusters' /\
        clusters_grow clusters clusters' /\
        (Forall cluster_nonempty clusters -> Forall cluster_nonempty clusters')) /\
  (let cl := add_image Demo.env (add_image Demo.env [] Demo.a) Demo.b in
   length cl = 2 /\ Forall (fun c => Demo.b ∈ images c) cl).
Proof.
  split; [intros i c; apply add_encoding_match|].
  split; [apply add_encoding_no_match|].
  split; [intros; by apply cluster_loop_foldl|].
  split; [intros; apply cluster_loop_result|].
  cbv zeta. split; [vm_compute; reflexivity|].
  apply (bool_decide_unpack _). vm_compute. exact I.
Qed.

Lemma greedy_clustering_witness :
  let c0 : cluster := {| encodings := [[0%Q]]; images := {[Demo.a]} |} in
  let c1 : cluster := {| encodings := [[1%Q]]; images := {[Demo.b]} |} in
  ([c1; c0] !! 1 = Some c0 /\ matches Demo.env [0%Q] c0 /\
   (forall j c', j < 1 -> [c1; c0] !! j = Some c' -> ~ matches Demo.env [0%Q] c')) /\
  add_encoding Demo.env Demo.c [c1; c0] [0%Q] = [c1; absorb Demo.c [0%Q] c0].
Proof.
  intros c0 c1.
  assert (H1 : [c1; c0] !! 1 = Some c0) by reflexivity.
  assert (H2 : matches Demo.env [0%Q] c0).
  { exists (face_distance1 Demo.env [0%Q] [0%Q]).
    split; [apply list_elem_of_singleton; reflexivity|].
    split; [|reflexivity].
    intros d Hd. apply list_elem_of_singleton in Hd. subst d. apply Qle_refl. }
  assert (H3 : forall j c', j < 1 -> [c1; c0] !! j = Some c' ->
                            ~ matches Demo.env [0%Q] c').
  { intros j c' Hj Hc'. assert (j = 0) as -> by lia. injection Hc' as <-.
    intros (m & Hm & _ & Hlt). apply list_elem_of_singleton in Hm. subst m.
    vm_compute in Hlt. discriminate. }
  split; [by repeat split|].
  destruct (greedy_clustering Demo.env Demo.c [0%Q] [c1; c0]) as (Hmatch & _).
  exact (Hmatch 1 c0 H1 H2 H3).
Defined.

(* ===================================================================== *)
(** ** What a duplicate scan hashes and delivers                          *)
(* ===================================================================== *)

Lemma hashed_of_cons_log msg tr : hashed_of (EvLog msg :: tr) = hashed_of tr.
Proof. reflexivity. Qed.

Lemma dup_results_of_cons_log msg tr : dup_results_of (EvLog msg :: tr) = dup_results_of tr.
Proof. reflexivity. Qed.

(** Whatever is cancelled or raised: the digest is taken only of files of
    buckets with at least two files, and every delivered group is made
    from a digest group of such a bucket. *)
Lemma duplicate_scan_worker_any env stop_event base include_sub images_only
    use_phash perceptual_threshold s files :
  result (iter_files env base include_sub s) = Ok files ->
  let scanned := scan_listing env images_only files in
  let tr := trace (duplicate_scan_worker env stop_event base include_sub images_only
                                         use_phash perceptual_threshold s) in
  (forall f, f ∈ hashed_of tr ->
     exists g, g ∈ size_buckets env scanned /\ f ∈ g /\ (2 <= length g)%nat) /\
  (forall dups d, dups ∈ dup_results_of tr -> d ∈ dups ->
     scan_group_ok env (size_buckets env scanned) d).
Proof.
  intros Hls scanned tr.
  destruct (decide (scanned = [])) as [Hnil|Hne].
  - subst tr. rewrite (duplicate_scan_worker_empty _ _ _ _ _ _ _ files) by done.
    cbn [trace]. split.
    + intros f Hf. by apply elem_of_nil in Hf.
    + intros dups d Hdups Hd. apply list_elem_of_singleton in Hdups. subst dups.
      by apply elem_of_nil in Hd.
  - subst tr. rewrite (duplicate_scan_worker_run _ _ _ _ _ _ _ files) by done.
    cbv zeta. fold scanned. cbn [trace].
    set (groups := size_buckets env scanned).
    destruct (scan_buckets_any env stop_event (length groups) groups 0 [] s)
      as [Hev Hres].
    set (r := scan_buckets env stop_event (length groups) 0 [] groups s) in *.
    destruct (scan_events_no_result groups (trace r) Hev) as [Hnores _].
    split.
    + intros f Hf. rewrite !hashed_of_cons_log, hashed_of_app in Hf.
      apply elem_of_app in Hf as [Hf|Hf]; [by eapply scan_events_hashed|].
      destruct (result r); by apply elem_of_nil in Hf.
    + intros dups d Hdups Hd.
      rewrite !dup_results_of_cons_log, dup_results_of_app, Hnores in Hdups.
      destruct (result r) as [dups'|e] eqn:Hr; [|by apply elem_of_nil in Hdups].
      apply list_elem_of_singleton in Hdups. subst dups.
      destruct (Hres dups' eq_refl) as (new & -> & Hnew).
      eapply Forall_forall in Hnew; [exact Hnew|exact Hd].
Qed.

(** A scan that is not cancelled, when the modification times can be
    read: the result is the groups of every bucket, and progress is
    reported once per bucket. *)
Lemma duplicate_scan_worker_full env stop_event base include_sub images_only
    use_phash perceptual_threshold s files :
  result (iter_files env base include_sub s) = Ok files ->
  let scanned := scan_listing env images_only files in
  let tr := trace (duplicate_scan_worker env stop_event base include_sub images_only
                                         use_phash perceptual_threshold s) in
  (forall j, j < length (size_buckets env scanned) -> stop_event (polls s + j) = false) ->
  mtime_ok env scanned ->
  dup_results_of tr = [flat_map (bucket_dups env) (size_buckets env scanned)] /\
  progress_of tr =
    fractions (length (size_buckets env scanned)) 1 (length (size_buckets env scanned)).
Proof.
  intros Hls scanned tr Hrun Hok.
  destruct (decide (scanned = [])) as [Hnil|Hne].
  - subst tr. rewrite (duplicate_scan_worker_empty _ _ _ _ _ _ _ files) by done.
    fold scanned. rewrite Hnil. by split.
  - subst tr. rewrite (duplicate_scan_worker_run _ _ _ _ _ _ _ files) by done.
    cbv zeta. fold scanned. rewrite scan_buckets_run.
    + cbn [trace result app].
      destruct (scan_events_quiet env (length (size_buckets env scanned))
                                  (size_buckets env scanned) 0) as [_ Hres].
      split.
      * change (dup_results_of (?a :: ?b :: ?l)) with (dup_results_of l).
        by rewrite dup_results_of_app, Hres.
      * change (progress_of (?a :: ?b :: ?l)) with (progress_of l).
        rewrite progress_of_app, progress_of_scan_events. simpl. by rewrite app_nil_r.
    + exact Hrun.
    + intros g Hg f Hf. apply Hok.
      apply size_buckets_elem in Hg as (sz & -> & _).
      by apply bucket_of_elem in Hf as [Hf _].
Qed.



(* ===================================================================== *)
(** ** Duplicate groups                                                   *)
(* ===================================================================== *)

Lemma touches_own_bucket env g : (2 <= length g)%nat -> touches g (mk_dup env g) = true.
Proof.
  intros Hlen. unfold touches. apply bool_decide_eq_true. apply Exists_cons. left.
  simpl. apply first_max_elem. destruct g; [simpl in Hlen; lia|done].
Qed.

(** C2. Over a listing without repetition, every group the duplicate scan
    delivers has at least two files, all different, all with the digest of
    the one to keep, which is one of them. And when the scan is not
    cancelled and the modification times can be read, a size bucket of
    k >= 2 files with identical content gives exactly one group: its files
    are those of the bucket, and the one to keep has the greatest
    modification time, the first such in the order of the listing. *)
Theorem duplicate_groups_correct
    (env : Env) (stop_event : nat -> bool) (base : Path)
    (include_sub images_only use_phash : bool) (perceptual_threshold : Q)
    (s : State) (files : list Path) :
  result (iter_files env base include_sub s) = Ok files ->
  let scanned := scan_listing env images_only files in
  let tr := trace (duplicate_scan_worker env stop_event base include_sub images_only
                                         use_phash perceptual_threshold s) in
  NoDup scanned ->
  (forall dups d,
      dups ∈ dup_results_of tr -> d ∈ dups ->
      (2 <= length (dup_members d))%nat /\
      NoDup (dup_members d) /\
      keep d ∈ dup_members d /\
      forall p, p ∈ dup_members d ->
        p ∈ scanned /\
        exists dg, digest env p = Some dg /\ digest env (keep d) = Some dg) /\
  ((forall k, stop_event k = false) ->
   mtime_ok env scanned ->
   forall sz content,
     let g := bucket_of env scanned sz in
     (2 <= length g)%nat ->
     (forall f, f ∈ g -> file_bytes env f = Ok content) ->
     exists dups d,
       dup_results_of tr = [dups] /\
       List.filter (touches g) dups = [d] /\
       dup_members d ≡ₚ g /\
       exists before after,
         g = before ++ keep d :: after /\
         (forall p, p ∈ before -> (mtime env p < mtime env (keep d))%Q) /\
         (forall p, p ∈ after -> (mtime env p <= mtime env (keep d))%Q)).
Proof.
  intros Hls scanned tr Hnd. split.
  - intros dups d Hdups Hd.
    destruct (duplicate_scan_worker_any env stop_event base include_sub images_only
                use_phash perceptual_threshold s files Hls) as [_ Hgroups].
    destruct (scan_group_ok_spec env scanned d (Hgroups dups d Hdups Hd))
      as [Hsize Hmem].
    destruct (Hsize Hnd) as [Hlen Hnodup].
    split; [exact Hlen|]. split; [exact Hnodup|].
    split; [apply elem_of_cons; by left|].
    intros p Hp. destruct (Hmem p Hp) as (Hin & _ & Hdg). by split.
  - intros Hrun Hok sz content g Hlen Hsame.
    destruct (duplicate_scan_worker_full env stop_event base include_sub images_only
                use_phash perceptual_threshold s files Hls) as [Hres _];
      [by intros|exact Hok|].
    assert (Hne : g <> []) by (destruct g; [simpl in Hlen; lia|done]).
    exists (flat_map (bucket_dups env) (size_buckets env scanned)), (mk_dup env g).
    split; [exact Hres|]. split; [|split].
    + subst g. rewrite filter_touches_bucket by done.
      rewrite (bucket_dups_identical env _ content) by done.
      simpl. by rewrite touches_own_bucket.
    + apply made_from_permutation.
      * by apply bucket_of_NoDup.
      * apply mk_dup_made_from. lia.
    + destruct (first_max_spec (mtime env) g Hne) as (before & after & Heq & Hb & Ha).
      by exists before, after.
Qed.

Lemma duplicate_groups_correct_witness :
  let tr := trace (duplicate_scan_worker Demo.env Demo.never Demo.base false false
                                         true 10 Demo.start) in
  (result (iter_files Demo.env Demo.base false Demo.start) = Ok [Demo.a; Demo.b; Demo.c] /\
   NoDup [Demo.a; Demo.b; Demo.c] /\
   (forall k, Demo.never k = false) /\
   mtime_ok Demo.env [Demo.a; Demo.b; Demo.c] /\
   (2 <= length (bucket_of Demo.env [Demo.a; Demo.b; Demo.c] 1024))%nat /\
   (forall f, f ∈ bucket_of Demo.env [Demo.a; Demo.b; Demo.c] 1024 ->
              file_bytes Demo.env f = Ok "image")) /\
  exists dups d,
    dup_results_of tr = [dups] /\
    List.filter (touches [Demo.a; Demo.b]) dups = [d] /\
    dup_members d ≡ₚ [Demo.a; Demo.b].
Proof.
  intros tr.
  assert (Hls : result (iter_files Demo.env Demo.base false Demo.start)
                = Ok [Demo.a; Demo.b; Demo.c]) by reflexivity.
  assert (Hnd : NoDup [Demo.a; Demo.b; Demo.c])
    by (apply (bool_decide_unpack _); vm_compute; exact I).
  assert (Hrun : forall k, Demo.never k = false) by (intros; reflexivity).
  assert (Hok : mtime_ok Demo.env [Demo.a; Demo.b; Demo.c])
    by (intros f _; eexists; reflexivity).
  assert (Hlen : (2 <= length (bucket_of Demo.env [Demo.a; Demo.b; Demo.c] 1024))%nat)
    by (vm_compute; lia).
  assert (Hsame : forall f, f ∈ bucket_of Demo.env [Demo.a; Demo.b; Demo.c] 1024 ->
                            file_bytes Demo.env f = Ok "image").
  { intros f Hf. change (f ∈ [Demo.a; Demo.b]) in Hf.
    apply elem_of_cons in Hf as [->|Hf]; [reflexivity|].
    apply list_elem_of_singleton in Hf. subst f. reflexivity. }
  split; [by repeat split|].
  destruct (duplicate_groups_correct Demo.env Demo.never Demo.base false false true
              10%Q Demo.start [Demo.a; Demo.b; Demo.c] Hls Hnd) as [_ Hone].
  destruct (Hone Hrun Hok 1024%Z "image" Hlen Hsame)
    as (dups & d & Hres & Hfilter & Hperm & _).
  exists dups, d. split; [exact Hres|]. split; [exact Hfilter|exact Hperm].
Defined.

(* ===================================================================== *)
(** * Further properties of the code                                      *)
(* ===================================================================== *)

(* ===================================================================== *)
(** ** The extension table and the classifier                             *)
(* ===================================================================== *)

Lemma ext_table_inner (g : string) (exts : list string) :
  forall (m : gmap string string) (e : string),
    foldl (fun m' e' => <[e' := g]> m') m exts !! e =
    if bool_decide (e ∈ exts) then Some g else m !! e.
Proof.
  induction exts as [|x exts IH]; intros m e; cbn [foldl].
  - by rewrite bool_decide_eq_false_2 by (by intros ?%elem_of_nil).
  - rewrite IH. destruct (bool_decide_reflect (e ∈ exts)) as [Hin|Hnin].
    + rewrite bool_decide_eq_true_2; [reflexivity|]. apply elem_of_cons. by right.
    + destruct (decide (e = x)) as [->|Hne].
      * rewrite lookup_insert_eq.
        rewrite bool_decide_eq_true_2; [reflexivity|]. apply elem_of_cons. by left.
      * rewrite lookup_insert_ne by done.
        rewrite bool_decide_eq_false_2; [reflexivity|].
        intros [?|?]%elem_of_cons; congruence.
Qed.

Lemma ext_table_snoc (t : list (string * list string)) (g : string)
    (exts : list string) (e : string) :
  ext_table (t ++ [(g, exts)]) !! e =
  if bool_decide (e ∈ exts) then Some g else ext_table t !! e.
Proof. unfold ext_table. rewrite foldl_app. simpl. apply ext_table_inner. Qed.

Lemma EXT_TO_GROUP_ext_table : EXT_TO_GROUP = ext_table EXTENSIONS.
Proof. reflexivity. Qed.

(** The table built by the nested loop maps an extension to the category
    of the last entry that lists it (a later assignment overwrites an
    earlier one), and has no other key. *)
Lemma ext_table_lookup_Some (t : list (string * list string)) (e g : string) :
  ext_table t !! e = Some g <->
  exists t1 exts t2,
    t = t1 ++ (g, exts) :: t2 /\ e ∈ exts /\ Forall (fun gs => e ∉ gs.2) t2.
Proof.
  induction t as [|[g' exts'] t IH] using rev_ind.
  - split; [unfold ext_table; cbn [foldl]; by rewrite lookup_empty|].
    intros (t1 & exts & t2 & Heq & _). by destruct t1.
  - rewrite ext_table_snoc.
    destruct (bool_decide_reflect (e ∈ exts')) as [Hin|Hnin].
    + split.
      * intros [= ->]. exists t, exts', []. by repeat split.
      * intros (t1 & exts & t2 & Heq & He & Hlast).
        destruct t2 as [|x t2 _] using rev_ind.
        -- apply app_inj_tail in Heq as [_ Heq]. congruence.
        -- rewrite app_comm_cons, app_assoc in Heq.
           apply app_inj_tail in Heq as [_ <-].
           apply Forall_app in Hlast as [_ Hx].
           rewrite Forall_singleton in Hx. simpl in Hx. exfalso. by apply Hx.
    + rewrite IH. split.
      * intros (t1 & exts & t2 & -> & He & Hlast).
        exists t1, exts, (t2 ++ [(g', exts')]).
        split; [by rewrite <- app_assoc|]. split; [done|].
        apply Forall_app. split; [done|]. by apply Forall_singleton.
      * intros (t1 & exts & t2 & Heq & He & Hlast).
        destruct t2 as [|x t2 _] using rev_ind.
        -- apply app_inj_tail in Heq as [_ Heq].
           assert (exts' = exts) as -> by congruence. exfalso. by apply Hnin.
        -- rewrite app_comm_cons, app_assoc in Heq.
           apply app_inj_tail in Heq as [-> <-].
           apply Forall_app in Hlast as [Hlast _].
           by exists t1, exts, t2.
Qed.

(** X1. The nested loop that builds the extension table gives every
    extension the category of the last entry listing it; in the table of
    the program no extension is listed twice, so [EXT_TO_GROUP] maps an
    extension to a category exactly when [EXTENSIONS] lists it under that
    category. *)
Theorem ext_table_last_entry_wins :
  (forall (t : list (string * list string)) (e g : string),
      ext_table t !! e = Some g <->
      exists t1 exts t2,
        t = t1 ++ (g, exts) :: t2 /\ e ∈ exts /\ Forall (fun gs => e ∉ gs.2) t2) /\
  NoDup (concat EXTENSIONS.*2) /\
  (forall e g,
      EXT_TO_GROUP !! e = Some g <->
      exists exts, (g, exts) ∈ EXTENSIONS /\ e ∈ exts).
Proof.
  split; [apply ext_table_lookup_Some|].
  assert (Hnd : NoDup (concat EXTENSIONS.*2)).
  { apply (bool_decide_unpack _). vm_compute. exact I. }
  split; [exact Hnd|].
  intros e g. rewrite EXT_TO_GROUP_ext_table, ext_table_lookup_Some. split.
  - intros (t1 & exts & t2 & Heq & He & _). exists exts. split; [|done].
    rewrite Heq. apply elem_of_app. right. apply elem_of_cons. by left.
  - intros (exts & Hin & He).
    apply list_elem_of_split in Hin as (t1 & t2 & Heq).
    exists t1, exts, t2. split; [done|]. split; [done|].
    rewrite Heq in Hnd. rewrite fmap_app, fmap_cons, concat_app, concat_cons in Hnd.
    apply NoDup_app in Hnd as (_ & _ & Hnd).
    apply NoDup_app in Hnd as (_ & Hdisj & _).
    apply Forall_forall. intros [g' exts'] Hin' He'. simpl in He'.
    apply (Hdisj e); [done|].
    apply list_elem_of_In, in_concat. exists exts'.
    split; [|by apply list_elem_of_In].
    apply list_elem_of_In, list_elem_of_fmap. by exists (g', exts').
Qed.

Lemma mime_loop_group mime rules g :
  mime_loop mime rules = Some g -> g ∈ rules.*2.
Proof.
  induction rules as [|[key group] rest IH]; simpl; [discriminate|].
  destruct (Str.startswith mime key).
  - intros [= ->]. apply elem_of_cons. by left.
  - intros H. apply elem_of_cons. right. by apply IH.
Qed.

Lemma EXT_TO_GROUP_group e g : EXT_TO_GROUP !! e = Some g -> g ∈ DEFAULT_FOLDERS.
Proof.
  rewrite EXT_TO_GROUP_ext_table, ext_table_lookup_Some.
  intros (t1 & exts & t2 & Heq & _).
  assert (Hall : Forall (fun g0 => g0 ∈ DEFAULT_FOLDERS) EXTENSIONS.*1).
  { apply (bool_decide_unpack _). vm_compute. exact I. }
  eapply Forall_forall in Hall; [exact Hall|].
  rewrite Heq, fmap_app, fmap_cons. apply elem_of_app. right.
  apply elem_of_cons. by left.
Qed.

Lemma Others_default : "Others" ∈ DEFAULT_FOLDERS.
Proof. apply (bool_decide_unpack _). vm_compute. exact I. Qed.

Lemma detect_group_in_defaults env path g :
  detect_group env path = Some g -> g ∈ DEFAULT_FOLDERS.
Proof.
  unfold detect_group. destruct (is_dir env path); [discriminate|].
  destruct (EXT_TO_GROUP !! lower env (suffix path)) as [g0|] eqn:Hext.
  { intros [= <-]. by eapply EXT_TO_GROUP_group. }
  destruct (guess_type env (str path)) as [mime|];
    [|intros [= <-]; apply Others_default].
  destruct (Str.nonempty mime); [|intros [= <-]; apply Others_default].
  destruct (mime_loop mime MIME_MAP) as [g1|] eqn:Hm.
  - intros [= <-]. apply mime_loop_group in Hm.
    assert (Hall : Forall (fun g0 => g0 ∈ DEFAULT_FOLDERS) MIME_MAP.*2).
    { apply (bool_decide_unpack _). vm_compute. exact I. }
    eapply Forall_forall in Hall; [exact Hall|exact Hm].
  - destruct (String.eqb mime "application/pdf"); intros [= <-];
      [|apply Others_default].
    apply (bool_decide_unpack _). vm_compute. exact I.
Qed.

(** X2. [detect_group] returns [None] exactly for a directory, and any
    category it returns is one of the ten default folders, so the folder
    a file is sorted into is one of those that [ensure_dirs] creates. *)
Theorem detect_group_range (env : Env) (path : Path) :
  (detect_group env path = None <-> is_dir env path = true) /\
  (forall g, detect_group env path = Some g -> g ∈ DEFAULT_FOLDERS) /\
  (forall groups_selected g,
      effective_group env groups_selected path = Some g -> g ∈ DEFAULT_FOLDERS).
Proof.
  split; [|split].
  - split.
    + intros Hnone. destruct (is_dir env path) eqn:Hdir; [reflexivity|].
      pose proof (detect_group_refines env path Hdir). congruence.
    + intros Hdir. unfold detect_group. by rewrite Hdir.
  - apply detect_group_in_defaults.
  - intros groups_selected g. unfold effective_group.
    destruct (_ && _); [intros [= <-]; apply Others_default|].
    apply detect_group_in_defaults.
Qed.

(* ===================================================================== *)
(** ** Names, stems and suffixes                                          *)
(* ===================================================================== *)

Lemma string_app_assoc (a b c : string) : (a +:+ b) +:+ c = a +:+ (b +:+ c).
Proof.
  induction a as [|x a IH]; [reflexivity|].
  change (String x ((a +:+ b) +:+ c) = String x (a +:+ (b +:+ c))). by rewrite IH.
Qed.

Lemma string_app_cons (x : ascii) (a b : string) :
  String x a +:+ b = String x (a +:+ b).
Proof. reflexivity. Qed.

Lemma string_app_nil_l (a : string) : "" +:+ a = a.
Proof. reflexivity. Qed.

Lemma rfind_Some c s :
  forall i, Str.rfind c s = Some i ->
    exists pre post,
      s = pre +:+ String c post /\ String.length pre = i /\ Str.rfind c post = None.
Proof.
  induction s as [|a s IH]; intros i; simpl; [discriminate|].
  destruct (Str.rfind c s) as [j|] eqn:Hr.
  - intros [= <-]. destruct (IH j eq_refl) as (pre & post & -> & Hlen & Hnone).
    exists (String a pre), post. rewrite string_app_cons. simpl. by rewrite Hlen.
  - destruct (Ascii.eqb a c) eqn:Hac; [|discriminate]. intros [= <-].
    apply Ascii.eqb_eq in Hac as ->. by exists "", s.
Qed.

Lemma rfind_app c pre post :
  Str.rfind c post = None ->
  Str.rfind c (pre +:+ String c post) = Some (String.length pre).
Proof.
  intros Hnone. induction pre as [|a pre IH].
  - rewrite string_app_nil_l. simpl. by rewrite Hnone, Ascii.eqb_refl.
  - rewrite string_app_cons. simpl. by rewrite IH.
Qed.

Lemma substring_app_l pre x :
  String.substring 0 (String.length pre) (pre +:+ x) = pre.
Proof.
  induction pre as [|a pre IH].
  - rewrite string_app_nil_l. by destruct x.
  - rewrite string_app_cons. simpl. by rewrite IH.
Qed.

Lemma substring_all x : String.substring 0 (String.length x) x = x.
Proof. induction x as [|a x IH]; [reflexivity|]. simpl. by rewrite IH. Qed.

Lemma substring_app_r pre x :
  String.substring (String.length pre) (String.length x) (pre +:+ x) = x.
Proof.
  induction pre as [|a pre IH].
  - rewrite string_app_nil_l. apply substring_all.
  - rewrite string_app_cons. simpl. exact IH.
Qed.

(** A name written [pre ++ "." ++ post], with [pre] and [post] not empty
    and no dot in [post], has stem [pre] and suffix ["." ++ post]. *)
Lemma suffix_index_app pre post :
  pre <> "" -> post <> "" -> Str.rfind "." post = None ->
  suffix_index (pre +:+ String "." post) = Some (String.length pre).
Proof.
  intros Hpre Hpost Hnone. unfold suffix_index. rewrite rfind_app by done.
  rewrite string_length_app. simpl.
  assert (H1 : (0 <? String.length pre)%nat = true).
  { apply Nat.ltb_lt. destruct pre; [done|simpl; lia]. }
  assert (H2 : (String.length pre <? String.length pre + S (String.length post) - 1)%nat
               = true).
  { apply Nat.ltb_lt. destruct post; [done|simpl; lia]. }
  by rewrite H1, H2.
Qed.

Lemma suffix_index_Some nm i :
  suffix_index nm = Some i ->
  exists pre post,
    nm = pre +:+ String "." post /\ String.length pre = i /\
    pre <> "" /\ post <> "" /\ Str.rfind "." post = None.
Proof.
  unfold suffix_index. destruct (Str.rfind "." nm) as [j|] eqn:Hr; [|discriminate].
  destruct (_ && _) eqn:Hc; [|discriminate]. intros [= <-].
  apply andb_true_iff in Hc as [H1 H2].
  apply Nat.ltb_lt in H1. apply Nat.ltb_lt in H2.
  destruct (rfind_Some _ _ _ Hr) as (pre & post & -> & Hlen & Hnone).
  exists pre, post. rewrite string_length_app in H2. simpl in H2.
  repeat split; try done.
  - intros ->. simpl in Hlen. lia.
  - intros ->. simpl in H2. lia.
Qed.

Lemma name_split (p : Path) pre post :
  name p = pre +:+ String "." post ->
  pre <> "" -> post <> "" -> Str.rfind "." post = None ->
  stem p = pre /\ suffix p = String "." post.
Proof.
  intros Hname Hpre Hpost Hnone. unfold stem, suffix.
  rewrite Hname, suffix_index_app by done. split.
  - apply substring_app_l.
  - rewrite string_length_app.
    replace (String.length pre + String.length (String "." post) - String.length pre)
      with (String.length (String "." post)) by lia.
    apply substring_app_r.
Qed.

(** The stem and the suffix of a path put together give its name. *)
Lemma stem_suffix (p : Path) : stem p +:+ suffix p = name p.
Proof.
  destruct (suffix_index (name p)) as [i|] eqn:Hi.
  - destruct (suffix_index_Some _ _ Hi) as (pre & post & Hname & _ & Hpre & Hpost & Hn).
    destruct (name_split p pre post Hname Hpre Hpost Hn) as [-> ->]. by rewrite Hname.
  - unfold stem, suffix. rewrite Hi. clear Hi.
    induction (name p) as [|a s IH]; [reflexivity|].
    rewrite string_app_cons. by rewrite IH.
Qed.

(** A candidate of [unique_dest] keeps a non-empty suffix, and its stem is
    the original stem followed by the counter in parentheses. *)
Lemma candidate_suffix dest i :
  suffix dest <> "" ->
  stem (candidate dest i) = stem dest +:+ " (" +:+ pretty i +:+ ")" /\
  suffix (candidate dest i) = suffix dest.
Proof.
  intros Hs.
  destruct (suffix_index (name dest)) as [j|] eqn:Hj;
    [|unfold suffix in Hs; by rewrite Hj in Hs].
  destruct (suffix_index_Some _ _ Hj) as (pre & post & Hname & _ & Hpre & Hpost & Hn).
  destruct (name_split dest pre post Hname Hpre Hpost Hn) as [Hstem Hsuf].
  rewrite Hstem, Hsuf.
  apply (name_split (candidate dest i) (pre +:+ " (" +:+ pretty i +:+ ")") post);
    try done.
  - unfold candidate. rewrite name_div, Hstem, Hsuf.
    by rewrite !string_app_assoc.
  - destruct pre; [done|]. by rewrite string_app_cons.
Qed.

(** X3. The path [unique_dest] returns lies in the directory of the path
    asked for, differs from it exactly when that path exists, and keeps a
    non-empty suffix (the file extension), so a file placed under a
    collision-free name is still classified by the same extension. *)
Theorem unique_dest_keeps_place (fs0 : gset Path) (dest : Path) :
  parent (unique_dest fs0 dest) = parent dest /\
  (unique_dest fs0 dest = dest <-> dest ∉ fs0) /\
  (suffix dest <> "" -> suffix (unique_dest fs0 dest) = suffix dest).
Proof.
  split; [apply parent_unique_dest|]. split.
  - split; [|apply unique_dest_unchanged].
    intros Heq. rewrite <- Heq. apply unique_dest_not_exists.
  - intros Hs.
    pose proof (unique_dest_fuel_enough fs0 dest) as E. unfold unique_dest_fuel in E.
    destruct (negb (path_exists fs0 dest)); [by injection E as <-|].
    apply unique_dest_loop_candidate in E as [n ->]. by apply candidate_suffix.
Qed.

Lemma unique_dest_keeps_place_witness :
  let fs0 : gset Path := {[ ["d"; "Photos"; "a.tar.gz"] ]} in
  let dest : Path := ["d"; "Photos"; "a.tar.gz"] in
  suffix dest <> "" /\
  unique_dest fs0 dest = ["d"; "Photos"; "a.tar (1).gz"] /\
  suffix (unique_dest fs0 dest) = suffix dest.
Proof.
  intros fs0 dest.
  assert (Hs : suffix dest <> "") by (vm_compute; discriminate).
  split; [exact Hs|]. split; [vm_compute; reflexivity|].
  destruct (unique_dest_keeps_place fs0 dest) as (_ & _ & H). exact (H Hs).
Defined.

(* ===================================================================== *)
(** ** Placing a file                                                     *)
(* ===================================================================== *)

Lemma elem_of_ancestors (p q : Path) :
  p ∈ ancestors q <-> p `prefix_of` q /\ p <> [].
Proof.
  unfold ancestors. rewrite list_elem_of_fmap. split.
  - intros (n & -> & Hn). apply elem_of_seq in Hn. split; [apply prefix_take|].
    intros Hnil. apply (f_equal length) in Hnil. rewrite length_take in Hnil.
    simpl in Hnil. lia.
  - intros [[k ->] Hne]. exists (length p). split.
    + by rewrite take_app_length.
    + apply elem_of_seq. rewrite length_app. destruct p; [done|]. simpl. lia.
Qed.

Lemma parent_prefix (q : Path) : parent q `prefix_of` q.
Proof.
  unfold parent. rewrite removelast_firstn_len. apply prefix_take.
Qed.

Lemma ancestors_parent (p q : Path) : p ∈ ancestors (parent q) -> p ∈ ancestors q.
Proof.
  rewrite !elem_of_ancestors. intros [Hp Hne]. split; [|done].
  etrans; [exact Hp|apply parent_prefix].
Qed.

Lemma mkdir_partial_ancestors (env : Env) (q p : Path) :
  p ∈ take (mkdir_partial env q) (ancestors (parent q)) -> p ∈ ancestors q.
Proof.
  intros Hp. apply ancestors_parent.
  apply elem_of_take in Hp as (i & Hi & _).
  by eapply list_elem_of_lookup_2.
Qed.

(** X4. [safe_copy] and [safe_move] never write over an existing path
    and remove nothing but a moved source. The destination they return
    did not exist when they were called, lies in the directory asked for
    and exists afterwards; a copy removes nothing, a move removes the
    source and nothing else. When they raise, no copy or move is
    recorded and nothing that existed has been removed, the source
    included; [shutil.copy2] and [shutil.move] may by then have written
    their destination, and [mkdir] some of the parents. In every case a
    path that exists afterwards and did not before is a parent folder of
    the destination or the free path chosen by [unique_dest]. *)
Theorem safe_placement_never_overwrites (env : Env) (src dst : Path) (s : State) :
  let fs1 := fs s ∪ list_to_set (ancestors (parent dst)) in
  (let r := safe_copy env src dst s in
   polls (final r) = polls s /\
   fs s ⊆ fs (final r) /\
   (forall p, p ∈ fs (final r) -> p ∉ fs s ->
      p ∈ ancestors (parent dst) \/
      (p = unique_dest fs1 dst /\ parent p = parent dst /\ p ∉ fs1)) /\
   match result r with
   | Ok d =>
       (d ∉ fs s) /\ (d ∈ fs (final r)) /\ parent d = parent dst /\
       trace r = [EvCopy src d] /\ copy_error env src d = None
   | Raise e =>
       trace r = [] /\
       (mkdir_error env (parent dst) = Some e \/ exists d, copy_error env src d = Some e)
   end) /\
  (let r := safe_move env src dst s in
   polls (final r) = polls s /\
   (forall p, p ∈ fs (final r) -> p ∉ fs s ->
      p ∈ ancestors (parent dst) \/
      (p = unique_dest fs1 dst /\ parent p = parent dst /\ p ∉ fs1)) /\
   match result r with
   | Ok d =>
       (d ∉ fs s) /\ (d ∈ fs (final r)) /\ parent d = parent dst /\
       trace r = [EvMove src d] /\ move_error env src d = None /\
       (src ∈ fs s -> src ∉ fs (final r)) /\
       (forall p, p ∈ fs s -> p <> src -> p ∈ fs (final r))
   | Raise e =>
       trace r = [] /\ fs s ⊆ fs (final r) /\
       (mkdir_error env (parent dst) = Some e \/ exists d, move_error env src d = Some e)
   end).
Proof.
  intros fs1.
  pose proof (unique_dest_not_exists fs1 dst) as Hfree.
  pose proof (parent_unique_dest fs1 dst) as Hpar.
  assert (Hnew : forall p, p ∈ fs1 ∪ {[unique_dest fs1 dst]} -> p ∉ fs s ->
             p ∈ ancestors (parent dst) \/
             (p = unique_dest fs1 dst /\ parent p = parent dst /\ p ∉ fs1)).
  { intros p Hp Hs. apply elem_of_union in Hp as [Hp|Hp].
    - left. subst fs1. apply elem_of_union in Hp as [Hp|Hp]; [done|].
      by apply elem_of_list_to_set in Hp.
    - apply elem_of_singleton in Hp as ->. by right. }
  assert (Hmk : forall p,
             p ∈ fs s ∪ list_to_set (take (mkdir_partial env (parent dst))
                                          (ancestors (parent (parent dst)))) ->
             p ∉ fs s -> p ∈ ancestors (parent dst)).
  { intros p Hp Hs. apply elem_of_union in Hp as [Hp|Hp]; [done|].
    apply elem_of_list_to_set in Hp. by apply mkdir_partial_ancestors in Hp. }
  split; cbv zeta.
  - rewrite safe_copy_run.
    destruct (mkdir_error env (parent dst)) as [e|] eqn:Emk.
    { cbn [trace final result fs polls].
      split; [done|]. split; [set_solver|]. split; [|by eauto].
      intros p Hp Hs. left. by apply Hmk. }
    cbv zeta. fold fs1.
    destruct (copy_error env src (unique_dest fs1 dst)) as [e|] eqn:Hcp;
      cbn [trace final result fs polls].
    + split; [done|]. split; [|split].
      * destruct (copy_partial env src _); subst fs1; set_solver.
      * intros p Hp Hs. apply Hnew; [|done].
        destruct (copy_partial env src _); set_solver.
      * split; [done|]. right. eauto.
    + split; [done|]. split; [subst fs1; set_solver|]. split; [exact Hnew|].
      split; [subst fs1; set_solver|]. split; [set_solver|]. by repeat split.
  - rewrite safe_move_run.
    destruct (mkdir_error env (parent dst)) as [e|] eqn:Emk.
    { cbn [trace final result fs polls].
      split; [done|]. split; [|split; [done|split; [set_solver|by eauto]]].
      intros p Hp Hs. left. by apply Hmk. }
    cbv zeta. fold fs1.
    destruct (move_error env src (unique_dest fs1 dst)) as [e|] eqn:Hmv;
      cbn [trace final result fs polls].
    + split; [done|]. split; [|split; [done|split]].
      * intros p Hp Hs. apply Hnew; [|done].
        destruct (move_partial env src _); set_solver.
      * destruct (move_partial env src _); subst fs1; set_solver.
      * right. eauto.
    + split; [done|]. split.
      { intros p Hp Hs. apply Hnew; [|done]. set_solver. }
      split; [subst fs1; set_solver|]. split; [set_solver|].
      split; [done|]. split; [done|]. split; [done|]. split.
      * intros Hsrc Hin. apply elem_of_union in Hin as [Hin|Hin]; [set_solver|].
        apply elem_of_singleton in Hin. apply Hfree. rewrite <- Hin.
        subst fs1. set_solver.
      * intros p Hp Hne. subst fs1. set_solver.
Qed.

(* ===================================================================== *)
(** ** A sort that copies                                                 *)
(* ===================================================================== *)

Lemma effective_group_in_defaults env groups_selected f g :
  effective_group env groups_selected f = Some g -> g ∈ DEFAULT_FOLDERS.
Proof.
  unfold effective_group.
  destruct (_ && _); [intros [= <-]; apply Others_default|].
  apply detect_group_in_defaults.
Qed.

(** The folder loop of [ensure_dirs], whatever [mkdir] does. *)
Lemma mkdir_all_any env base (groups : list string) s :
  let r := foldr (fun g k => mkdir env (base / g)%path;; k) (mret tt) groups s in
  trace r = [] /\ polls (final r) = polls s /\ fs s ⊆ fs (final r) /\
  (result r = Ok tt ->
   forall g, g ∈ groups ->
     mkdir_error env (base / g)%path = None /\ (base / g)%path ∈ fs (final r)) /\
  (forall e, result r = Raise e ->
     exists g, g ∈ groups /\ mkdir_error env (base / g)%path = Some e).
Proof.
  revert s. induction groups as [|g groups IH]; intros s; cbv zeta.
  - cbn [foldr]. split; [done|]. split; [done|]. split; [done|]. split; [|done].
    intros _ g' Hg. by apply elem_of_nil in Hg.
  - change (foldr _ _ (g :: groups)) with
      (mkdir env (base / g)%path;;
       foldr (fun g k => mkdir env (base / g)%path;; k) (mret tt) groups).
    rewrite run_bind.
    destruct (mkdir_error env (base / g)%path) as [e|] eqn:Hmk.
    + assert (Hm : mkdir env (base / g)%path s =
                   {| trace := []; final := s; result := Raise e |}).
      { unfold mkdir. by rewrite Hmk. }
      rewrite Hm. cbn [trace final result app].
      split; [done|]. split; [done|]. split; [done|]. split; [done|].
      intros e' [= <-]. exists g. split; [apply elem_of_cons; by left|done].
    + assert (Hm : mkdir env (base / g)%path s =
                   {| trace := [];
                      final := {| fs := fs s ∪ {[(base / g)%path]}; polls := polls s |};
                      result := Ok tt |}).
      { unfold mkdir. by rewrite Hmk. }
      rewrite Hm. cbn [trace final result app].
      set (s1 := {| fs := fs s ∪ {[(base / g)%path]}; polls := polls s |}).
      destruct (IH s1) as (Ht & Hp & Hfs & Hok & Herr). cbv zeta in Ht, Hp, Hfs, Hok, Herr.
      rewrite Ht, Hp. split; [done|]. split; [done|].
      split; [subst s1; cbn [fs] in Hfs; set_solver|]. split.
      * intros Hr g' [->|Hg']%elem_of_cons.
        -- split; [done|]. apply Hfs. subst s1. cbn [fs]. set_solver.
        -- by apply Hok.
      * intros e He. destruct (Herr e He) as (g' & Hg' & Hmk').
        exists g'. split; [apply elem_of_cons; by right|done].
Qed.

Lemma ensure_dirs_any env base s :
  let r := ensure_dirs env base DEFAULT_FOLDERS s in
  trace r = [] /\ polls (final r) = polls s /\ fs s ⊆ fs (final r) /\
  (result r = Ok tt ->
   forall g, g ∈ DEFAULT_FOLDERS ->
     mkdir_error env (base / g)%path = None /\ (base / g)%path ∈ fs (final r)) /\
  (forall e, result r = Raise e ->
     exists g, g ∈ DEFAULT_FOLDERS /\ mkdir_error env (base / g)%path = Some e).
Proof. apply (mkdir_all_any env base DEFAULT_FOLDERS). Qed.

Section SortCopy.

Variable env : Env.
Variable stop_event : nat -> bool.
Variable base : Path.
Variable groups_selected : list string.
Variable exif_by_date : bool.

(** What one copy of the sort loop leaves behind. *)
Let copied (s s' : State) (f : Path) (pd : Path * Path) : Prop :=
  pd.1 = f /\ (pd.2 ∉ fs s) /\ (pd.2 ∈ fs s') /\
  copy_error env f pd.2 = None /\
  exists g, g ∈ DEFAULT_FOLDERS /\ (base / g)%path `prefix_of` parent pd.2.

Lemma sort_item_copy f s :
  let r := try_except
             (sort_item env base false groups_selected exif_by_date f)
             (fun e => log_cb ("Error " +:+ name f +:+ ": " +:+ e)) s in
  fs s ⊆ fs (final r) /\
  (forall a b, EvMove a b ∉ trace r) /\
  (placed_of (trace r) = [] \/
   exists d, placed_of (trace r) = [(f, d)] /\ copied s (final r) f (f, d)).
Proof.
  assert (Hlog : forall msg a b, EvMove a b ∉ [EvLog msg]).
  { intros msg a b Hin. by apply list_elem_of_singleton in Hin. }
  cbv zeta. rewrite run_try_except. unfold sort_item.
  destruct (effective_group env groups_selected f) as [group|] eqn:Hg;
    [|cbn [raise trace final result log_cb emit app]; split; [done|split; [apply Hlog|by left]]].
  apply effective_group_in_defaults in Hg.
  cbv zeta.
  set (target_dir :=
         if String.eqb group "Photos" && exif_by_date && PIL_AVAILABLE env
         then match get_exif_date env f with
              | Some exif_dt =>
                  (base / group / pretty (year exif_dt) / Str.pad2 (month exif_dt))%path
              | None => (base / group)%path
              end
         else (base / group)%path).
  assert (Hpre : (base / group)%path `prefix_of` target_dir).
  { subst target_dir. destruct (_ && _); [|done].
    destruct (get_exif_date env f) as [dt|]; [|done].
    unfold div. by do 2 apply prefix_app_r. }
  clearbody target_dir.
  cbv iota. rewrite run_bind, safe_copy_run, parent_div.
  destruct (mkdir_error env target_dir) as [e|];
    [cbn [raise trace final result log_cb emit app fs];
     split; [set_solver|split; [apply Hlog|by left]]|].
  cbv zeta.
  set (fs1 := fs s ∪ list_to_set (ancestors target_dir)).
  pose proof (unique_dest_not_exists fs1 (target_dir / name f)%path) as Hfree.
  pose proof (parent_unique_dest fs1 (target_dir / name f)%path) as Hpar.
  rewrite parent_div in Hpar.
  destruct (copy_error env f (unique_dest fs1 _)) as [e|] eqn:Hcp;
    cbn [raise trace final result log_cb emit app fs].
  - split; [destruct (copy_partial env f _); set_solver|].
    split; [apply Hlog|by left].
  - split; [set_solver|]. split.
    { intros a b [Hin|Hin%list_elem_of_singleton]%elem_of_cons; discriminate. }
    right. eexists. split; [reflexivity|].
    unfold copied. cbn [fst snd fs]. split; [done|]. split; [set_solver|].
    split; [set_solver|]. split; [done|]. exists group. by rewrite Hpar.
Qed.

Lemma sort_loop_copy total files :
  forall idx s,
    let r := sort_loop env stop_event base false groups_selected exif_by_date
                       total idx files s in
    fs s ⊆ fs (final r) /\
    (forall a b, EvMove a b ∉ trace r) /\
    NoDup (placed_of (trace r)).*2 /\
    (placed_of (trace r)).*1 `sublist_of` files /\
    Forall (fun pd => copied s (final r) pd.1 pd) (placed_of (trace r)).
Proof.
  induction files as [|f rest IH]; intros idx s; cbv zeta.
  - cbn. split; [done|]. split; [intros a b Hin; by apply elem_of_nil in Hin|].
    split; [constructor|]. split; [done|constructor].
  - destruct (stop_event (polls s)) eqn:Hstop.
    + rewrite sort_loop_stopped by done. cbn.
      split; [done|].
      split; [intros a b Hin; by apply list_elem_of_singleton in Hin|].
      split; [constructor|]. split; [apply sublist_nil_l|constructor].
    + rewrite sort_loop_step by done. cbv zeta. cbn [trace final result].
      set (s1 := {| fs := fs s; polls := S (polls s) |}).
      destruct (sort_item_copy f s1) as (Hfs1 & Hnm1 & Hbody).
      cbv zeta in Hfs1, Hnm1, Hbody.
      set (s2 := final (try_except _ _ s1)) in *.
      destruct (IH (S idx) s2) as (Hfs2 & Hnm2 & Hnd & Hsub & Hall).
      cbv zeta in Hfs2, Hnm2, Hnd, Hsub, Hall.
      set (r := sort_loop _ _ _ _ _ _ _ _ _ s2) in *.
      assert (Hweak : Forall (fun pd => copied s (final r) pd.1 pd) (placed_of (trace r))).
      { eapply Forall_impl; [exact Hall|].
        intros pd (H1 & H2 & H3 & H4 & H5). split; [done|].
        split; [|done]. intros Hin. apply H2, Hfs1. exact Hin. }
      rewrite placed_of_app.
      change (placed_of (EvProgress (py_div idx total) :: trace r))
        with (placed_of (trace r)).
      split; [subst s1; cbn [fs] in Hfs1; set_solver|].
      split.
      { intros a b [Hin|[Hin|Hin]%elem_of_cons]%elem_of_app;
          [by eapply Hnm1|discriminate|by eapply Hnm2]. }
      destruct Hbody as [->|(d & -> & Hd)].
      * cbn [app]. split; [done|]. split; [by apply sublist_cons|done].
      * cbn [app fmap list_fmap fst snd]. 
        destruct Hd as (_ & Hd1 & Hd2 & Hd3 & Hd4). cbn [fst snd] in *.
        split.
        { apply NoDup_cons. split; [|done].
          intros Hin. apply list_elem_of_fmap in Hin as (pd & -> & Hpd).
          eapply Forall_forall in Hall; [|exact Hpd].
          destruct Hall as (_ & Hnew & _). by apply Hnew. }
        split; [by apply sublist_skip|].
        constructor; [|done].
        split; [done|]. cbn [fst snd]. split; [done|]. split; [by apply Hfs2|done].
Qed.

End SortCopy.

(** [iter_files] yields only paths for which [is_file] holds. *)
Lemma iter_files_is_file env base include_sub s files :
  result (iter_files env base include_sub s) = Ok files ->
  Forall (fun p => is_file env p = true) files.
Proof.
  unfold iter_files. destruct include_sub; rewrite run_bind.
  - destruct (rglob env base) as [ps|e]; [|discriminate].
    cbn. intros [= <-]. apply Forall_forall. intros p Hp.
    apply list_elem_of_In, filter_In in Hp. tauto.
  - destruct (iterdir env base) as [ps|e]; [|discriminate].
    cbn. intros [= <-]. apply Forall_forall. intros p Hp.
    apply list_elem_of_In, filter_In in Hp. tauto.
Qed.

Section SortSetup.

Variable env : Env.
Variable stop_event : nat -> bool.
Variable base : Path.
Variable move_mode include_sub : bool.
Variable groups_selected : list string.
Variable exif_by_date : bool.

(** A non-empty batch, whatever [ensure_dirs] does: when it raises, the
    exception leaves [sort_worker] after the two opening log lines. *)
Lemma sort_worker_cases files s :
  result (iter_files env base include_sub s) = Ok files ->
  files <> [] ->
  let r0 := ensure_dirs env base DEFAULT_FOLDERS s in
  let r := sort_loop env stop_event base move_mode groups_selected
                     exif_by_date (length files) 1 files (final r0) in
  sort_worker env stop_event base move_mode include_sub groups_selected
              exif_by_date s =
  match result r0 with
  | Ok _ =>
      {| trace := EvLog ("Scanning " +:+ str base +:+ "...")
                  :: EvLog ("Found " +:+ pretty (length files) +:+ " files. Processing...")
                  :: trace r ++ [EvProgress 1; EvLog "Operation complete!"];
         final := final r;
         result := Ok tt |}
  | Raise e =>
      {| trace := [EvLog ("Scanning " +:+ str base +:+ "...");
                   EvLog ("Found " +:+ pretty (length files) +:+ " files. Processing...")];
         final := final r0;
         result := Raise e |}
  end.
Proof.
  intros Hls Hne. destruct (iter_files_run env base include_sub s) as [Ht Hf].
  destruct (ensure_dirs_any env base s) as (Het & _). cbv zeta in Het.
  assert (Hlen : (length files =? 0)%nat = false).
  { apply Nat.eqb_neq. by destruct files. }
  cbv zeta.
  unfold sort_worker, mbind, M_bind, bind, attempt, log_cb, progress_cb, emit.
  cbn [trace final result app].
  rewrite Hls, Ht, Hf, Hlen. cbn [trace final result app].
  destruct (result (ensure_dirs env base DEFAULT_FOLDERS s)) as [[]|e] eqn:Hr0.
  - rewrite Het. cbn [trace final result app].
    rewrite sort_loop_result. cbn [trace final result app]. reflexivity.
  - rewrite Het. reflexivity.
Qed.

End SortSetup.

(** X5. A sort that copies never overwrites and never removes: the file
    system only grows, every copy goes to a path that did not exist when
    the run started, no two copies go to the same path, and every copy
    lands under one of the ten default folders of the base directory.
    The copied files are listed files, taken in listing order. *)
Theorem sort_copy_never_overwrites (env : Env) (stop_event : nat -> bool)
    (base : Path) (include_sub : bool) (groups_selected : list string)
    (exif_by_date : bool) (s : State) :
  let r := sort_worker env stop_event base false include_sub groups_selected
                       exif_by_date s in
  fs s ⊆ fs (final r) /\
  NoDup (placed_of (trace r)).*2 /\
  (forall files, result (iter_files env base include_sub s) = Ok files ->
     (placed_of (trace r)).*1 `sublist_of` files) /\
  (forall src d, (src, d) ∈ placed_of (trace r) ->
     EvCopy src d ∈ trace r /\
     is_file env src = true /\ copy_error env src d = None /\
     (d ∉ fs s) /\ (d ∈ fs (final r)) /\
     exists g, g ∈ DEFAULT_FOLDERS /\ (base / g)%path `prefix_of` parent d).
Proof.
  cbv zeta.
  destruct (iter_files_run env base include_sub s) as [_ Hf].
  destruct (result (iter_files env base include_sub s)) as [files|e] eqn:Hls.
  2:{ rewrite (sort_worker_scan_failed _ _ _ _ _ _ _ _ _ Hls). cbn.
      split; [done|]. split; [constructor|]. split; [done|].
      intros src d Hin. by apply elem_of_nil in Hin. }
  destruct files as [|f0 files].
  { rewrite (sort_worker_empty _ _ _ _ _ _ _ _ Hls). cbn.
    split; [done|]. split; [constructor|]. split; [by intros ? [= <-]|].
    intros src d Hin. by apply elem_of_nil in Hin. }
  rewrite (sort_worker_cases _ _ _ _ _ _ _ _ _ Hls) by done. cbv zeta.
  destruct (ensure_dirs_any env base s) as (_ & _ & Hfs0 & _). cbv zeta in Hfs0.
  set (s0 := final (ensure_dirs env base DEFAULT_FOLDERS s)) in *.
  destruct (result (ensure_dirs env base DEFAULT_FOLDERS s)) as [[]|e].
  2:{ cbn. split; [done|]. split; [constructor|]. split; [intros; apply sublist_nil_l|].
      intros src d Hin. by apply elem_of_nil in Hin. }
  destruct (sort_loop_copy env stop_event base groups_selected exif_by_date
              (length (f0 :: files)) (f0 :: files) 1 s0)
    as (Hfs & Hnm & Hnd & Hsub & Hall).
  cbv zeta in Hfs, Hnm, Hnd, Hsub, Hall.
  set (r := sort_loop _ _ _ _ _ _ _ _ _ s0) in *.
  cbn [trace final result].
  assert (Hpl : placed_of
                  (EvLog ("Scanning " +:+ str base +:+ "...")
                   :: EvLog ("Found " +:+ pretty (length (f0 :: files)) +:+
                             " files. Processing...")
                   :: trace r ++ [EvProgress 1; EvLog "Operation complete!"]) =
                placed_of (trace r)).
  { change (placed_of (EvLog ?a :: EvLog ?b :: ?t)) with (placed_of t).
    rewrite placed_of_app. apply app_nil_r. }
  rewrite Hpl.
  split; [set_solver|]. split; [done|].
  split; [by intros ? [= <-]|].
  intros src d Hin.
  assert (Hsrc : src ∈ f0 :: files).
  { eapply elem_of_sublist; [|exact Hsub]. apply list_elem_of_fmap. by exists (src, d). }
  eapply Forall_forall in Hall; [|exact Hin].
  destruct Hall as (_ & Hnew & Hthere & Hcp & Hg). cbn [fst snd] in *.
  split.
  { assert (Hev : EvCopy src d ∈ trace r \/ EvMove src d ∈ trace r).
    { unfold placed_of in Hin. apply list_elem_of_omap in Hin as (ev & Hev & Heq).
      destruct ev; try discriminate; injection Heq as -> ->; [by left|by right]. }
    destruct Hev as [Hev|Hev]; [|by apply Hnm in Hev].
    do 2 (apply elem_of_cons; right). apply elem_of_app. by left. }
  split.
  { pose proof (iter_files_is_file env base include_sub s _ Hls) as Hfiles.
    eapply Forall_forall in Hfiles; [exact Hfiles|exact Hsrc]. }
  split; [done|]. split; [intros Hd; apply Hnew, Hfs0, Hd|]. split; done.
Qed.

(** X6. When one of the ten default folders cannot be created, a sort of
    a non-empty listing stops there: [ensure_dirs] raises out of
    [sort_worker] after the two opening log lines, so no file is placed,
    the stop event is never polled, the progress callback is never
    called and no log line reports the error. [Worker.run] swallows the
    exception, so the thread ends normally with just those two lines. *)
Theorem sort_stops_when_folders_fail (env : Env) (stop_event : nat -> bool)
    (base : Path) (move_mode include_sub : bool) (groups_selected : list string)
    (exif_by_date : bool) (s : State) (files : list Path) (g e : string) :
  result (iter_files env base include_sub s) = Ok files ->
  files <> [] ->
  g ∈ DEFAULT_FOLDERS ->
  mkdir_error env (base / g)%path = Some e ->
  let sort := sort_worker env stop_event base move_mode include_sub
                          groups_selected exif_by_date in
  let opening :=
    [EvLog ("Scanning " +:+ str base +:+ "...");
     EvLog ("Found " +:+ pretty (length files) +:+ " files. Processing...")] in
  (exists g' e', g' ∈ DEFAULT_FOLDERS /\ mkdir_error env (base / g')%path = Some e' /\
                 result (sort s) = Raise e') /\
  trace (sort s) = opening /\
  polls (final (sort s)) = polls s /\
  fs s ⊆ fs (final (sort s)) /\
  result (Worker_run sort s) = Ok tt /\
  trace (Worker_run sort s) = opening /\
  final (Worker_run sort s) = final (sort s).
Proof.
  intros Hls Hne Hg Hmk sort opening. subst sort opening.
  rewrite (sort_worker_cases _ _ _ _ _ _ _ _ _ Hls Hne). cbv zeta.
  destruct (ensure_dirs_any env base s) as (_ & Hp & Hfs & Hok & Herr).
  cbv zeta in Hp, Hfs, Hok, Herr.
  assert (Hraise : exists e', result (ensure_dirs env base DEFAULT_FOLDERS s) = Raise e').
  { destruct (result (ensure_dirs env base DEFAULT_FOLDERS s)) as [[]|e'] eqn:Hr; [|eauto].
    destruct (Hok eq_refl g Hg) as [Hnone _]. congruence. }
  destruct Hraise as [e' Hr].
  destruct (Herr e' Hr) as (g' & Hg' & Hmk').
  assert (Hrun : Worker_run
                   (sort_worker env stop_event base move_mode include_sub
                                groups_selected exif_by_date) s =
                 {| trace := trace (sort_worker env stop_event base move_mode include_sub
                                                groups_selected exif_by_date s);
                    final := final (sort_worker env stop_event base move_mode include_sub
                                                groups_selected exif_by_date s);
                    result := Ok tt |}).
  { unfold Worker_run. rewrite run_try_except, run_bind.
    rewrite (sort_worker_cases _ _ _ _ _ _ _ _ _ Hls Hne). cbv zeta.
    rewrite Hr. cbn [trace final result mret M_ret ret app]. reflexivity. }
  rewrite Hrun. rewrite (sort_worker_cases _ _ _ _ _ _ _ _ _ Hls Hne). cbv zeta.
  rewrite Hr. cbn [trace final result].
  split; [by exists g', e'|]. done.
Qed.

Lemma sort_stops_when_folders_fail_witness :
  let sort := sort_worker Demo2.env_readonly Demo.never Demo.base false false [] false in
  result (sort Demo.start) = Raise "Permission denied" /\
  trace (Worker_run sort Demo.start) =
  [EvLog "Scanning d..."; EvLog "Found 3 files. Processing..."].
Proof.
  cbv zeta.
  destruct (sort_stops_when_folders_fail Demo2.env_readonly Demo.never Demo.base
              false false [] false Demo.start [Demo.a; Demo.b; Demo.c]
              "Archives" "Permission denied")
    as (_ & _ & _ & _ & _ & Htr & _).
  - reflexivity.
  - discriminate.
  - apply (bool_decide_unpack _). vm_compute. exact I.
  - vm_compute. reflexivity.
  - split; [vm_compute; reflexivity|]. rewrite Htr. vm_compute. reflexivity.
Defined.

(* ===================================================================== *)
(** ** The trace of a sort                                                *)
(* ===================================================================== *)

Section SortTrace.

Variable env : Env.
Variable stop_event : nat -> bool.
Variable base : Path.
Variable move_mode : bool.
Variable groups_selected : list string.
Variable exif_by_date : bool.

Lemma with_progress_cons total idx evs chunks :
  with_progress total idx (evs :: chunks) =
  evs ++ EvProgress (py_div idx total) :: with_progress total (S idx) chunks.
Proof.
  unfold with_progress. cbn [length seq zip_with concat].
  by rewrite <- (assoc_L (++)).
Qed.

(** The loop over [files] when the first [k] polls answer "not set" and
    the next one, if there is one, answers "set". *)
Lemma sort_loop_trace total files :
  forall idx s k,
    k <= length files ->
    (forall j, j < k -> stop_event (polls s + j) = false) ->
    (k < length files -> stop_event (polls s + k) = true) ->
    let r := sort_loop env stop_event base move_mode groups_selected
                       exif_by_date total idx files s in
    polls (final r) = polls s + (if bool_decide (k < length files) then S k else k) /\
    exists chunks,
      Forall2 (item_events move_mode) (take k files) chunks /\
      trace r = with_progress total idx chunks ++
                (if bool_decide (k < length files)
                 then [EvLog "Sorting cancelled."] else []).
Proof.
  induction files as [|f rest IH]; intros idx s k Hk Hrun Hstop; cbv zeta.
  - cbn [length] in *. assert (k = 0) as -> by lia.
    rewrite bool_decide_eq_false_2 by lia. split; [cbn; lia|].
    exists []. split; [constructor|reflexivity].
  - destruct k as [|k].
    + rewrite sort_loop_stopped
        by (rewrite <- (Nat.add_0_r (polls s)); apply Hstop; cbn [length]; lia).
      rewrite bool_decide_eq_true_2 by (cbn [length]; lia).
      cbn [trace final polls]. split; [lia|].
      exists []. split; [constructor|reflexivity].
    + rewrite sort_loop_step by (rewrite <- (Nat.add_0_r (polls s)); apply Hrun; lia).
      cbv zeta. cbn [trace final].
      set (s1 := {| fs := fs s; polls := S (polls s) |}).
      destruct (sort_body_run env base move_mode groups_selected exif_by_date f s1)
        as (_ & Hp & _).
      pose proof (sort_body_cases env base move_mode groups_selected exif_by_date f s1)
        as Hcases.
      set (r1 := try_except _ _ s1) in *.
      destruct (IH (S idx) (final r1) k) as (Hpolls & chunks & Hchunks & Htr).
      * cbn [length] in Hk. lia.
      * intros j Hj. rewrite Hp. cbn [polls s1].
        replace (S (polls s) + j) with (polls s + S j) by lia. apply Hrun. lia.
      * intros Hlt. rewrite Hp. cbn [polls s1].
        replace (S (polls s) + k) with (polls s + S k) by lia. apply Hstop.
        cbn [length]. lia.
      * cbv zeta in Hpolls, Htr.
        rewrite (bool_decide_ext (S k < length (f :: rest)) (k < length rest))
          by (cbn [length]; lia).
        split.
        { rewrite Hpolls, Hp. cbn [polls s1]. destruct (bool_decide _); lia. }
        exists (trace r1 :: chunks). split.
        { cbn [take]. constructor; [exact Hcases|exact Hchunks]. }
        rewrite with_progress_cons, Htr, <- (assoc_L (++)). reflexivity.
Qed.

End SortTrace.

Lemma placed_of_with_progress move_mode total files chunks :
  Forall2 (item_events move_mode) files chunks ->
  forall idx src d,
    (src, d) ∈ placed_of (with_progress total idx chunks) -> src ∈ files.
Proof.
  induction 1 as [|f evs files chunks Hev _ IH]; intros idx src d Hin.
  - by apply elem_of_nil in Hin.
  - rewrite with_progress_cons, placed_of_app in Hin.
    change (placed_of (EvProgress ?q :: ?t)) with (placed_of t) in Hin.
    apply elem_of_app in Hin as [Hin|Hin].
    + apply elem_of_cons. left.
      destruct Hev as [[e ->]|[d' ->]].
      * by apply elem_of_nil in Hin.
      * destruct move_mode; cbn in Hin;
          apply list_elem_of_singleton in Hin; by injection Hin as -> _.
    + apply elem_of_cons. right. by eapply IH.
Qed.

(** X7. The trace of a sort whose default folders can be created, when
    the stop event is first seen set at the poll before file [k] (or is
    never seen set, [k] being the number of files): the two opening
    lines; then for each of the first [k] files, in listing order,
    either its error line or its placement followed by its log line,
    and then its progress call; then the cancellation line if the run
    was cancelled; then the progress call with [1.0] and the completion
    line. The stop event is polled once per file reached, and no file at
    or after position [k] is copied or moved. *)
Theorem sort_trace_shape (env : Env) (stop_event : nat -> bool) (base : Path)
    (move_mode include_sub : bool) (groups_selected : list string)
    (exif_by_date : bool) (s : State) (files : list Path) (k : nat) :
  result (iter_files env base include_sub s) = Ok files ->
  files <> [] ->
  (forall g, g ∈ DEFAULT_FOLDERS -> mkdir_error env (base / g)%path = None) ->
  k <= length files ->
  (forall j, j < k -> stop_event (polls s + j) = false) ->
  (k < length files -> stop_event (polls s + k) = true) ->
  let r := sort_worker env stop_event base move_mode include_sub groups_selected
                       exif_by_date s in
  let cancelled := bool_decide (k < length files) in
  polls (final r) = polls s + (if cancelled then S k else k) /\
  (exists chunks,
      Forall2 (item_events move_mode) (take k files) chunks /\
      trace r =
      [EvLog ("Scanning " +:+ str base +:+ "...");
       EvLog ("Found " +:+ pretty (length files) +:+ " files. Processing...")]
      ++ with_progress (length files) 1 chunks
      ++ (if cancelled then [EvLog "Sorting cancelled."] else [])
      ++ [EvProgress 1; EvLog "Operation complete!"]) /\
  (forall src d, (src, d) ∈ placed_of (trace r) -> src ∈ take k files).
Proof.
  intros Hls Hne Hmk Hk Hrun Hstop r cancelled. subst r cancelled.
  destruct (sort_worker_run env stop_event base move_mode include_sub groups_selected
              exif_by_date files s Hls Hne Hmk) as (s' & Hp' & Heq).
  cbv zeta in Heq. rewrite Heq. cbn [trace final].
  destruct (sort_loop_trace env stop_event base move_mode groups_selected exif_by_date
              (length files) files 1 s' k Hk)
    as (Hpolls & chunks & Hchunks & Htr).
  { intros j Hj. rewrite Hp'. by apply Hrun. }
  { intros Hlt. rewrite Hp'. by apply Hstop. }
  cbv zeta in Hpolls, Htr. rewrite Htr, Hpolls, Hp'.
  split; [done|]. split.
  - exists chunks. split; [done|]. cbn [app]. by rewrite <- (assoc_L (++)).
  - intros src d Hin.
    change (placed_of (EvLog ?a :: EvLog ?b :: ?t)) with (placed_of t) in Hin.
    rewrite !placed_of_app in Hin.
    apply elem_of_app in Hin as [Hin|Hin].
    + apply elem_of_app in Hin as [Hin|Hin].
      * by eapply placed_of_with_progress.
      * destruct (bool_decide _); by apply elem_of_nil in Hin.
    + by apply elem_of_nil in Hin.
Qed.

Lemma sort_trace_shape_witness :
  trace (sort_worker Demo.env Demo.after_one Demo.base false false [] false Demo.start) =
  [EvLog "Scanning d..."; EvLog "Found 3 files. Processing...";
   EvCopy Demo.a ["d"; "Photos"; "a.jpg"]; EvLog "Copied: a.jpg"; EvProgress (1 # 3);
   EvLog "Sorting cancelled."; EvProgress 1; EvLog "Operation complete!"] /\
  forall src d,
    (src, d) ∈ placed_of (trace (sort_worker Demo.env Demo.after_one Demo.base
                                             false false [] false Demo.start)) ->
    src ∈ [Demo.a].
Proof.
  destruct (sort_trace_shape Demo.env Demo.after_one Demo.base false false [] false
              Demo.start [Demo.a; Demo.b; Demo.c] 1)
    as (_ & _ & Hplaced).
  - reflexivity.
  - discriminate.
  - reflexivity.
  - cbn [length]. lia.
  - intros j Hj. assert (j = 0) as -> by lia. reflexivity.
  - intros _. reflexivity.
  - split; [vm_compute; reflexivity|exact Hplaced].
Defined.

(* ===================================================================== *)
(** ** The duplicate scan, whatever is cancelled or raised                *)
(* ===================================================================== *)

Section DupAny.

Variable env : Env.

Local Notation key := (fun p : Path => lift (st_mtime env p)).

(** [max] returns only when every [stat] succeeded, and raises what the
    first failing [stat] raised. *)
Lemma max_loop_outcome items :
  forall maxitem maxval s,
    match result (max_loop key items maxitem maxval s) with
    | Ok _ => mtime_ok env items
    | Raise e => exists p, p ∈ items /\ st_mtime env p = Raise e
    end.
Proof.
  induction items as [|item rest IH]; intros maxitem maxval s.
  - cbn. intros f Hf. by apply elem_of_nil in Hf.
  - rewrite max_loop_cons, run_bind, key_run. cbn [trace final result app].
    destruct (st_mtime env item) as [t|e] eqn:Ht.
    + assert (Hstep : forall mi mv,
                match result (max_loop key rest mi mv s) with
                | Ok _ => mtime_ok env (item :: rest)
                | Raise e => exists p, p ∈ item :: rest /\ st_mtime env p = Raise e
                end).
      { intros mi mv. specialize (IH mi mv s).
        destruct (result (max_loop key rest mi mv s)) as [k|e].
        - intros f [->|Hf]%elem_of_cons; [eauto|by apply IH].
        - destruct IH as (p & Hp & He). exists p. split; [|done].
          apply elem_of_cons. by right. }
      destruct (Qltb maxval t); apply Hstep.
    + exists item. split; [apply elem_of_cons; by left|done].
Qed.

Lemma py_max_outcome items s :
  items <> [] ->
  match result (py_max key items s) with
  | Ok k => mtime_ok env items /\ k = first_max (mtime env) items
  | Raise e => exists p, p ∈ items /\ st_mtime env p = Raise e
  end.
Proof.
  intros Hne. destruct items as [|item rest]; [done|].
  destruct (result (py_max key (item :: rest) s)) as [k|e] eqn:Hr.
  - assert (Hok : mtime_ok env (item :: rest)).
    { revert Hr. unfold py_max. rewrite run_bind, key_run. cbn [trace final result app].
      destruct (st_mtime env item) as [t|e] eqn:Ht; [|discriminate].
      pose proof (max_loop_outcome rest item t s) as Hl. intros Hr.
      cbn [trace final result app] in Hr. rewrite Hr in Hl.
      intros f [->|Hf]%elem_of_cons; [eauto|by apply Hl]. }
    split; [done|]. rewrite (py_max_run env (item :: rest) s Hne Hok) in Hr.
    by injection Hr as <-.
  - revert Hr. unfold py_max. rewrite run_bind, key_run. cbn [trace final result app].
    destruct (st_mtime env item) as [t|e'] eqn:Ht.
    + pose proof (max_loop_outcome rest item t s) as Hl. intros Hr.
      cbn [trace final result app] in Hr. rewrite Hr in Hl.
      destruct Hl as (p & Hp & He). exists p. split; [|done].
      apply elem_of_cons. by right.
    + intros [= <-]. exists item. split; [apply elem_of_cons; by left|done].
Qed.

(** What [collect_duplicates] adds when it returns, and what it raises. *)
Lemma collect_duplicates_outcome h_groups :
  forall duplicates s,
    match result (collect_duplicates env h_groups duplicates s) with
    | Ok dups =>
        exists kept,
          kept `sublist_of` h_groups /\
          Forall (fun h => (1 < length h)%nat /\ mtime_ok env h) kept /\
          dups = duplicates ++ (mk_dup env <$> kept)
    | Raise e => exists h p, h ∈ h_groups /\ p ∈ h /\ st_mtime env p = Raise e
    end.
Proof.
  induction h_groups as [|h rest IH]; intros duplicates s.
  - cbn. exists []. split; [done|]. split; [constructor|]. by rewrite app_nil_r.
  - rewrite collect_duplicates_cons.
    destruct (1 <? length h)%nat eqn:Hlen.
    + rewrite run_bind. destruct (py_max_any env h s) as (Ht & Hf & _).
      rewrite Ht, Hf.
      assert (Hne : h <> []) by (destruct h; [discriminate|done]).
      pose proof (py_max_outcome h s Hne) as Hmax.
      destruct (result (py_max key h s)) as [k|e].
      * destruct Hmax as [Hok ->]. cbn [trace final result app].
        match goal with |- context [collect_duplicates env rest ?d s] =>
          specialize (IH d s);
          destruct (result (collect_duplicates env rest d s)) as [dups|e] end.
        -- destruct IH as (kept & Hsub & Hall & ->). exists (h :: kept).
           split; [by apply sublist_skip|]. split.
           { constructor; [|done]. split; [by apply Nat.ltb_lt|done]. }
           rewrite fmap_cons, <- (assoc_L (++)). reflexivity.
        -- destruct IH as (h' & p & Hh' & Hp & He). exists h', p.
           split; [apply elem_of_cons; by right|done].
      * destruct Hmax as (p & Hp & He). exists h, p.
        split; [apply elem_of_cons; by left|done].
    + specialize (IH duplicates s).
      destruct (result (collect_duplicates env rest duplicates s)) as [dups|e].
      * destruct IH as (kept & Hsub & Hall & ->). exists kept.
        split; [by apply sublist_cons|done].
      * destruct IH as (h' & p & Hh' & Hp & He). exists h', p.
        split; [apply elem_of_cons; by right|done].
Qed.

End DupAny.

Section DupAnyScan.

Variable env : Env.
Variable stop_event : nat -> bool.

Lemma dup_class_cons g groups h : dup_class env groups h -> dup_class env (g :: groups) h.
Proof.
  intros (g' & Hg' & H). exists g'. split; [apply elem_of_cons; by right|done].
Qed.

(** The bucket loop, whatever is cancelled or raised: it leaves the file
    system alone; what it returns is made of whole digest groups, and
    what it raises was raised by a [stat] for a modification time. *)
Lemma scan_buckets_outcome total groups :
  forall cur duplicates s,
    let r := scan_buckets env stop_event total cur duplicates groups s in
    fs (final r) = fs s /\
    match result r with
    | Ok dups =>
        exists kept, Forall (dup_class env groups) kept /\
                     dups = duplicates ++ (mk_dup env <$> kept)
    | Raise e =>
        exists g p, g ∈ groups /\ p ∈ g /\ st_mtime env p = Raise e
    end.
Proof.
  induction groups as [|g rest IH]; intros cur duplicates s; cbv zeta.
  - cbn. split; [done|]. exists []. split; [constructor|]. by rewrite app_nil_r.
  - destruct (stop_event (polls s)) eqn:Hstop.
    { rewrite scan_buckets_stopped by done. cbn [final result fs].
      split; [done|]. exists []. split; [constructor|]. by rewrite app_nil_r. }
    rewrite scan_buckets_step by done. cbv zeta.
    set (s1 := {| fs := fs s; polls := S (polls s) |}).
    assert (Hrest : forall dups0,
              let r := scan_buckets env stop_event total (S cur) dups0 rest s1 in
              fs (final r) = fs s /\
              match result r with
              | Ok dups =>
                  exists kept, Forall (dup_class env (g :: rest)) kept /\
                               dups = dups0 ++ (mk_dup env <$> kept)
              | Raise e =>
                  exists g' p, g' ∈ g :: rest /\ p ∈ g' /\ st_mtime env p = Raise e
              end).
    { intros dups0. cbv zeta. destruct (IH (S cur) dups0 s1) as [Hfs Hres].
      split; [exact Hfs|].
      destruct (result (scan_buckets env stop_event total (S cur) dups0 rest s1))
        as [dups|e].
      - destruct Hres as (kept & Hkept & ->). exists kept. split; [|done].
        eapply Forall_impl; [exact Hkept|]. intros h. apply dup_class_cons.
      - destruct Hres as (g' & p & Hg' & Hp & He). exists g', p.
        split; [apply elem_of_cons; by right|done]. }
    destruct (length g <? 2)%nat eqn:Hlen.
    + cbn [final result]. apply Hrest.
    + apply Nat.ltb_ge in Hlen.
      pose proof (collect_duplicates_outcome env
                    (values (group_by (digest env) g [])) duplicates s1) as Hc.
      destruct (result (collect_duplicates env _ duplicates s1)) as [dups'|e].
      * destruct Hc as (kept1 & Hsub & Hall & ->).
        destruct (Hrest (duplicates ++ (mk_dup env <$> kept1))) as [Hfs Hres].
        cbv zeta in Hfs, Hres. cbn [final result]. split; [exact Hfs|].
        destruct (result (scan_buckets env stop_event total (S cur) _ rest s1))
          as [dups|e].
        -- destruct Hres as (kept2 & Hkept2 & ->). exists (kept1 ++ kept2). split.
           ++ apply Forall_app. split; [|done].
              apply Forall_forall. intros h Hh.
              eapply Forall_forall in Hall; [|exact Hh]. destruct Hall as [Hl Hok].
              exists g. split; [apply elem_of_cons; by left|]. split; [done|].
              split; [|done]. by eapply elem_of_sublist.
           ++ by rewrite fmap_app, (assoc_L (++)).
        -- done.
      * cbn [final result fs]. split; [done|].
        destruct Hc as (h & p & Hh & Hp & He). exists g, p.
        split; [apply elem_of_cons; by left|]. split; [|done].
        by eapply digest_group_sub.
Qed.

End DupAnyScan.

Lemma scan_events_no_placed groups tr :
  Forall (scan_event_ok groups) tr -> placed_of tr = [].
Proof.
  induction 1 as [|ev tr Hev _ IH]; [reflexivity|].
  destruct ev; try done; exact IH.
Qed.

(** X8. The duplicate scan only reads: it copies and moves nothing and
    leaves the file system as it was. It calls [result_cb] exactly once
    when it returns and never when it raises; it raises only what the
    listing raised or what a [stat] for a modification time inside
    [max] raised, and then the log holds the opening lines only, without
    any mention of the error. *)
Theorem duplicate_scan_delivery (env : Env) (stop_event : nat -> bool) (base : Path)
    (include_sub images_only use_phash : bool) (perceptual_threshold : Q) (s : State) :
  let r := duplicate_scan_worker env stop_event base include_sub images_only
                                 use_phash perceptual_threshold s in
  fs (final r) = fs s /\
  placed_of (trace r) = [] /\
  match result r with
  | Ok _ =>
      exists dups,
        dup_results_of (trace r) = [dups] /\
        (last_log (trace r) = Some "No files to scan." /\ dups = [] \/
         last_log (trace r) =
           Some ("Found " +:+ pretty (length dups) +:+ " duplicate groups."))
  | Raise e =>
      dup_results_of (trace r) = [] /\
      (result (iter_files env base include_sub s) = Raise e /\
       logs_of (trace r) = ["Listing files..."] \/
       exists files p,
         result (iter_files env base include_sub s) = Ok files /\
         p ∈ scan_listing env images_only files /\ st_mtime env p = Raise e /\
         logs_of (trace r) =
           ["Listing files...";
            "Scanning " +:+ pretty (length (scan_listing env images_only files))
            +:+ " files for duplicates..."])
  end.
Proof.
  cbv zeta.
  destruct (result (iter_files env base include_sub s)) as [files|e] eqn:Hls.
  2:{ rewrite (duplicate_scan_worker_listing_failed _ _ _ _ _ _ _ _ _ Hls).
      cbn [trace final result]. split; [done|]. split; [done|]. split; [done|].
      left. by split. }
  destruct (decide (scan_listing env images_only files = [])) as [Hnil|Hne].
  { rewrite (duplicate_scan_worker_empty _ _ _ _ _ _ _ _ _ Hls Hnil).
    cbn [trace final result]. split; [done|]. split; [done|].
    exists []. split; [done|]. left. by split. }
  rewrite (duplicate_scan_worker_run _ _ _ _ _ _ _ _ _ Hls Hne). cbv zeta.
  set (scanned := scan_listing env images_only files).
  set (groups := size_buckets env scanned).
  destruct (scan_buckets_outcome env stop_event (length groups) groups 0 [] s)
    as [Hfs Hres].
  destruct (scan_buckets_any env stop_event (length groups) groups 0 [] s)
    as [Hev _].
  cbv zeta in Hfs, Hres, Hev.
  set (r := scan_buckets env stop_event (length groups) 0 [] groups s) in *.
  destruct (scan_events_no_result groups (trace r) Hev) as [Hnores Hnolog].
  pose proof (scan_events_no_placed groups (trace r) Hev) as Hnoplaced.
  cbn [trace final result]. split; [exact Hfs|].
  change (placed_of (EvLog ?a :: EvLog ?b :: ?t)) with (placed_of t).
  change (dup_results_of (EvLog ?a :: EvLog ?b :: ?t)) with (dup_results_of t).
  rewrite placed_of_app, dup_results_of_app, Hnoplaced, Hnores.
  destruct (result r) as [dups|e].
  - split; [done|]. exists dups. split; [done|]. right.
    unfold last_log.
    change (logs_of (EvLog ?a :: EvLog ?b :: ?t)) with (a :: b :: logs_of t).
    rewrite logs_of_app, Hnolog. reflexivity.
  - split; [done|]. split; [done|]. right.
    destruct Hres as (g & p & Hg & Hp & He). exists files, p.
    split; [done|]. split.
    { apply size_buckets_elem in Hg as (sz & -> & _).
      apply bucket_of_elem in Hp. tauto. }
    split; [done|].
    change (logs_of (EvLog ?a :: EvLog ?b :: ?t)) with (a :: b :: logs_of t).
    by rewrite logs_of_app, Hnolog.
Qed.

Section ContentClass.

Variable env : Env.

Lemma filter_filter_andb {A} (f g : A -> bool) (l : list A) :
  List.filter f (List.filter g l) = List.filter (fun x => g x && f x) l.
Proof.
  induction l as [|x l IH]; [reflexivity|]. cbn [List.filter].
  destruct (g x); cbn [List.filter andb]; [|exact IH].
  destruct (f x); by rewrite IH.
Qed.

(** A digest group of a size bucket holds all the files of the listing
    that have the size and the digest of any one of its files. *)
Lemma dup_class_content scanned h p :
  dup_class env (size_buckets env scanned) h -> p ∈ h ->
  h = content_class env scanned p /\
  exists sz dg, size_key env p = Some sz /\ digest env p = Some dg.
Proof.
  intros (g & Hg & _ & Hh & _) Hp.
  apply size_buckets_elem in Hg as (sz & -> & _).
  unfold values in Hh. apply list_elem_of_fmap in Hh as ([dg h'] & -> & Hin).
  cbn [snd] in *. apply group_by_elem in Hin as [-> _].
  apply list_elem_of_In, List.filter_In in Hp as [Hp Hdg].
  apply list_elem_of_In, bucket_of_elem in Hp as [_ Hsz].
  apply bool_decide_eq_true in Hdg.
  split; [|by exists sz, dg].
  unfold bucket_of, content_class. rewrite filter_filter_andb, Hsz, Hdg. reflexivity.
Qed.

Lemma mk_dup_members h p : h <> [] -> p ∈ dup_members (mk_dup env h) <-> p ∈ h.
Proof.
  intros Hne. unfold dup_members, mk_dup. cbn [keep delete].
  pose proof (first_max_elem (mtime env) h Hne) as Hk. split.
  - intros [->|Hp]%elem_of_cons; [done|].
    apply list_elem_of_In, List.filter_In in Hp as [Hp _]. by apply list_elem_of_In.
  - intros Hp. destruct (decide (p = first_max (mtime env) h)) as [->|Hneq].
    + apply elem_of_cons. by left.
    + apply elem_of_cons. right. apply list_elem_of_In, List.filter_In.
      split; [by apply list_elem_of_In|]. by rewrite bool_decide_eq_false_2.
Qed.

End ContentClass.

(** X9. Every duplicate group that a scan delivers, cancelled or not, is
    a whole class of the scanned files: it is made of all the scanned
    files that have the size and the digest of the kept file. The kept
    file is the first of the class, in listing order, with the greatest
    modification time; the files to delete are the others, in listing
    order. Two delivered groups that share a file are the same group. *)
Theorem duplicate_group_is_content_class (env : Env) (stop_event : nat -> bool)
    (base : Path) (include_sub images_only use_phash : bool)
    (perceptual_threshold : Q) (s : State) (files : list Path) :
  result (iter_files env base include_sub s) = Ok files ->
  let scanned := scan_listing env images_only files in
  let tr := trace (duplicate_scan_worker env stop_event base include_sub images_only
                                         use_phash perceptual_threshold s) in
  forall dups d,
    dups ∈ dup_results_of tr -> d ∈ dups ->
    let h := content_class env scanned (keep d) in
    (2 <= length h)%nat /\
    (forall p, p ∈ dup_members d <-> p ∈ h) /\
    delete d = List.filter (fun p => negb (bool_decide (p = keep d))) h /\
    reason d = "exact" /\
    mtime_ok env h /\
    (exists before after,
        h = before ++ keep d :: after /\
        (forall p, p ∈ before -> (mtime env p < mtime env (keep d))%Q) /\
        (forall p, p ∈ after -> (mtime env p <= mtime env (keep d))%Q)) /\
    (forall d', d' ∈ dups ->
       (exists p, p ∈ dup_members d /\ p ∈ dup_members d') -> d' = d).
Proof.
  intros Hls scanned tr dups d Hdups Hd.
  assert (Hall : exists kept,
             Forall (dup_class env (size_buckets env scanned)) kept /\
             dups = mk_dup env <$> kept).
  { subst tr. revert Hdups.
    destruct (decide (scan_listing env images_only files = [])) as [Hnil|Hne].
    { rewrite (duplicate_scan_worker_empty _ _ _ _ _ _ _ _ _ Hls Hnil).
      cbn. intros ->%list_elem_of_singleton. by apply elem_of_nil in Hd. }
    rewrite (duplicate_scan_worker_run _ _ _ _ _ _ _ _ _ Hls Hne). cbv zeta.
    fold scanned. set (groups := size_buckets env scanned).
    destruct (scan_buckets_outcome env stop_event (length groups) groups 0 [] s)
      as [_ Hres].
    destruct (scan_buckets_any env stop_event (length groups) groups 0 [] s)
      as [Hev _].
    cbv zeta in Hres, Hev.
    set (r := scan_buckets env stop_event (length groups) 0 [] groups s) in *.
    destruct (scan_events_no_result groups (trace r) Hev) as [Hnores _].
    cbn [trace].
    change (dup_results_of (EvLog ?a :: EvLog ?b :: ?t)) with (dup_results_of t).
    rewrite dup_results_of_app, Hnores.
    destruct (result r) as [dups0|e]; [|intros Hin; by apply elem_of_nil in Hin].
    cbn. intros ->%list_elem_of_singleton. exact Hres. }
  destruct Hall as (kept & Hkept & ->).
  assert (Hclass : forall d0, d0 ∈ mk_dup env <$> kept ->
            exists h0, dup_class env (size_buckets env scanned) h0 /\
                       d0 = mk_dup env h0 /\ h0 <> [] /\
                       h0 = content_class env scanned (keep d0)).
  { intros d0 Hd0. apply list_elem_of_fmap in Hd0 as (h0 & -> & Hh0).
    eapply Forall_forall in Hkept; [|exact Hh0].
    assert (Hne0 : h0 <> []).
    { destruct Hkept as (_ & _ & _ & _ & Hl & _). destruct h0; [cbn in Hl; lia|done]. }
    exists h0. split; [done|]. split; [done|]. split; [done|].
    apply (dup_class_content env scanned h0); [done|].
    cbn [keep mk_dup]. by apply first_max_elem. }
  destruct (Hclass d Hd) as (h0 & Hdc & -> & Hne0 & Hh0).
  cbv zeta. rewrite <- Hh0.
  destruct Hdc as (g & Hg & Hlg & Hin & Hl & Hok).
  split; [lia|]. split; [intros p; by apply mk_dup_members|].
  split; [reflexivity|]. split; [reflexivity|]. split; [done|]. split.
  { apply (first_max_spec (mtime env) h0 Hne0). }
  intros d' Hd' (p & Hp & Hp').
  destruct (Hclass d' Hd') as (h1 & Hdc1 & -> & Hne1 & Hh1).
  apply mk_dup_members in Hp; [|done]. apply mk_dup_members in Hp'; [|done].
  destruct (dup_class_content env scanned h0 p) as [E0 _];
    [by exists g|done|].
  destruct (dup_class_content env scanned h1 p Hdc1 Hp') as [E1 _].
  congruence.
Qed.

Lemma duplicate_group_is_content_class_witness :
  result (iter_files Demo.env Demo.base false Demo.start) = Ok [Demo.a; Demo.b; Demo.c] /\
  let tr := trace (duplicate_scan_worker Demo.env Demo.never Demo.base false false
                                         true 10 Demo.start) in
  let d := {| keep := Demo.b; delete := [Demo.a]; reason := "exact" |} in
  dup_results_of tr = [[d]] /\
  content_class Demo.env [Demo.a; Demo.b; Demo.c] (keep d) = [Demo.a; Demo.b] /\
  forall p, p ∈ dup_members d <-> p ∈ [Demo.a; Demo.b].
Proof.
  assert (Hls : result (iter_files Demo.env Demo.base false Demo.start)
                = Ok [Demo.a; Demo.b; Demo.c]) by reflexivity.
  split; [exact Hls|]. cbv zeta.
  assert (Hres : dup_results_of
                   (trace (duplicate_scan_worker Demo.env Demo.never Demo.base false
                                                 false true 10 Demo.start)) =
                 [[{| keep := Demo.b; delete := [Demo.a]; reason := "exact" |}]])
    by (vm_compute; reflexivity).
  split; [exact Hres|]. split; [vm_compute; reflexivity|].
  destruct (duplicate_group_is_content_class Demo.env Demo.never Demo.base false false
              true 10%Q Demo.start [Demo.a; Demo.b; Demo.c] Hls
              [{| keep := Demo.b; delete := [Demo.a]; reason := "exact" |}]
              {| keep := Demo.b; delete := [Demo.a]; reason := "exact" |})
    as (_ & Hmem & _).
  - rewrite Hres. apply list_elem_of_singleton. reflexivity.
  - apply list_elem_of_singleton. reflexivity.
  - exact Hmem.
Defined.

Lemma two_elems_length {A} (l : list A) (p q : A) :
  p ∈ l -> q ∈ l -> p <> q -> 2 <= length l.
Proof.
  destruct l as [|x [|y l]]; cbn [length]; [|intros ->%list_elem_of_singleton ->%list_elem_of_singleton; done|lia].
  intros Hp. by apply elem_of_nil in Hp.
Qed.

Lemma NoDup_other {A} `{EqDecision A} (l : list A) (p : A) :
  NoDup l -> 2 <= length l -> p ∈ l -> exists q, q ∈ l /\ q <> p.
Proof.
  destruct l as [|x [|y l]]; cbn [length]; [lia|lia|].
  intros Hnd _ _. apply NoDup_cons in Hnd as [Hx _].
  assert (Hxy : x <> y) by (intros ->; apply Hx, elem_of_cons; by left).
  destruct (decide (p = x)) as [->|Hpx].
  - exists y. split; [apply elem_of_cons; right; apply elem_of_cons; by left|congruence].
  - exists x. split; [apply elem_of_cons; by left|congruence].
Qed.

(** X10. A duplicate scan that is not cancelled and whose [stat] calls
    for modification times succeed finds every duplicate: a scanned
    file is in a delivered group exactly when another scanned file has
    its size and its digest. *)
Theorem duplicate_scan_complete (env : Env) (stop_event : nat -> bool)
    (base : Path) (include_sub images_only use_phash : bool)
    (perceptual_threshold : Q) (s : State) (files : list Path) :
  result (iter_files env base include_sub s) = Ok files ->
  let scanned := scan_listing env images_only files in
  let tr := trace (duplicate_scan_worker env stop_event base include_sub images_only
                                         use_phash perceptual_threshold s) in
  NoDup scanned ->
  (forall j, j < length (size_buckets env scanned) -> stop_event (polls s + j) = false) ->
  mtime_ok env scanned ->
  exists dups,
    dup_results_of tr = [dups] /\
    forall p, p ∈ scanned ->
      ((exists d, d ∈ dups /\ p ∈ dup_members d) <->
       (exists q sz dg,
           q ∈ scanned /\ q <> p /\
           size_key env p = Some sz /\ size_key env q = Some sz /\
           digest env p = Some dg /\ digest env q = Some dg)).
Proof.
  intros Hls scanned tr Hnd Hrun Hok.
  destruct (duplicate_scan_worker_full env stop_event base include_sub images_only
              use_phash perceptual_threshold s files Hls Hrun Hok) as [Hres _].
  fold scanned in Hres. fold tr in Hres.
  exists (flat_map (bucket_dups env) (size_buckets env scanned)).
  split; [exact Hres|]. intros p Hp. split.
  - intros (d & Hd & Hpd).
    apply list_elem_of_In, in_flat_map in Hd as (g & Hg & Hd).
    apply list_elem_of_In in Hg. apply list_elem_of_In in Hd.
    unfold bucket_dups in Hd.
    destruct (length g <? 2)%nat eqn:Hlen; [by apply elem_of_nil in Hd|].
    apply Nat.ltb_ge in Hlen.
    unfold dups_of_hashes in Hd.
    apply list_elem_of_fmap in Hd as (h & -> & Hh).
    apply list_elem_of_In, List.filter_In in Hh as [Hh Hl].
    apply list_elem_of_In in Hh. apply Nat.ltb_lt in Hl.
    assert (Hne : h <> []) by (destruct h; [cbn in Hl; lia|done]).
    apply mk_dup_members in Hpd; [|done].
    assert (Hdc : dup_class env (size_buckets env scanned) h).
    { exists g. split; [done|]. split; [done|]. split; [done|]. split; [done|].
      intros f Hf. apply Hok.
      apply size_buckets_elem in Hg as (sz & -> & _).
      eapply digest_group_sub in Hf; [|exact Hh]. apply bucket_of_elem in Hf. tauto. }
    destruct (dup_class_content env scanned h p Hdc Hpd) as [Hclass (sz & dg & Hsz & Hdg)].
    assert (Hndh : NoDup h).
    { rewrite Hclass. unfold content_class.
      by apply NoDup_ListNoDup, List.NoDup_filter, NoDup_ListNoDup. }
    destruct (NoDup_other h p Hndh) as (q & Hq & Hqp); [lia|done|].
    rewrite Hclass in Hq. unfold content_class in Hq.
    apply list_elem_of_In, List.filter_In in Hq as [Hq Hsame].
    apply andb_true_iff in Hsame as [Hs1 Hs2].
    apply bool_decide_eq_true in Hs1. apply bool_decide_eq_true in Hs2.
    exists q, sz, dg. apply list_elem_of_In in Hq.
    split; [done|]. split; [done|]. split; [done|]. split; [congruence|].
    split; [done|congruence].
  - intros (q & sz & dg & Hq & Hqp & Hsp & Hsq & Hdp & Hdq).
    set (g := bucket_of env scanned sz).
    assert (Hpg : p ∈ g) by (by apply bucket_of_elem).
    assert (Hqg : q ∈ g) by (by apply bucket_of_elem).
    assert (Hg : g ∈ size_buckets env scanned).
    { unfold size_buckets, values. apply list_elem_of_fmap. exists (sz, g).
      split; [done|]. apply group_by_complete.
      intros Hnil. fold (bucket_of env scanned sz) in Hnil. fold g in Hnil.
      rewrite Hnil in Hpg. by apply elem_of_nil in Hpg. }
    set (h := List.filter (fun f => bool_decide (digest env f = Some dg)) g).
    assert (Hin : forall f, f ∈ g -> digest env f = Some dg -> f ∈ h).
    { intros f Hf Hd. apply list_elem_of_In, List.filter_In.
      split; [by apply list_elem_of_In|by apply bool_decide_eq_true]. }
    assert (Hph : p ∈ h) by (by apply Hin).
    assert (Hqh : q ∈ h) by (by apply Hin).
    assert (Hh : h ∈ values (group_by (digest env) g [])).
    { unfold values. apply list_elem_of_fmap. exists (dg, h).
      split; [done|]. apply group_by_complete.
      intros Hnil. fold h in Hnil. rewrite Hnil in Hph. by apply elem_of_nil in Hph. }
    exists (mk_dup env h). split.
    + apply list_elem_of_In, in_flat_map. exists g.
      split; [by apply list_elem_of_In|]. apply list_elem_of_In.
      unfold bucket_dups.
      assert (Hlg : 2 <= length g) by (by apply (two_elems_length g p q)).
      apply Nat.ltb_ge in Hlg. rewrite Hlg.
      unfold dups_of_hashes. apply list_elem_of_fmap. exists h. split; [done|].
      apply list_elem_of_In, List.filter_In. split; [by apply list_elem_of_In|].
      apply Nat.ltb_lt.
      assert (2 <= length h) by (apply (two_elems_length h p q); congruence). lia.
    + apply mk_dup_members; [|done].
      intros Hnil. rewrite Hnil in Hph. by apply elem_of_nil in Hph.
Qed.

Lemma duplicate_scan_complete_witness :
  let tr := trace (duplicate_scan_worker Demo.env Demo.never Demo.base false false
                                         true 10 Demo.start) in
  exists dups,
    dup_results_of tr = [dups] /\
    forall p, p ∈ [Demo.a; Demo.b; Demo.c] ->
      ((exists d, d ∈ dups /\ p ∈ dup_members d) <->
       (exists q sz dg,
           q ∈ [Demo.a; Demo.b; Demo.c] /\ q <> p /\
           size_key Demo.env p = Some sz /\ size_key Demo.env q = Some sz /\
           digest Demo.env p = Some dg /\ digest Demo.env q = Some dg)).
Proof.
  apply (duplicate_scan_complete Demo.env Demo.never Demo.base false false true 10%Q
           Demo.start [Demo.a; Demo.b; Demo.c]).
  - reflexivity.
  - apply (bool_decide_unpack _). vm_compute. exact I.
  - intros j _. reflexivity.
  - intros f _. eexists. reflexivity.
Defined.

(* ===================================================================== *)
(** ** The dicts of the duplicate scan                                    *)
(* ===================================================================== *)

Section Partition.

Context {K : Type} `{EqDecision K}.

Lemma setdefault_append_concat (k : K) (v : Path) (d : list (K * list Path)) :
  concat (values (setdefault_append k v d)) ≡ₚ v :: concat (values d).
Proof.
  unfold values. induction d as [|[k' vs] d IH]; [reflexivity|].
  cbn [setdefault_append]. destruct (decide (k = k')) as [->|Hne].
  - cbn [fmap list_fmap snd concat]. rewrite <- (assoc_L (++)). cbn [app].
    symmetry. apply Permutation_middle.
  - cbn [fmap list_fmap snd concat]. cbn [fmap] in IH. rewrite IH.
    symmetry. apply Permutation_middle.
Qed.

Lemma group_by_concat (key : Path -> option K) (files : list Path) :
  concat (values (group_by key files [])) ≡ₚ
  List.filter (fun f => bool_decide (is_Some (key f))) files.
Proof.
  induction files as [|f files IH] using rev_ind; [reflexivity|].
  rewrite group_by_snoc, List.filter_app. cbn [List.filter].
  destruct (key f) as [k|] eqn:Hk.
  - rewrite bool_decide_eq_true_2 by eauto.
    rewrite setdefault_append_concat, IH. by rewrite <- Permutation_cons_append.
  - rewrite bool_decide_eq_false_2 by (by intros [? ?]).
    by rewrite app_nil_r.
Qed.

End Partition.

(** X11. The two dict-building loops of the duplicate scan never raise
    and partition their input. The size map has one entry per size that
    occurs, holding the listed files of that size in listing order; the
    files whose [stat] succeeds are spread over the buckets, each as
    often as it is listed, and a file whose [stat] raises is in none.
    The digest map of a bucket does the same by digest, and the digest
    function is called once on every file of the bucket, in order, also
    on those that cannot be read. *)
Theorem scan_dicts_partition (env : Env) (files : list Path) (s : State) :
  (let r := build_size_map env files [] s in
   trace r = [] /\ final r = s /\
   exists size_map,
     result r = Ok size_map /\
     NoDup size_map.*1 /\
     (forall sz g, (sz, g) ∈ size_map <-> g = bucket_of env files sz /\ g <> []) /\
     concat (values size_map) ≡ₚ
       List.filter (fun f => bool_decide (is_Some (size_key env f))) files) /\
  (let r := hash_group env files [] s in
   trace r = EvHash <$> files /\ final r = s /\
   exists hashes,
     result r = Ok hashes /\
     NoDup hashes.*1 /\
     (forall dg h,
         (dg, h) ∈ hashes <->
         h = List.filter (fun f => bool_decide (digest env f = Some dg)) files /\ h <> []) /\
     concat (values hashes) ≡ₚ
       List.filter (fun f => bool_decide (is_Some (digest env f))) files).
Proof.
  split; cbv zeta.
  - rewrite build_size_map_run. cbn [trace final result].
    split; [done|]. split; [done|]. eexists. split; [reflexivity|].
    split; [apply group_by_wf, dict_wf_nil|]. split; [|apply group_by_concat].
    intros sz g. split.
    + apply group_by_elem.
    + intros [-> Hne]. by apply group_by_complete.
  - rewrite hash_group_run. cbn [trace final result].
    split; [done|]. split; [done|]. eexists. split; [reflexivity|].
    split; [apply group_by_wf, dict_wf_nil|]. split; [|apply group_by_concat].
    intros dg h. split.
    + apply group_by_elem.
    + intros [-> Hne]. by apply group_by_complete.
Qed.

(* ===================================================================== *)
(** ** Face clustering keeps every vector                                 *)
(* ===================================================================== *)

Section Conservation.

Variable env : Env.

Lemma all_encodings_app cl1 cl2 :
  all_encodings (cl1 ++ cl2) = all_encodings cl1 ++ all_encodings cl2.
Proof. unfold all_encodings. by rewrite fmap_app, concat_app. Qed.

Lemma all_images_app cl1 cl2 :
  all_images (cl1 ++ cl2) = all_images cl1 ∪ all_images cl2.
Proof.
  unfold all_images. rewrite fmap_app.
  induction (images <$> cl1) as [|x l IH]; cbn [app union_list foldr].
  - by rewrite (left_id_L ∅ (∪)).
  - fold (⋃ (l ++ (images <$> cl2))). fold (⋃ l). rewrite IH.
    by rewrite (assoc_L (∪)).
Qed.

Lemma all_encodings_cons c cl :
  all_encodings (c :: cl) = encodings c ++ all_encodings cl.
Proof. reflexivity. Qed.

Lemma all_images_cons c cl : all_images (c :: cl) = images c ∪ all_images cl.
Proof. reflexivity. Qed.

Lemma add_encoding_conserves p enc clusters :
  let cl' := add_encoding env p clusters enc in
  all_encodings cl' ≡ₚ enc :: all_encodings clusters /\
  all_images cl' = all_images clusters ∪ {[p]} /\
  length clusters <= length cl' <= S (length clusters).
Proof.
  cbv zeta. destruct (add_encoding_cases env p enc clusters) as [(i & c & Hi & ->)| ->].
  - rewrite length_insert. split; [|split; [|lia]].
    + rewrite insert_take_drop by (by eapply lookup_lt_Some).
      rewrite <- (take_drop_middle clusters i c Hi) at 3.
      rewrite !all_encodings_app, !all_encodings_cons.
      cbn [absorb encodings]. rewrite <- (assoc_L (++) (encodings c)). cbn [app].
      rewrite !(assoc_L (++) (all_encodings (take i clusters)) (encodings c)).
      symmetry. apply Permutation_middle.
    + rewrite insert_take_drop by (by eapply lookup_lt_Some).
      rewrite <- (take_drop_middle clusters i c Hi) at 3.
      rewrite !all_images_app, !all_images_cons.
      cbn [absorb images]. set_solver.
  - rewrite length_app. cbn [length]. split; [|split; [|lia]].
    + rewrite all_encodings_app, all_encodings_cons.
      cbn [fresh encodings app]. unfold all_encodings at 2. cbn [fmap list_fmap concat].
      symmetry. apply Permutation_cons_append.
    + rewrite all_images_app, all_images_cons.
      cbn [fresh images]. unfold all_images at 2. cbn [fmap list_fmap union_list foldr].
      set_solver.
Qed.

Lemma add_encodings_conserves p encs :
  forall clusters,
    let cl' := foldl (add_encoding env p) clusters encs in
    all_encodings cl' ≡ₚ all_encodings clusters ++ encs /\
    all_images cl' = all_images clusters ∪ (if encs is [] then ∅ else {[p]}) /\
    length clusters <= length cl' <= length clusters + length encs.
Proof.
  induction encs as [|enc encs IH]; intros clusters; cbv zeta.
  - cbn [foldl length]. rewrite app_nil_r. split; [done|]. split; [set_solver|lia].
  - cbn [foldl length].
    destruct (add_encoding_conserves p enc clusters) as (He & Hi & Hl).
    destruct (IH (add_encoding env p clusters enc)) as (He' & Hi' & Hl').
    cbv zeta in He, Hi, Hl, He', Hi', Hl'.
    split; [|split; [|lia]].
    + rewrite He', He. cbn [app]. apply Permutation_middle.
    + rewrite Hi', Hi. destruct encs; set_solver.
Qed.

Lemma add_images_conserve photos :
  forall clusters,
    let cl' := foldl (add_image env) clusters photos in
    all_encodings cl' ≡ₚ
      all_encodings clusters ++ concat (face_encodings_for_image env <$> photos) /\
    all_images cl' =
      all_images clusters ∪
      list_to_set (List.filter
                     (fun p => negb (bool_decide (face_encodings_for_image env p = [])))
                     photos) /\
    length clusters <= length cl' <=
      length clusters + length (concat (face_encodings_for_image env <$> photos)).
Proof.
  induction photos as [|p photos IH]; intros clusters; cbv zeta.
  - cbn. rewrite app_nil_r. split; [done|]. split; [set_solver|lia].
  - cbn [foldl fmap list_fmap concat List.filter].
    destruct (add_encodings_conserves p (face_encodings_for_image env p) clusters)
      as (He & Hi & Hl).
    destruct (IH (add_image env clusters p)) as (He' & Hi' & Hl').
    cbv zeta in He, Hi, Hl, He', Hi', Hl'. fold (add_image env clusters p) in He, Hi, Hl.
    split; [|split].
    + rewrite He', He. by rewrite (assoc_L (++)).
    + rewrite Hi', Hi.
      destruct (face_encodings_for_image env p) as [|e es] eqn:Hencs.
      * rewrite bool_decide_eq_true_2 by done. cbn [negb]. set_solver.
      * rewrite bool_decide_eq_false_2 by done. cbn [negb list_to_set]. set_solver.
    + rewrite length_app. lia.
Qed.

End Conservation.

(** The clustering loop, for any behaviour of the stop event: it handles
    the photos before the first poll that answers "set". *)
Lemma cluster_loop_any env stop_event total photos :
  forall idx clusters s,
    let r := cluster_loop env stop_event total idx clusters photos s in
    exists k,
      k <= length photos /\
      (forall j, j < k -> stop_event (polls s + j) = false) /\
      (k < length photos -> stop_event (polls s + k) = true) /\
      result r = Ok (foldl (add_image env) clusters (take k photos)) /\
      fs (final r) = fs s /\
      trace r = EvProgress <$> fractions total (S idx) k.
Proof.
  induction photos as [|p rest IH]; intros idx clusters s; cbv zeta.
  - exists 0. cbn. split; [lia|]. split; [intros; lia|]. split; [lia|done].
  - destruct (stop_event (polls s)) eqn:Hstop.
    + rewrite cluster_loop_stopped by done. exists 0. cbn [length take foldl trace final result fs].
      split; [lia|]. split; [intros; lia|].
      split; [intros _; by rewrite Nat.add_0_r|done].
    + rewrite cluster_loop_step by done. cbv zeta. cbn [trace final result].
      set (s1 := {| fs := fs s; polls := S (polls s) |}).
      destruct (IH (S idx) (add_image env clusters p) s1)
        as (k & Hk & Hrun & Hend & Hres & Hfs & Htr).
      cbv zeta in Hres, Hfs, Htr.
      exists (S k). cbn [length take foldl]. split; [lia|]. split.
      { intros [|j] Hj; [by rewrite Nat.add_0_r|].
        replace (polls s + S j) with (polls s1 + j) by (cbn; lia). apply Hrun. lia. }
      split.
      { intros Hlt. replace (polls s + S k) with (polls s1 + k) by (cbn; lia).
        apply Hend. lia. }
      split; [exact Hres|]. split; [exact Hfs|].
      rewrite Htr. unfold fractions. cbn [seq map fmap list_fmap].
      by rewrite Nat.add_1_r.
Qed.

(** X12. The clustering loop loses and invents nothing, whenever it is
    cancelled: at its end the clusters hold, besides what they held
    before, exactly the vectors of the photos handled, each once; the
    images recorded are those of the photos handled that show at least
    one face; and at most one cluster per vector was added. The loop
    never raises, leaves the file system alone and reports progress once
    per photo handled. *)
Theorem clustering_keeps_every_vector (env : Env) (stop_event : nat -> bool)
    (total idx : nat) (clusters : list cluster) (photos : list Path) (s : State) :
  let r := cluster_loop env stop_event total idx clusters photos s in
  exists k clusters',
    k <= length photos /\
    (forall j, j < k -> stop_event (polls s + j) = false) /\
    (k < length photos -> stop_event (polls s + k) = true) /\
    result r = Ok clusters' /\
    fs (final r) = fs s /\
    trace r = EvProgress <$> fractions total (S idx) k /\
    all_encodings clusters' ≡ₚ
      all_encodings clusters ++
      concat (face_encodings_for_image env <$> take k photos) /\
    all_images clusters' =
      all_images clusters ∪
      list_to_set (List.filter
                     (fun p => negb (bool_decide (face_encodings_for_image env p = [])))
                     (take k photos)) /\
    length clusters <= length clusters' <=
      length clusters + length (concat (face_encodings_for_image env <$> take k photos)).
Proof.
  cbv zeta.
  destruct (cluster_loop_any env stop_event total photos idx clusters s)
    as (k & Hk & Hrun & Hend & Hres & Hfs & Htr).
  exists k, (foldl (add_image env) clusters (take k photos)).
  destruct (add_images_conserve env (take k photos) clusters) as (He & Hi & Hl).
  split; [done|]. split; [done|]. split; [done|]. split; [done|].
  split; [done|]. split; [done|]. split; [done|]. split; done.
Qed.

(* ===================================================================== *)
(** ** The face albums                                                    *)
(* ===================================================================== *)

Section Albums.

Variable env : Env.

Lemma placed_of_copies pairs : placed_of (copies pairs) = pairs.
Proof.
  induction pairs as [|[a b] pairs IH]; [reflexivity|].
  cbn. f_equal. exact IH.
Qed.

Lemma fresh_copy_weaken fs0 fs0' fs1 fs1' pd :
  fs0' ⊆ fs0 -> fs1 ⊆ fs1' -> fresh_copy env fs0 fs1 pd -> fresh_copy env fs0' fs1' pd.
Proof. intros H0 H1 (Hnew & Hin & Hcp). split; [set_solver|]. split; [set_solver|done]. Qed.

Lemma copy_images_cons p_dir img rest img_list s :
  copy_images env p_dir (img :: rest) img_list s =
  let dest := unique_dest (fs s) (p_dir / name img)%path in
  match copy_error env img dest with
  | Some e =>
      {| trace := [];
         final := {| fs := if copy_partial env img dest then fs s ∪ {[dest]} else fs s;
                     polls := polls s |};
         result := Raise e |}
  | None =>
      let r := copy_images env p_dir rest (img_list ++ [str dest])
                           {| fs := fs s ∪ {[dest]}; polls := polls s |} in
      {| trace := EvCopy img dest :: trace r; final := final r; result := result r |}
  end.
Proof.
  cbn [copy_images]. unfold unique_dest_m, copy2.
  unfold mbind, M_bind, bind, get_fs. cbn [trace final result app mret M_ret ret].
  cbv zeta.
  destruct (copy_error env img (unique_dest (fs s) (p_dir / name img)%path));
    [unfold modify_fs, raise; cbn [trace final result app fs polls]; reflexivity|].
  unfold emit, modify_fs. cbn [trace final result app fs polls].
  destruct (result (copy_images env p_dir rest _ _)); reflexivity.
Qed.

(** The copies of one album, whatever [copy2] does. *)
Lemma copy_images_any p_dir imgs :
  forall img_list s,
    let r := copy_images env p_dir imgs img_list s in
    polls (final r) = polls s /\ fs s ⊆ fs (final r) /\
    exists pairs,
      trace r = copies pairs /\
      pairs.*1 `prefix_of` imgs /\
      NoDup pairs.*2 /\
      Forall (fun pd => fresh_copy env (fs s) (fs (final r)) pd /\ parent pd.2 = p_dir)
             pairs /\
      match result r with
      | Ok l => pairs.*1 = imgs /\ l = img_list ++ (str <$> pairs.*2)
      | Raise e => exists src d, src ∈ imgs /\ copy_error env src d = Some e
      end.
Proof.
  induction imgs as [|img rest IH]; intros img_list s; cbv zeta.
  - cbn. split; [done|]. split; [done|]. exists []. cbn.
    split; [done|]. split; [done|]. split; [constructor|]. split; [constructor|].
    by rewrite app_nil_r.
  - rewrite copy_images_cons. cbv zeta.
    set (dest := unique_dest (fs s) (p_dir / name img)%path).
    assert (Hfree : dest ∉ fs s) by apply unique_dest_not_exists.
    assert (Hpar : parent dest = p_dir).
    { subst dest. rewrite parent_unique_dest. apply parent_div. }
    destruct (copy_error env img dest) as [e|] eqn:Hcp.
    + cbn [trace final result fs polls]. split; [done|].
      split; [destruct (copy_partial env img dest); set_solver|].
      exists []. cbn. split; [done|]. split; [apply prefix_nil|].
      split; [constructor|]. split; [constructor|].
      exists img, dest. split; [apply elem_of_cons; by left|done].
    + set (s1 := {| fs := fs s ∪ {[dest]}; polls := polls s |}).
      destruct (IH (img_list ++ [str dest]) s1)
        as (Hp & Hfs & pairs & Htr & Hpre & Hnd & Hall & Hres).
      cbv zeta in Hp, Hfs, Htr, Hpre, Hnd, Hall, Hres.
      set (r := copy_images env p_dir rest (img_list ++ [str dest]) s1) in *.
      cbn [trace final result].
      split; [exact Hp|]. split; [subst s1; cbn [fs] in Hfs; set_solver|].
      exists ((img, dest) :: pairs). cbn [fmap list_fmap fst snd].
      split; [by rewrite Htr|]. split; [by apply prefix_cons|]. split.
      { apply NoDup_cons. split; [|done].
        intros Hin. apply list_elem_of_fmap in Hin as (pd & Heq & Hpd).
        eapply Forall_forall in Hall; [|exact Hpd].
        destruct Hall as [(Hnew & _) _]. apply Hnew. rewrite <- Heq.
        subst s1. cbn [fs]. set_solver. }
      split.
      { constructor.
        - split; [|done]. split; [done|]. split; [|done]. cbn [snd].
          apply Hfs. subst s1. cbn [fs]. set_solver.
        - eapply Forall_impl; [exact Hall|]. intros pd [Hfr Hpd]. split; [|done].
          eapply fresh_copy_weaken; [| |exact Hfr]; [subst s1; cbn [fs]; set_solver|done]. }
      destruct (result r) as [l|e]; [|].
      * destruct Hres as [-> ->]. split; [done|].
        rewrite <- (assoc_L (++)). reflexivity.
      * destruct Hres as (src & d & Hsrc & He). exists src, d.
        split; [apply elem_of_cons; by right|done].
Qed.

Lemma copies_app pairs1 pairs2 : copies (pairs1 ++ pairs2) = copies pairs1 ++ copies pairs2.
Proof. unfold copies. by rewrite fmap_app. Qed.

Lemma make_albums_cons faces_dir i c rest final_groups s :
  make_albums env faces_dir i (c :: rest) final_groups s =
  let p_dir := (faces_dir / ("Person_" +:+ pretty i))%path in
  match mkdir_error env p_dir with
  | Some e => {| trace := []; final := s; result := Raise e |}
  | None =>
      let r1 := copy_images env p_dir (elements (images c)) []
                            {| fs := fs s ∪ {[p_dir]}; polls := polls s |} in
      match result r1 with
      | Raise e => {| trace := trace r1; final := final r1; result := Raise e |}
      | Ok img_list =>
          let r := make_albums env faces_dir (S i) rest (final_groups ++ [img_list])
                               (final r1) in
          {| trace := trace r1 ++ trace r; final := final r; result := result r |}
      end
  end.
Proof.
  cbn [make_albums]. cbv zeta. unfold mkdir.
  unfold mbind, M_bind, bind.
  destruct (mkdir_error env (faces_dir / ("Person_" +:+ pretty i))%path);
    [reflexivity|].
  unfold modify_fs. cbn [trace final result app fs polls].
  destruct (result (copy_images env _ (elements (images c)) [] _)); [|reflexivity].
  destruct (result (make_albums env faces_dir (S i) rest _ _)); reflexivity.
Qed.

(** The album loop, whatever [mkdir] and [copy2] do. *)
Lemma make_albums_any faces_dir clusters :
  forall i final_groups s,
    let r := make_albums env faces_dir i clusters final_groups s in
    polls (final r) = polls s /\ fs s ⊆ fs (final r) /\
    exists pairs,
      trace r = copies pairs /\
      NoDup pairs.*2 /\
      Forall (fun pd =>
                fresh_copy env (fs s) (fs (final r)) pd /\
                pd.1 ∈ all_images clusters /\
                exists j, i <= j < i + length clusters /\
                          parent pd.2 = (faces_dir / ("Person_" +:+ pretty j))%path)
             pairs /\
      match result r with
      | Ok groups =>
          exists new,
            groups = final_groups ++ new /\
            concat new = str <$> pairs.*2 /\
            Forall2 (fun c g => length g = size (images c)) clusters new
      | Raise e =>
          (exists p, mkdir_error env p = Some e) \/
          (exists src d, copy_error env src d = Some e)
      end.
Proof.
  induction clusters as [|c rest IH]; intros i final_groups s; cbv zeta.
  - cbn. split; [done|]. split; [done|]. exists []. cbn.
    split; [done|]. split; [constructor|]. split; [constructor|].
    exists []. rewrite app_nil_r. split; [done|]. split; [done|constructor].
  - rewrite make_albums_cons. cbv zeta.
    set (p_dir := (faces_dir / ("Person_" +:+ pretty i))%path).
    destruct (mkdir_error env p_dir) as [e|] eqn:Hmk.
    { cbn [trace final result]. split; [done|]. split; [done|]. exists []. cbn.
      split; [done|]. split; [constructor|]. split; [constructor|]. left. eauto. }
    set (s1 := {| fs := fs s ∪ {[p_dir]}; polls := polls s |}).
    destruct (copy_images_any p_dir (elements (images c)) [] s1)
      as (Hp1 & Hfs1 & pairs1 & Htr1 & Hpre1 & Hnd1 & Hall1 & Hres1).
    cbv zeta in Hp1, Hfs1, Htr1, Hpre1, Hnd1, Hall1, Hres1.
    set (r1 := copy_images env p_dir (elements (images c)) [] s1) in *.
    assert (Hall1' : forall fs1', fs (final r1) ⊆ fs1' ->
              Forall (fun pd =>
                        fresh_copy env (fs s) fs1' pd /\
                        pd.1 ∈ all_images (c :: rest) /\
                        exists j, i <= j < i + length (c :: rest) /\
                                  parent pd.2 = (faces_dir / ("Person_" +:+ pretty j))%path)
                     pairs1).
    { intros fs1' Hsub. apply Forall_forall. intros pd Hpd.
      pose proof Hpd as Hpd'.
      eapply Forall_forall in Hpd'; [|exact Hall1]. destruct Hpd' as [Hfr Hpar].
      split; [eapply fresh_copy_weaken; [| |exact Hfr]; [subst s1; cbn [fs]; set_solver|done]|].
      split.
      - rewrite all_images_cons. apply elem_of_union. left.
        apply elem_of_elements. eapply elem_of_prefix; [|exact Hpre1].
        apply list_elem_of_fmap. by exists pd.
      - exists i. cbn [length]. split; [lia|done]. }
    destruct (result r1) as [img_list|e] eqn:Hr1.
    2:{ cbn [trace final result]. split; [exact Hp1|].
        split; [subst s1; cbn [fs] in Hfs1; set_solver|].
        exists pairs1. split; [done|]. split; [done|]. split; [by apply Hall1'|].
        right. destruct Hres1 as (src & d & _ & He). eauto. }
    destruct Hres1 as [Himgs Hlist]. rewrite app_nil_l in Hlist.
    destruct (IH (S i) (final_groups ++ [img_list]) (final r1))
      as (Hp & Hfs & pairs & Htr & Hnd & Hall & Hres).
    cbv zeta in Hp, Hfs, Htr, Hnd, Hall, Hres.
    set (r := make_albums env faces_dir (S i) rest (final_groups ++ [img_list]) (final r1))
      in *.
    cbn [trace final result].
    split; [by rewrite Hp, Hp1|].
    split; [subst s1; cbn [fs] in Hfs1; set_solver|].
    exists (pairs1 ++ pairs). split; [by rewrite copies_app, Htr1, Htr|].
    split.
    { rewrite fmap_app. apply NoDup_app. split; [done|]. split; [|done].
      intros d Hd1 Hd2.
      apply list_elem_of_fmap in Hd1 as (pd1 & -> & Hpd1).
      apply list_elem_of_fmap in Hd2 as (pd2 & Heq & Hpd2).
      eapply Forall_forall in Hall1; [|exact Hpd1]. destruct Hall1 as [(_ & Hin1 & _) _].
      eapply Forall_forall in Hall; [|exact Hpd2]. destruct Hall as [(Hnew2 & _) _].
      apply Hnew2. by rewrite <- Heq. }
    split.
    { apply Forall_app. split; [by apply Hall1'|].
      eapply Forall_impl; [exact Hall|].
      intros pd (Hfr & Himg & j & Hj & Hpar).
      split; [eapply fresh_copy_weaken; [| |exact Hfr];
              [subst s1; cbn [fs] in Hfs1; set_solver|done]|].
      split; [rewrite all_images_cons; set_solver|].
      exists j. cbn [length]. split; [lia|done]. }
    destruct (result r) as [groups|e]; [|exact Hres].
    destruct Hres as (new & -> & Hcat & Hlen).
    exists (img_list :: new). split; [by rewrite <- (assoc_L (++))|].
    split.
    { cbn [concat]. rewrite fmap_app, fmap_app, Hcat, Hlist. reflexivity. }
    constructor; [|done].
    rewrite Hlist, !length_fmap. rewrite <- (length_fmap fst pairs1), Himgs.
    reflexivity.
Qed.

End Albums.

Section FaceAny.

Variable env : Env.
Variable stop_event : nat -> bool.
Variable base : Path.
Variable include_sub : bool.

Lemma face_grouping_worker_listing_failed s e :
  FACE_AVAILABLE env = true ->
  result (iter_files env base include_sub s) = Raise e ->
  face_grouping_worker env stop_event base include_sub s =
  {| trace := []; final := s; result := Raise e |}.
Proof.
  intros Hf Hls. destruct (iter_files_run env base include_sub s) as [Ht Hfin].
  unfold face_grouping_worker. rewrite Hf. cbn [negb].
  rewrite run_bind, Hls, Ht, Hfin. reflexivity.
Qed.

Lemma face_finish_run clusters s :
  face_finish env base clusters s =
  let faces_dir := (base / "Faces")%path in
  match mkdir_error env faces_dir with
  | Some e => {| trace := []; final := s; result := Raise e |}
  | None =>
      let r := make_albums env faces_dir 1 clusters []
                           {| fs := fs s ∪ {[faces_dir]}; polls := polls s |} in
      match result r with
      | Raise e => {| trace := trace r; final := final r; result := Raise e |}
      | Ok groups =>
          {| trace := trace r ++
                      [EvLog ("Created " +:+ pretty (length groups) +:+ " face albums.");
                       EvFaceResult groups];
             final := final r; result := Ok tt |}
      end
  end.
Proof.
  unfold face_finish. cbv zeta. unfold mkdir, mbind, M_bind, bind.
  destruct (mkdir_error env (base / "Faces")%path); [reflexivity|].
  unfold modify_fs. cbn [trace final result app fs polls].
  destruct (result (make_albums env _ 1 clusters [] _)); reflexivity.
Qed.

(** A run that finds photos, whatever is cancelled or raised: the
    opening line, one progress call per photo handled, the copies of the
    albums and, unless something raised, the closing line and the
    result. *)
Lemma face_grouping_worker_shape files s :
  FACE_AVAILABLE env = true ->
  result (iter_files env base include_sub s) = Ok files ->
  photos_of env files <> [] ->
  let photos := photos_of env files in
  let r := face_grouping_worker env stop_event base include_sub s in
  exists k pairs tail,
    let clusters := foldl (add_image env) [] (take k photos) in
    k <= length photos /\
    fs s ⊆ fs (final r) /\
    NoDup pairs.*2 /\
    Forall (fun pd =>
              fresh_copy env (fs s) (fs (final r)) pd /\
              pd.1 ∈ all_images clusters /\
              exists j, 1 <= j /\
                        parent pd.2 = (base / "Faces" / ("Person_" +:+ pretty j))%path)
           pairs /\
    trace r =
      EvLog ("Analyzing faces in " +:+ pretty (length photos) +:+ " photos...")
      :: (EvProgress <$> fractions (length photos) 1 k) ++ copies pairs ++ tail /\
    match result r with
    | Ok _ =>
        exists groups,
          tail = [EvLog ("Created " +:+ pretty (length groups) +:+ " face albums.");
                  EvFaceResult groups] /\
          concat groups = str <$> pairs.*2 /\
          Forall2 (fun c g => length g = size (images c)) clusters groups
    | Raise e =>
        tail = [] /\
        ((exists p, mkdir_error env p = Some e) \/
         (exists src d, copy_error env src d = Some e))
    end.
Proof.
  intros Hf Hls Hne photos r. subst r.
  destruct (face_grouping_worker_run env stop_event base include_sub files s Hf Hls Hne)
    as (clusters & Hres & ->).
  fold photos in Hres |- *.
  destruct (cluster_loop_any env stop_event (length photos) photos 0 [] s)
    as (k & Hk & _ & _ & Hres' & Hfs & Htr).
  cbv zeta in Hres', Hfs, Htr.
  set (r0 := cluster_loop env stop_event (length photos) 0 [] photos s) in *.
  rewrite Hres in Hres'. injection Hres' as ->.
  set (clusters := foldl (add_image env) [] (take k photos)).
  rewrite face_finish_run. cbv zeta.
  destruct (mkdir_error env (base / "Faces")%path) as [e|] eqn:Hmk.
  { exists k, [], []. cbn [trace final result]. cbv zeta.
    split; [done|]. split; [by rewrite Hfs|]. split; [constructor|].
    split; [constructor|]. split; [by rewrite Htr, !app_nil_r|].
    split; [done|]. left. eauto. }
  set (s1 := {| fs := fs (final r0) ∪ {[(base / "Faces")%path]}; polls := polls (final r0) |}).
  destruct (make_albums_any env (base / "Faces")%path clusters 1 [] s1)
    as (_ & Hfs1 & pairs & Htr1 & Hnd & Hall & Hres1).
  cbv zeta in Hfs1, Htr1, Hnd, Hall, Hres1.
  set (r1 := make_albums env (base / "Faces")%path 1 clusters [] s1) in *.
  assert (Hsub : fs s ⊆ fs (final r1)).
  { subst s1. cbn [fs] in Hfs1. rewrite Hfs in Hfs1. set_solver. }
  assert (Hall' : Forall (fun pd =>
              fresh_copy env (fs s) (fs (final r1)) pd /\
              pd.1 ∈ all_images clusters /\
              exists j, 1 <= j /\
                        parent pd.2 = (base / "Faces" / ("Person_" +:+ pretty j))%path)
           pairs).
  { eapply Forall_impl; [exact Hall|]. intros pd (Hfr & Himg & j & Hj & Hpar).
    split; [eapply fresh_copy_weaken; [| |exact Hfr];
            [subst s1; cbn [fs]; rewrite Hfs; set_solver|done]|].
    split; [done|]. exists j. split; [lia|done]. }
  destruct (result r1) as [groups|e].
  - destruct Hres1 as (new & Hnew & Hcat & Hlen). rewrite app_nil_l in Hnew. subst new.
    exists k, pairs,
      [EvLog ("Created " +:+ pretty (length groups) +:+ " face albums.");
       EvFaceResult groups].
    cbn [trace final result]. cbv zeta.
    split; [done|]. split; [done|]. split; [done|]. split; [done|].
    split; [by rewrite Htr, Htr1|]. exists groups. by split.
  - exists k, pairs, []. cbn [trace final result]. cbv zeta.
    split; [done|]. split; [done|]. split; [done|]. split; [done|].
    split; [by rewrite Htr, Htr1, app_nil_r|]. by split.
Qed.

End FaceAny.

Lemma placed_of_progress qs : placed_of (EvProgress <$> qs) = [].
Proof. induction qs as [|q qs IH]; [reflexivity|exact IH]. Qed.

Lemma elem_of_copies ev pairs :
  ev ∈ copies pairs -> exists pd, pd ∈ pairs /\ ev = EvCopy pd.1 pd.2.
Proof.
  unfold copies. intros (pd & -> & Hpd)%list_elem_of_fmap. by exists pd.
Qed.

(** X13. Face grouping never overwrites and never removes: the file
    system only grows, nothing is moved or hashed, every copy goes to a
    path that did not exist when the run started, no two copies go to
    the same path, and every copy lands directly in a folder
    [Faces/Person_j] of the base directory. What is copied is a listed
    file classified as a photo in which at least one face was found. *)
Theorem face_albums_never_overwrite (env : Env) (stop_event : nat -> bool)
    (base : Path) (include_sub : bool) (s : State) :
  let r := face_grouping_worker env stop_event base include_sub s in
  fs s ⊆ fs (final r) /\
  (forall a b, EvMove a b ∉ trace r) /\
  (forall p, EvHash p ∉ trace r) /\
  NoDup (placed_of (trace r)).*2 /\
  (forall src d, (src, d) ∈ placed_of (trace r) ->
     (d ∉ fs s) /\ (d ∈ fs (final r)) /\ copy_error env src d = None /\
     (exists j, 1 <= j /\
                parent d = (base / "Faces" / ("Person_" +:+ pretty j))%path) /\
     is_file env src = true /\
     detect_group env src = Some "Photos" /\
     face_encodings_for_image env src <> []).
Proof.
  cbv zeta.
  assert (Hquiet : forall r0 : Res unit,
            fs s = fs (final r0) ->
            (forall ev, ev ∈ trace r0 -> not_io ev) ->
            fs s ⊆ fs (final r0) /\
            (forall a b, EvMove a b ∉ trace r0) /\
            (forall p, EvHash p ∉ trace r0) /\
            NoDup (placed_of (trace r0)).*2 /\
            (forall src d, (src, d) ∈ placed_of (trace r0) ->
               (d ∉ fs s) /\ (d ∈ fs (final r0)) /\ copy_error env src d = None /\
               (exists j, 1 <= j /\
                          parent d = (base / "Faces" / ("Person_" +:+ pretty j))%path) /\
               is_file env src = true /\
               detect_group env src = Some "Photos" /\
               face_encodings_for_image env src <> [])).
  { intros r0 Hfs Hev.
    assert (Hpl : placed_of (trace r0) = []).
    { apply placed_of_quiet, Forall_forall. exact Hev. }
    rewrite Hpl. split; [by rewrite Hfs|].
    split; [intros a b Hin; by apply Hev in Hin|].
    split; [intros p Hin; by apply Hev in Hin|].
    split; [constructor|]. intros src d Hin. by apply elem_of_nil in Hin. }
  destruct (FACE_AVAILABLE env) eqn:Hf.
  2:{ rewrite face_grouping_worker_unavailable by done. apply Hquiet; [done|].
      cbn [trace]. intros ev [->|[->|Hin]%elem_of_cons]%elem_of_cons; try done.
      by apply elem_of_nil in Hin. }
  destruct (result (iter_files env base include_sub s)) as [files|e] eqn:Hls.
  2:{ rewrite (face_grouping_worker_listing_failed _ _ _ _ _ _ Hf Hls).
      apply Hquiet; [done|]. cbn [trace]. intros ev Hin. by apply elem_of_nil in Hin. }
  destruct (decide (photos_of env files = [])) as [Hnil|Hne].
  { rewrite (face_grouping_worker_no_photos _ _ _ _ _ _ Hf Hls Hnil).
    apply Hquiet; [done|].
    cbn [trace]. intros ev [->|[->|Hin]%elem_of_cons]%elem_of_cons; try done.
    by apply elem_of_nil in Hin. }
  clear Hquiet.
  destruct (face_grouping_worker_shape env stop_event base include_sub files s Hf Hls Hne)
    as (k & pairs & tail & Hk & Hfs & Hnd & Hall & Htr & Hres).
  cbv zeta in Hk, Hfs, Hnd, Hall, Htr, Hres.
  set (r := face_grouping_worker env stop_event base include_sub s) in *.
  assert (Htail : tail = [] \/ exists msg groups, tail = [EvLog msg; EvFaceResult groups]).
  { destruct (result r) as [[]|e].
    - destruct Hres as (groups & -> & _). right. eauto.
    - left. tauto. }
  assert (Hpl : placed_of (trace r) = pairs).
  { rewrite Htr. change (placed_of (EvLog ?a :: ?t)) with (placed_of t).
    rewrite !placed_of_app, placed_of_progress, placed_of_copies.
    destruct Htail as [->|(msg & groups & ->)]; cbn; by rewrite app_nil_r. }
  assert (Hevs : forall ev, ev ∈ trace r ->
            not_io ev \/ exists pd, pd ∈ pairs /\ ev = EvCopy pd.1 pd.2).
  { rewrite Htr. intros ev [->|Hin]%elem_of_cons; [by left|].
    apply elem_of_app in Hin as [Hin|Hin].
    { apply list_elem_of_fmap in Hin as (q & -> & _). by left. }
    apply elem_of_app in Hin as [Hin|Hin]; [right; by apply elem_of_copies|].
    left. destruct Htail as [->|(msg & groups & ->)]; [by apply elem_of_nil in Hin|].
    apply elem_of_cons in Hin as [->|Hin]; [done|].
    apply list_elem_of_singleton in Hin as ->. done. }
  rewrite Hpl. split; [done|].
  split. { intros a b Hin. destruct (Hevs _ Hin) as [?|(pd & _ & ?)]; done. }
  split. { intros p Hin. destruct (Hevs _ Hin) as [?|(pd & _ & ?)]; done. }
  split; [done|].
  intros src d Hin. eapply Forall_forall in Hall; [|exact Hin].
  cbn [fst snd] in Hall. destruct Hall as ((Hnew & Hthere & Hcp) & Himg & Hdir).
  split; [done|]. split; [done|]. split; [done|]. split; [done|].
  destruct (add_images_conserve env (take k (photos_of env files)) []) as (_ & Himgs & _).
  cbv zeta in Himgs. rewrite Himgs in Himg.
  apply elem_of_union in Himg as [Himg|Himg];
    [unfold all_images in Himg; cbn in Himg; by apply elem_of_empty in Himg|].
  apply elem_of_list_to_set, list_elem_of_In, List.filter_In in Himg as [Hsrc Hface].
  apply list_elem_of_In in Hsrc.
  assert (Hphoto : src ∈ photos_of env files).
  { eapply elem_of_sublist; [exact Hsrc|apply sublist_take]. }
  unfold photos_of in Hphoto.
  apply list_elem_of_In, List.filter_In in Hphoto as [Hfile Hgroup].
  apply list_elem_of_In in Hfile. apply bool_decide_eq_true in Hgroup.
  pose proof (iter_files_is_file env base include_sub s files Hls) as Hfiles.
  eapply Forall_forall in Hfiles; [|exact Hfile].
  split; [done|]. split; [done|].
  apply negb_true_iff, bool_decide_eq_false in Hface. exact Hface.
Qed.

Lemma add_images_nonempty env photos :
  forall clusters,
    Forall cluster_nonempty clusters ->
    Forall cluster_nonempty (foldl (add_image env) clusters photos).
Proof.
  induction photos as [|p photos IH]; intros clusters Hcl; [done|].
  cbn [foldl]. apply IH. by apply add_image_invariants.
Qed.

Lemma face_results_of_app tr1 tr2 :
  face_results_of (tr1 ++ tr2) = face_results_of tr1 ++ face_results_of tr2.
Proof. apply omap_app. Qed.

Lemma face_results_of_progress qs : face_results_of (EvProgress <$> qs) = [].
Proof. induction qs as [|q qs IH]; [reflexivity|exact IH]. Qed.

Lemma face_results_of_copies pairs : face_results_of (copies pairs) = [].
Proof. induction pairs as [|pd pairs IH]; [reflexivity|exact IH]. Qed.

Lemma logs_of_progress qs : logs_of (EvProgress <$> qs) = [].
Proof. induction qs as [|q qs IH]; [reflexivity|exact IH]. Qed.

Lemma logs_of_copies pairs : logs_of (copies pairs) = [].
Proof. induction pairs as [|pd pairs IH]; [reflexivity|exact IH]. Qed.

Lemma albums_nonempty (clusters : list cluster) (groups : list (list string)) :
  Forall2 (fun c g => length g = size (images c)) clusters groups ->
  Forall cluster_nonempty clusters -> Forall (fun g => g <> []) groups.
Proof.
  induction 1 as [|c g clusters groups Hcg _ IH]; [constructor|].
  intros Hcl. apply Forall_cons in Hcl as [[_ Hc] Hcl].
  constructor; [|by apply IH].
  intros ->. cbn [length] in Hcg. symmetry in Hcg.
  apply size_empty_iff in Hcg. apply Hc. by apply leibniz_equiv.
Qed.

(** X14. What face grouping delivers. When it returns after having found
    photos, [result_cb] is called exactly once, as the last callback,
    with albums that list the destinations of exactly the copies made,
    in the order they were made, and no album is empty. When face
    recognition is missing or no photo is found it returns without
    calling [result_cb]. When it raises, which it does on a failure of
    the listing, of a [mkdir] or of a copy, [result_cb] is not called
    and the log does not mention the error. *)
Theorem face_result_lists_the_copies (env : Env) (stop_event : nat -> bool)
    (base : Path) (include_sub : bool) (s : State) :
  let r := face_grouping_worker env stop_event base include_sub s in
  match result r with
  | Ok _ =>
      (face_results_of (trace r) = [] /\
       (trace r = [EvLog "Face recognition not installed."; EvProgress 1] \/
        trace r = [EvLog "No photos found."; EvProgress 1])) \/
      (exists groups,
          face_results_of (trace r) = [groups] /\
          last (trace r) = Some (EvFaceResult groups) /\
          last_log (trace r) =
            Some ("Created " +:+ pretty (length groups) +:+ " face albums.") /\
          concat groups = str <$> (placed_of (trace r)).*2 /\
          Forall (fun g => g <> []) groups)
  | Raise e =>
      face_results_of (trace r) = [] /\
      (logs_of (trace r) = [] \/
       exists n : nat, logs_of (trace r) =
                       ["Analyzing faces in " +:+ pretty n +:+ " photos..."]) /\
      (result (iter_files env base include_sub s) = Raise e \/
       (exists p, mkdir_error env p = Some e) \/
       (exists src d, copy_error env src d = Some e))
  end.
Proof.
  cbv zeta.
  destruct (FACE_AVAILABLE env) eqn:Hf.
  2:{ rewrite face_grouping_worker_unavailable by done. cbn [result trace].
      left. split; [done|]. by left. }
  destruct (result (iter_files env base include_sub s)) as [files|e] eqn:Hls.
  2:{ rewrite (face_grouping_worker_listing_failed _ _ _ _ _ _ Hf Hls).
      cbn [result trace]. split; [done|]. split; [by left|]. by left. }
  destruct (decide (photos_of env files = [])) as [Hnil|Hne].
  { rewrite (face_grouping_worker_no_photos _ _ _ _ _ _ Hf Hls Hnil).
    cbn [result trace]. left. split; [done|]. by right. }
  destruct (face_grouping_worker_shape env stop_event base include_sub files s Hf Hls Hne)
    as (k & pairs & tail & Hk & Hfs & Hnd & Hall & Htr & Hres).
  cbv zeta in Hk, Hfs, Hnd, Hall, Htr, Hres.
  set (r := face_grouping_worker env stop_event base include_sub s) in *.
  destruct (result r) as [[]|e].
  - right. destruct Hres as (groups & -> & Hcat & Hlen).
    exists groups. rewrite Htr.
    change (face_results_of (EvLog ?a :: ?t)) with (face_results_of t).
    change (placed_of (EvLog ?a :: ?t)) with (placed_of t).
    unfold last_log. change (logs_of (EvLog ?a :: ?t)) with (a :: logs_of t).
    rewrite !face_results_of_app, face_results_of_progress, face_results_of_copies.
    rewrite !placed_of_app, placed_of_progress, placed_of_copies.
    rewrite !logs_of_app, logs_of_progress, logs_of_copies.
    cbn [app face_results_of placed_of logs_of omap list_omap].
    split; [reflexivity|]. split.
    { rewrite last_cons, !last_app. reflexivity. }
    split; [reflexivity|]. split; [by rewrite app_nil_r|].
    pose proof (add_images_nonempty env (take k (photos_of env files)) []
                  (Forall_nil_2 _)) as Hcl.
    by eapply albums_nonempty.
  - destruct Hres as [-> Herr]. rewrite Htr, !app_nil_r.
    change (face_results_of (EvLog ?a :: ?t)) with (face_results_of t).
    change (logs_of (EvLog ?a :: ?t)) with (a :: logs_of t).
    rewrite !face_results_of_app, face_results_of_progress, face_results_of_copies.
    rewrite !logs_of_app, logs_of_progress, logs_of_copies.
    split; [done|]. split; [right; eauto|]. by right.
Qed.

(* ===================================================================== *)
(** ** Progress values                                                    *)
(* ===================================================================== *)

Lemma py_div_range i n : 1 <= i <= n -> (0 < py_div i n)%Q /\ (py_div i n <= 1)%Q.
Proof.
  intros Hi. unfold py_div, Qlt, Qle. cbn [Qnum Qden].
  assert (Hpos : Z.pos (Pos.of_nat n) = Z.of_nat n).
  { rewrite <- positive_nat_Z, Nat2Pos.id by lia. reflexivity. }
  rewrite Hpos. lia.
Qed.

Lemma py_div_mono i j n : i <= j -> (py_div i n <= py_div j n)%Q.
Proof.
  intros Hij. unfold py_div, Qle. cbn [Qnum Qden].
  apply Z.mul_le_mono_nonneg_r; lia.
Qed.

Lemma fractions_ok n k :
  forall i, 1 <= i -> i + k <= S n -> progress_ok (fractions n i k).
Proof.
  induction k as [|k IH]; intros i Hi Hk.
  - split; constructor.
  - rewrite fractions_cons. destruct (IH (S i)) as [Hs Hr]; [lia|lia|].
    split.
    + constructor; [done|]. unfold fractions. apply Forall_forall. intros q Hq.
      apply list_elem_of_In, in_map_iff in Hq as (j & <- & Hj).
      apply in_seq in Hj. apply py_div_mono. lia.
    + constructor; [|done]. apply py_div_range. lia.
Qed.

Lemma progress_ok_nil : progress_ok [].
Proof. split; constructor. Qed.

Lemma progress_ok_one : progress_ok [1%Q].
Proof.
  split; [repeat constructor|]. constructor; [|constructor].
  split; [reflexivity|apply Qle_refl].
Qed.

Lemma progress_ok_snoc_one qs : progress_ok qs -> progress_ok (qs ++ [1%Q]).
Proof.
  intros [Hs Hr]. split.
  - induction Hs as [|q qs _ IH Hq]; [repeat constructor|].
    apply Forall_cons in Hr as [[_ Hq1] Hr]. cbn [app]. constructor; [by apply IH|].
    apply Forall_app. split; [done|]. by constructor.
  - apply Forall_app. split; [done|]. apply progress_ok_one.
Qed.

Section ProgressAny.

Variable env : Env.
Variable stop_event : nat -> bool.

Lemma sort_loop_progress_any base move_mode groups_selected exif_by_date total files :
  forall idx s,
    exists k, k <= length files /\
      progress_of (trace (sort_loop env stop_event base move_mode groups_selected
                                    exif_by_date total idx files s)) =
      fractions total idx k.
Proof.
  induction files as [|f rest IH]; intros idx s.
  - exists 0. by split.
  - destruct (stop_event (polls s)) eqn:Hstop.
    + rewrite sort_loop_stopped by done. exists 0. split; [lia|reflexivity].
    + rewrite sort_loop_step by done. cbv zeta. cbn [trace].
      set (s1 := {| fs := fs s; polls := S (polls s) |}).
      destruct (sort_body_run env base move_mode groups_selected exif_by_date f s1)
        as (_ & _ & Hq).
      set (r1 := try_except _ _ s1) in *.
      destruct (IH (S idx) (final r1)) as (k & Hk & Hpr).
      exists (S k). split; [cbn [length]; lia|].
      rewrite progress_of_app, Hq. cbn [app].
      change (progress_of (EvProgress ?q :: ?t)) with (q :: progress_of t).
      by rewrite Hpr, fractions_cons.
Qed.

Lemma progress_of_hashes (group : list Path) : progress_of (EvHash <$> group) = [].
Proof. induction group as [|p group IH]; [reflexivity|exact IH]. Qed.

Lemma scan_buckets_progress_any total groups :
  forall cur duplicates s,
    exists k, k <= length groups /\
      progress_of (trace (scan_buckets env stop_event total cur duplicates groups s)) =
      fractions total (S cur) k.
Proof.
  induction groups as [|g rest IH]; intros cur duplicates s.
  - exists 0. by split.
  - destruct (stop_event (polls s)) eqn:Hstop.
    + rewrite scan_buckets_stopped by done. exists 0. split; [lia|reflexivity].
    + rewrite scan_buckets_step by done. cbv zeta.
      set (s1 := {| fs := fs s; polls := S (polls s) |}).
      destruct (length g <? 2)%nat.
      * destruct (IH (S cur) duplicates s1) as (k & Hk & Hpr).
        exists (S k). split; [cbn [length]; lia|]. cbn [trace].
        change (progress_of (EvProgress ?q :: ?t)) with (q :: progress_of t).
        by rewrite Hpr, fractions_cons.
      * destruct (result (collect_duplicates env _ duplicates s1)) as [dups'|e].
        -- destruct (IH (S cur) dups' s1) as (k & Hk & Hpr).
           exists (S k). split; [cbn [length]; lia|]. cbn [trace].
           rewrite progress_of_app, progress_of_hashes. cbn [app].
           change (progress_of (EvProgress ?q :: ?t)) with (q :: progress_of t).
           by rewrite Hpr, fractions_cons.
        -- exists 0. split; [lia|]. cbn [trace]. apply progress_of_hashes.
Qed.

End ProgressAny.

Lemma progress_of_progress qs : progress_of (EvProgress <$> qs) = qs.
Proof. induction qs as [|q qs IH]; [reflexivity|]. cbn. f_equal. exact IH. Qed.

Lemma progress_of_copies pairs : progress_of (copies pairs) = [].
Proof. induction pairs as [|pd pairs IH]; [reflexivity|exact IH]. Qed.

(** X15. The values passed to [progress_cb] never go back and stay in
    the range of a progress bar, above 0 and at most 1, in every run of
    each of the three workers, whatever is cancelled or raised. *)
Theorem progress_never_goes_back (env : Env) (stop_event : nat -> bool)
    (base : Path) (include_sub : bool) (s : State) :
  (forall move_mode groups_selected exif_by_date,
      progress_ok (progress_of (trace (sort_worker env stop_event base move_mode
                                                   include_sub groups_selected
                                                   exif_by_date s)))) /\
  (forall images_only use_phash perceptual_threshold,
      progress_ok (progress_of (trace (duplicate_scan_worker
                                         env stop_event base include_sub images_only
                                         use_phash perceptual_threshold s)))) /\
  progress_ok (progress_of (trace (face_grouping_worker env stop_event base
                                                        include_sub s))).
Proof.
  split; [|split].
  - intros move_mode groups_selected exif_by_date.
    destruct (result (iter_files env base include_sub s)) as [files|e] eqn:Hls.
    2:{ rewrite (sort_worker_scan_failed _ _ _ _ _ _ _ _ _ Hls). apply progress_ok_nil. }
    destruct files as [|f0 files].
    { rewrite (sort_worker_empty _ _ _ _ _ _ _ _ Hls). apply progress_ok_one. }
    rewrite (sort_worker_cases _ _ _ _ _ _ _ _ _ Hls) by done. cbv zeta.
    destruct (result (ensure_dirs env base DEFAULT_FOLDERS s)) as [[]|e];
      [|apply progress_ok_nil].
    cbn [trace].
    change (progress_of (EvLog ?a :: EvLog ?b :: ?t)) with (progress_of t).
    rewrite progress_of_app.
    destruct (sort_loop_progress_any env stop_event base move_mode groups_selected
                exif_by_date (length (f0 :: files)) (f0 :: files) 1
                (final (ensure_dirs env base DEFAULT_FOLDERS s))) as (k & Hk & ->).
    apply progress_ok_snoc_one, fractions_ok; lia.
  - intros images_only use_phash perceptual_threshold.
    destruct (result (iter_files env base include_sub s)) as [files|e] eqn:Hls.
    2:{ rewrite (duplicate_scan_worker_listing_failed _ _ _ _ _ _ _ _ _ Hls).
        apply progress_ok_nil. }
    destruct (decide (scan_listing env images_only files = [])) as [Hnil|Hne].
    { rewrite (duplicate_scan_worker_empty _ _ _ _ _ _ _ _ _ Hls Hnil).
      apply progress_ok_nil. }
    rewrite (duplicate_scan_worker_run _ _ _ _ _ _ _ _ _ Hls Hne). cbv zeta.
    cbn [trace].
    change (progress_of (EvLog ?a :: EvLog ?b :: ?t)) with (progress_of t).
    rewrite progress_of_app.
    set (groups := size_buckets env (scan_listing env images_only files)).
    destruct (scan_buckets_progress_any env stop_event (length groups) groups 0 [] s)
      as (k & Hk & ->).
    assert (Htail : progress_of
                      match result (scan_buckets env stop_event (length groups) 0 []
                                                 groups s) with
                      | Ok dups =>
                          [EvDupResult dups;
                           EvLog ("Found " +:+ pretty (length dups) +:+
                                  " duplicate groups.")]
                      | Raise _ => []
                      end = []).
    { destruct (result (scan_buckets env stop_event (length groups) 0 [] groups s));
        reflexivity. }
    rewrite Htail, app_nil_r. apply fractions_ok; lia.
  - destruct (FACE_AVAILABLE env) eqn:Hf.
    2:{ rewrite face_grouping_worker_unavailable by done. apply progress_ok_one. }
    destruct (result (iter_files env base include_sub s)) as [files|e] eqn:Hls.
    2:{ rewrite (face_grouping_worker_listing_failed _ _ _ _ _ _ Hf Hls).
        apply progress_ok_nil. }
    destruct (decide (photos_of env files = [])) as [Hnil|Hne].
    { rewrite (face_grouping_worker_no_photos _ _ _ _ _ _ Hf Hls Hnil).
      apply progress_ok_one. }
    destruct (face_grouping_worker_shape env stop_event base include_sub files s
                Hf Hls Hne)
      as (k & pairs & tail & Hk & _ & _ & _ & Htr & Hres).
    cbv zeta in Hk, Htr, Hres. rewrite Htr.
    change (progress_of (EvLog ?a :: ?t)) with (progress_of t).
    rewrite !progress_of_app, progress_of_progress, progress_of_copies.
    assert (Htail : progress_of tail = []).
    { destruct (result (face_grouping_worker env stop_event base include_sub s))
        as [[]|e].
      - by destruct Hres as (groups & -> & _).
      - by destruct Hres as [-> _]. }
    rewrite Htail, !app_nil_r. apply fractions_ok; lia.
Qed.

(* ===================================================================== *)
(** ** The read loop of [sha256]                                          *)
(* ===================================================================== *)

Lemma string_app_nil_r (a : string) : a +:+ "" = a.
Proof.
  induction a as [|x a IH]; [reflexivity|]. rewrite string_app_cons. by rewrite IH.
Qed.

Lemma bytes_take_drop n : forall s, bytes_take n s +:+ bytes_drop n s = s.
Proof.
  induction n as [|n IH]; intros [|a s]; try reflexivity.
  cbn [bytes_take bytes_drop]. rewrite string_app_cons. by rewrite IH.
Qed.

Lemma bytes_drop_length n : forall s,
  String.length (bytes_drop n s) = String.length s - n.
Proof.
  induction n as [|n IH]; intros [|a s]; try reflexivity.
  cbn [bytes_drop String.length]. by rewrite IH.
Qed.

Lemma feed_chunks_all (env : Env) (chunk : Z) :
  chunk = (-1)%Z \/ ((1 <= chunk)%Z /\ alloc_error env chunk = None) ->
  forall fuel rest fed,
    String.length rest < fuel ->
    feed_chunks env fuel chunk rest fed = Some (Ok (fed +:+ rest)).
Proof.
  intros Hchunk. induction fuel as [|fuel IH]; intros rest fed Hfuel; [lia|].
  cbn [feed_chunks]. unfold read.
  destruct Hchunk as [->|[Hpos Hall]].
  - change (-1 <? -1)%Z with false. change (-1 =? -1)%Z with true. cbv iota.
    destruct rest as [|a rest].
    + cbn. by rewrite string_app_nil_r.
    + cbn [String.eqb]. cbn [String.length] in Hfuel.
      destruct fuel as [|fuel']; [lia|].
      cbn [feed_chunks]. unfold read.
      change (-1 <? -1)%Z with false. change (-1 =? -1)%Z with true. cbv iota.
      cbn [String.eqb]. reflexivity.
  - destruct (chunk <? -1)%Z eqn:E1; [apply Z.ltb_lt in E1; lia|].
    destruct (chunk =? -1)%Z eqn:E2; [apply Z.eqb_eq in E2; lia|].
    destruct (chunk =? 0)%Z eqn:E3; [apply Z.eqb_eq in E3; lia|].
    rewrite Hall.
    destruct rest as [|a rest].
    { destruct (Z.to_nat chunk); cbn; by rewrite string_app_nil_r. }
    cbn [String.length] in Hfuel.
    destruct (Z.to_nat chunk) as [|n] eqn:Hn; [lia|].
    cbn [bytes_take bytes_drop String.eqb].
    rewrite IH by (rewrite bytes_drop_length; lia).
    rewrite string_app_assoc, string_app_cons, bytes_take_drop. reflexivity.
Qed.

(** X16. Reading a file in chunks gives [sha256] the digest of the whole
    file for the chunk sizes [read] accepts: for a chunk size of -1, and
    for a positive one whose buffer can be allocated (the default of
    1024 * 1024 bytes among them), the read loop ends and has fed the
    hasher exactly the content of the file, so the result is the digest
    of the content, which is what the duplicate scan relies on. With a
    chunk size of 0 the first read returns nothing and every readable
    file gets the digest of the empty string. A chunk size below -1 makes
    the first read raise ValueError, and a positive one too large to
    allocate makes it raise the allocation error; the exception leaves
    [sha256]. A file that cannot be opened raises in every case. *)
Theorem sha256_reads_whole_file (env : Env) (path : Path) (chunk : Z) (s : State) :
  (forall content,
      feed_chunks env (S (String.length content)) chunk content "" =
      Some (if (chunk <? -1)%Z then Raise "read length must be non-negative or -1"
            else if (chunk =? 0)%Z then Ok ""
            else if (chunk =? -1)%Z then Ok content
            else match alloc_error env chunk with
                 | Some e => Raise e
                 | None => Ok content
                 end)) /\
  (chunk = (-1)%Z \/ ((1 <= chunk)%Z /\ alloc_error env chunk = None) ->
   sha256_chunked env path chunk s = sha256 env path s) /\
  (alloc_error env (1024 * 1024) = None ->
   sha256_chunked env path (1024 * 1024) s = sha256 env path s) /\
  (forall content,
      file_bytes env path = Ok content ->
      result (sha256_chunked env path 0 s) = Ok (hexdigest env "")) /\
  (forall content,
      file_bytes env path = Ok content -> (chunk < -1)%Z ->
      result (sha256_chunked env path chunk s)
      = Raise "read length must be non-negative or -1") /\
  (forall content e,
      file_bytes env path = Ok content -> (1 <= chunk)%Z ->
      alloc_error env chunk = Some e ->
      result (sha256_chunked env path chunk s) = Raise e) /\
  (forall e,
      file_bytes env path = Raise e ->
      result (sha256_chunked env path chunk s) = Raise e).
Proof.
  assert (Hall : forall c,
            c = (-1)%Z \/ ((1 <= c)%Z /\ alloc_error env c = None) ->
            sha256_chunked env path c s = sha256 env path s).
  { intros c Hc. unfold sha256_chunked, sha256.
    unfold mbind, M_bind, bind, emit. cbn [trace final result app].
    destruct (file_bytes env path) as [content|e]; [|reflexivity].
    cbn [lift ret raise trace final result app].
    rewrite (feed_chunks_all env c Hc) by lia. reflexivity. }
  assert (Hfeed : forall content,
      feed_chunks env (S (String.length content)) chunk content "" =
      Some (if (chunk <? -1)%Z then Raise "read length must be non-negative or -1"
            else if (chunk =? 0)%Z then Ok ""
            else if (chunk =? -1)%Z then Ok content
            else match alloc_error env chunk with
                 | Some e => Raise e
                 | None => Ok content
                 end)).
  { intros content.
    destruct (chunk <? -1)%Z eqn:E1.
    { cbn [feed_chunks]. unfold read. by rewrite E1. }
    destruct (chunk =? 0)%Z eqn:E3.
    { apply Z.eqb_eq in E3 as ->. cbn [feed_chunks]. unfold read.
      by destruct content. }
    destruct (chunk =? -1)%Z eqn:E2.
    { apply Z.eqb_eq in E2 as ->.
      by rewrite (feed_chunks_all env (-1)%Z) by (first [by left|lia]). }
    apply Z.ltb_ge in E1. apply Z.eqb_neq in E2, E3.
    destruct (alloc_error env chunk) as [e|] eqn:Ha.
    - cbn [feed_chunks]. unfold read.
      destruct (chunk <? -1)%Z eqn:E1'; [apply Z.ltb_lt in E1'; lia|].
      destruct (chunk =? -1)%Z eqn:E2'; [apply Z.eqb_eq in E2'; lia|].
      destruct (chunk =? 0)%Z eqn:E3'; [apply Z.eqb_eq in E3'; lia|].
      by rewrite Ha.
    - by rewrite (feed_chunks_all env chunk) by (first [right; split; [lia|done]|lia]). }
  assert (Hrun : forall content,
      file_bytes env path = Ok content ->
      result (sha256_chunked env path chunk s) =
      match feed_chunks env (S (String.length content)) chunk content "" with
      | Some (Ok fed) => Ok (hexdigest env fed)
      | Some (Raise e) => Raise e
      | None => Raise "read loop did not end"
      end).
  { intros content Hc. unfold sha256_chunked.
    unfold mbind, M_bind, bind, emit. cbn [trace final result app]. rewrite Hc.
    cbn [lift ret raise trace final result app].
    by destruct (feed_chunks env _ chunk content "") as [[fed|e]|]. }
  split; [exact Hfeed|]. split; [apply Hall|]. split.
  { intros Ha. apply Hall. right. split; [lia|done]. }
  split.
  { intros content Hc. unfold sha256_chunked.
    unfold mbind, M_bind, bind, emit. cbn [trace final result app]. rewrite Hc.
    cbn [lift ret raise trace final result app feed_chunks]. unfold read.
    by destruct content. }
  split.
  { intros content Hc Hneg. rewrite (Hrun content Hc), Hfeed.
    destruct (chunk <? -1)%Z eqn:E1; [done|]. apply Z.ltb_ge in E1. lia. }
  split.
  { intros content e Hc Hpos Ha. rewrite (Hrun content Hc), Hfeed.
    destruct (chunk <? -1)%Z eqn:E1; [apply Z.ltb_lt in E1; lia|].
    destruct (chunk =? 0)%Z eqn:E3; [apply Z.eqb_eq in E3; lia|].
    destruct (chunk =? -1)%Z eqn:E2; [apply Z.eqb_eq in E2; lia|].
    by rewrite Ha. }
  intros e He. unfold sha256_chunked.
  unfold mbind, M_bind, bind, emit. cbn [trace final result app]. by rewrite He.
Qed.

Lemma sha256_reads_whole_file_witness :
  sha256_chunked Demo.env Demo.a 2 Demo.start = sha256 Demo.env Demo.a Demo.start /\
  result (sha256_chunked Demo.env Demo.a 2 Demo.start) = Ok "sha256:image" /\
  result (sha256_chunked Demo.env Demo.a (-2) Demo.start)
  = Raise "read length must be non-negative or -1" /\
  result (sha256_chunked Demo.env Demo.a (4 * 1024 * 1024) Demo.start)
  = Raise "MemoryError".
Proof.
  destruct (sha256_reads_whole_file Demo.env Demo.a 2 Demo.start) as (_ & Heq & _).
  destruct (sha256_reads_whole_file Demo.env Demo.a (-2) Demo.start)
    as (_ & _ & _ & _ & Hneg & _).
  destruct (sha256_reads_whole_file Demo.env Demo.a (4 * 1024 * 1024) Demo.start)
    as (_ & _ & _ & _ & _ & Hbig & _).
  split; [apply Heq; right; split; [lia|reflexivity]|].
  split; [rewrite Heq by (right; split; [lia|reflexivity]); reflexivity|].
  split; [by eapply Hneg; [reflexivity|lia]|].
  by eapply Hbig; [reflexivity|lia|reflexivity].
Defined.

(* ===================================================================== *)
(** ** Creating the folders                                               *)
(* ===================================================================== *)

Lemma mkdir_all_prefix env base (before : list string) :
  forall s (k : M unit),
    (forall g, g ∈ before -> mkdir_error env (base / g)%path = None) ->
    foldr (fun g k => mkdir env (base / g)%path;; k) k before s =
    let s1 := {| fs := fs s ∪ list_to_set ((fun g => (base / g)%path) <$> before);
                 polls := polls s |} in
    {| trace := trace (k s1); final := final (k s1); result := result (k s1) |}.
Proof.
  induction before as [|g before IH]; intros s k Hok; cbv zeta.
  - cbn [foldr fmap list_fmap list_to_set].
    replace {| fs := fs s ∪ ∅; polls := polls s |} with s.
    + by destruct (k s).
    + destruct s as [fs0 p0]. cbn [fs polls]. f_equal. set_solver.
  - cbn [foldr]. rewrite run_bind.
    assert (Hm : mkdir env (base / g)%path s =
                 {| trace := [];
                    final := {| fs := fs s ∪ {[(base / g)%path]}; polls := polls s |};
                    result := Ok tt |}).
    { unfold mkdir. by rewrite Hok by (apply elem_of_cons; by left). }
    rewrite Hm. cbn [trace final result app].
    rewrite IH by (intros g' Hg'; apply Hok, elem_of_cons; by right).
    cbv zeta. cbn [fs polls fmap list_fmap list_to_set].
    replace (fs s ∪ {[(base / g)%path]} ∪
             list_to_set ((fun g0 => (base / g0)%path) <$> before))
      with (fs s ∪ ({[(base / g)%path]} ∪
                    list_to_set ((fun g0 => (base / g0)%path) <$> before)))
      by set_solver.
    by destruct (result (k _)).
Qed.

(** X17. [ensure_dirs] creates the folders in the order given and stops
    at the first one that cannot be created: when every [mkdir]
    succeeds, all the folders exist afterwards; otherwise it raises the
    error of the first failing [mkdir], the folders before it have been
    created and those after it have not been tried. An empty list of
    groups stands for the ten default folders. Nothing is logged. *)
Theorem ensure_dirs_stops_at_first_failure (env : Env) (base : Path)
    (groups : list string) (s : State) :
  let gs := match groups with [] => DEFAULT_FOLDERS | _ => groups end in
  let dir := fun g => (base / g)%path in
  let r := ensure_dirs env base groups s in
  trace r = [] /\ polls (final r) = polls s /\
  ((forall g, g ∈ gs -> mkdir_error env (dir g) = None) ->
   result r = Ok tt /\ fs (final r) = fs s ∪ list_to_set (dir <$> gs)) /\
  (forall before g after e,
      gs = before ++ g :: after ->
      (forall g', g' ∈ before -> mkdir_error env (dir g') = None) ->
      mkdir_error env (dir g) = Some e ->
      result r = Raise e /\ fs (final r) = fs s ∪ list_to_set (dir <$> before)).
Proof.
  cbv zeta. unfold ensure_dirs. cbv zeta.
  set (gs := match groups with [] => DEFAULT_FOLDERS | _ => groups end).
  destruct (mkdir_all_any env base gs s) as (Ht & Hp & _).
  cbv zeta in Ht, Hp. split; [exact Ht|]. split; [exact Hp|]. split.
  - intros Hok. rewrite (mkdir_all_prefix env base gs s (mret tt) Hok). cbv zeta.
    cbn [mret M_ret ret trace final result fs]. by split.
  - intros before g after e -> Hok He. rewrite foldr_app.
    rewrite (mkdir_all_prefix env base before s _ Hok). cbv zeta.
    cbn [foldr]. rewrite run_bind.
    assert (Hm : forall s1, mkdir env (base / g)%path s1 =
                            {| trace := []; final := s1; result := Raise e |}).
    { intros s1. unfold mkdir. by rewrite He. }
    rewrite Hm. cbn [trace final result fs]. by split.
Qed.

(* ===================================================================== *)
(** ** Where a sorted file goes                                           *)
(* ===================================================================== *)

Lemma unique_dest_loop_from ex dest fuel :
  forall i r, unique_dest_loop ex dest fuel i = Some r ->
              exists n, i <= n /\ r = candidate dest n.
Proof.
  induction fuel as [|fuel IH]; intros i r; cbn [unique_dest_loop]; [discriminate|].
  cbv zeta. destruct (negb (ex (candidate dest i))).
  - intros [= <-]. exists i. by split.
  - intros Hr. destruct (IH (S i) r Hr) as (n & Hn & ->). exists n. split; [lia|done].
Qed.

(** The name [unique_dest] settles on: the one asked for, or that one
    with a counter before the suffix. *)
Lemma unique_dest_name fs0 dest :
  name (unique_dest fs0 dest) = name dest \/
  exists n, 1 <= n /\
            name (unique_dest fs0 dest) =
            stem dest +:+ " (" +:+ pretty n +:+ ")" +:+ suffix dest.
Proof.
  pose proof (unique_dest_fuel_enough fs0 dest) as E. unfold unique_dest_fuel in E.
  destruct (negb (path_exists fs0 dest)); [left; by injection E as <-|].
  apply unique_dest_loop_from in E as (n & Hn & ->). right. exists n.
  split; [done|]. unfold candidate. by rewrite name_div.
Qed.

Lemma stem_div (p : Path) (x : string) : stem (p / x)%path = stem [x].
Proof. unfold stem. by rewrite name_div. Qed.

Lemma suffix_div (p : Path) (x : string) : suffix (p / x)%path = suffix [x].
Proof. unfold suffix. by rewrite name_div. Qed.

Lemma stem_name (p : Path) : stem [name p] = stem p.
Proof. reflexivity. Qed.

Lemma suffix_name (p : Path) : suffix [name p] = suffix p.
Proof. reflexivity. Qed.

Section SortDestination.

Variable env : Env.
Variable stop_event : nat -> bool.
Variable base : Path.
Variable move_mode : bool.
Variable groups_selected : list string.
Variable exif_by_date : bool.

Lemma sort_item_placed f s :
  let r := try_except
             (sort_item env base move_mode groups_selected exif_by_date f)
             (fun e => log_cb ("Error " +:+ name f +:+ ": " +:+ e)) s in
  forall src d, (src, d) ∈ placed_of (trace r) ->
                sorted_to env base groups_selected exif_by_date src d.
Proof.
  cbv zeta. rewrite run_try_except. unfold sort_item.
  destruct (effective_group env groups_selected f) as [group|] eqn:Hg.
  2:{ cbn [raise trace final result log_cb emit app]. intros src d Hin.
      cbn in Hin. by apply elem_of_nil in Hin. }
  cbv zeta.
  set (target_dir :=
         if String.eqb group "Photos" && exif_by_date && PIL_AVAILABLE env
         then match get_exif_date env f with
              | Some exif_dt =>
                  (base / group / pretty (year exif_dt) / Str.pad2 (month exif_dt))%path
              | None => (base / group)%path
              end
         else (base / group)%path).
  assert (Htarget : target_dir =
            match (if String.eqb group "Photos" && exif_by_date && PIL_AVAILABLE env
                   then get_exif_date env f else None) with
            | Some dt => (base / group / pretty (year dt) / Str.pad2 (month dt))%path
            | None => (base / group)%path
            end).
  { subst target_dir. by destruct (_ && _). }
  clearbody target_dir.
  assert (Hgoal : forall fs1 src d,
            (src, d) ∈ [(f, unique_dest fs1 (target_dir / name f)%path)] ->
            sorted_to env base groups_selected exif_by_date src d).
  { intros fs1 src d Hin. apply list_elem_of_singleton in Hin. injection Hin as -> ->.
    exists group. split; [done|]. split.
    - by rewrite parent_unique_dest, parent_div.
    - destruct (unique_dest_name fs1 (target_dir / name f)%path) as [Hn|(n & Hn & Heq)].
      + left. by rewrite Hn, name_div.
      + right. exists n. split; [done|].
        by rewrite Heq, stem_div, suffix_div, stem_name, suffix_name. }
  destruct move_mode; cbv iota; rewrite run_bind.
  - rewrite safe_move_run, parent_div.
    destruct (mkdir_error env target_dir) as [e|].
    { cbn. intros src d Hin. by apply elem_of_nil in Hin. }
    cbv zeta. destruct (move_error env f _) as [e|].
    { cbn. intros src d Hin. by apply elem_of_nil in Hin. }
    cbn [raise trace final result log_cb emit app]. apply Hgoal.
  - rewrite safe_copy_run, parent_div.
    destruct (mkdir_error env target_dir) as [e|].
    { cbn. intros src d Hin. by apply elem_of_nil in Hin. }
    cbv zeta. destruct (copy_error env f _) as [e|].
    { cbn. intros src d Hin. by apply elem_of_nil in Hin. }
    cbn [raise trace final result log_cb emit app]. apply Hgoal.
Qed.

Lemma sort_loop_placed total files :
  forall idx s src d,
    (src, d) ∈ placed_of (trace (sort_loop env stop_event base move_mode groups_selected
                                           exif_by_date total idx files s)) ->
    sorted_to env base groups_selected exif_by_date src d.
Proof.
  induction files as [|f rest IH]; intros idx s src d.
  - cbn. intros Hin. by apply elem_of_nil in Hin.
  - destruct (stop_event (polls s)) eqn:Hstop.
    + rewrite sort_loop_stopped by done. cbn. intros Hin. by apply elem_of_nil in Hin.
    + rewrite sort_loop_step by done. cbv zeta. cbn [trace].
      rewrite placed_of_app.
      change (placed_of (EvProgress ?q :: ?t)) with (placed_of t).
      intros [Hin|Hin]%elem_of_app.
      * by eapply sort_item_placed.
      * by eapply IH.
Qed.

End SortDestination.

(** X18. Where a sort puts a file. Every file that a sort copies or
    moves goes into the folder of its category under the base
    directory, the category being [Others] when the detected one is not
    among the selected ones; a photo with an EXIF date goes into the
    folder of its year and its two-digit month below [Photos] when
    sorting by date is on and PIL is there. The file keeps its name, or
    gets a counter, from 1 on, between its stem and its suffix. *)
Theorem sort_destination (env : Env) (stop_event : nat -> bool) (base : Path)
    (move_mode include_sub : bool) (groups_selected : list string)
    (exif_by_date : bool) (s : State) (src d : Path) :
  (src, d) ∈ placed_of (trace (sort_worker env stop_event base move_mode include_sub
                                           groups_selected exif_by_date s)) ->
  sorted_to env base groups_selected exif_by_date src d.
Proof.
  destruct (result (iter_files env base include_sub s)) as [files|e] eqn:Hls.
  2:{ rewrite (sort_worker_scan_failed _ _ _ _ _ _ _ _ _ Hls). cbn.
      intros Hin. by apply elem_of_nil in Hin. }
  destruct files as [|f0 files].
  { rewrite (sort_worker_empty _ _ _ _ _ _ _ _ Hls). cbn.
    intros Hin. by apply elem_of_nil in Hin. }
  rewrite (sort_worker_cases _ _ _ _ _ _ _ _ _ Hls) by done. cbv zeta.
  destruct (result (ensure_dirs env base DEFAULT_FOLDERS s)) as [[]|e].
  2:{ cbn. intros Hin. by apply elem_of_nil in Hin. }
  cbn [trace].
  change (placed_of (EvLog ?a :: EvLog ?b :: ?t)) with (placed_of t).
  rewrite placed_of_app. intros [Hin|Hin]%elem_of_app.
  - by eapply sort_loop_placed.
  - cbn in Hin. by apply elem_of_nil in Hin.
Qed.

Lemma sort_destination_witness :
  (Demo.c, ["d"; "Others"; "c.txt"])
    ∈ placed_of (trace (sort_worker Demo.env Demo.never Demo.base false false
                                    ["Photos"] false Demo.start)) /\
  sorted_to Demo.env Demo.base ["Photos"] false Demo.c ["d"; "Others"; "c.txt"].
Proof.
  assert (Hin : (Demo.c, ["d"; "Others"; "c.txt"])
                  ∈ placed_of (trace (sort_worker Demo.env Demo.never Demo.base false
                                                  false ["Photos"] false Demo.start))).
  { assert (Hpl : placed_of (trace (sort_worker Demo.env Demo.never Demo.base false
                                                false ["Photos"] false Demo.start)) =
                  [(Demo.a, ["d"; "Photos"; "a.jpg"]);
                   (Demo.b, ["d"; "Photos"; "b.jpg"]);
                   (Demo.c, ["d"; "Others"; "c.txt"])])
      by (vm_compute; reflexivity).
    rewrite Hpl. do 2 (apply elem_of_cons; right). apply elem_of_cons. by left. }
  split; [exact Hin|].
  exact (sort_destination Demo.env Demo.never Demo.base false false ["Photos"] false
           Demo.start Demo.c ["d"; "Others"; "c.txt"] Hin).
Defined.

(* ===================================================================== *)
(** ** A duplicate scan that is cancelled                                 *)
(* ===================================================================== *)

Section DupCancelled.

Variable env : Env.
Variable stop_event : nat -> bool.

(** The bucket loop when the first [k] polls answer "not set" and the
    next one, if there is one, answers "set". *)
Lemma scan_buckets_upto total groups :
  forall cur duplicates s k,
    k <= length groups ->
    (forall j, j < k -> stop_event (polls s + j) = false) ->
    (k < length groups -> stop_event (polls s + k) = true) ->
    (forall g, g ∈ take k groups -> mtime_ok env g) ->
    scan_buckets env stop_event total cur duplicates groups s =
    {| trace := scan_events env total cur (take k groups);
       final := {| fs := fs s;
                   polls := polls s + (if bool_decide (k < length groups)
                                       then S k else k) |};
       result := Ok (duplicates ++ flat_map (bucket_dups env) (take k groups)) |}.
Proof.
  induction groups as [|g rest IH]; intros cur duplicates s k Hk Hrun Hstop Hok.
  - cbn [length] in Hk. assert (k = 0) as -> by lia.
    cbn. rewrite app_nil_r, Nat.add_0_r. by destruct s.
  - destruct k as [|k].
    + rewrite scan_buckets_stopped
        by (rewrite <- (Nat.add_0_r (polls s)); apply Hstop; cbn [length]; lia).
      rewrite bool_decide_eq_true_2 by (cbn [length]; lia).
      cbn [take scan_events flat_map]. rewrite app_nil_r.
      by replace (polls s + 1) with (S (polls s)) by lia.
    + assert (Hstop0 : stop_event (polls s) = false).
      { rewrite <- (Nat.add_0_r (polls s)). apply Hrun. lia. }
      set (s1 := {| fs := fs s; polls := S (polls s) |}).
      assert (Hrun' : forall j, j < k -> stop_event (polls s1 + j) = false).
      { intros j Hj. cbn [polls s1].
        replace (S (polls s) + j) with (polls s + S j) by lia. apply Hrun. lia. }
      assert (Hstop' : k < length rest -> stop_event (polls s1 + k) = true).
      { intros Hlt. cbn [polls s1].
        replace (S (polls s) + k) with (polls s + S k) by lia. apply Hstop.
        cbn [length]. lia. }
      assert (Hok' : forall g', g' ∈ take k rest -> mtime_ok env g').
      { intros g' Hg'. apply Hok. cbn [take]. apply elem_of_cons. by right. }
      assert (Hk' : k <= length rest) by (cbn [length] in Hk; lia).
      rewrite scan_buckets_step by done. cbv zeta. fold s1.
      cbn [take scan_events flat_map]. unfold bucket_events, bucket_dups.
      rewrite (bool_decide_ext (S k < length (g :: rest)) (k < length rest))
        by (cbn [length]; lia).
      assert (Hpolls : polls s1 + (if bool_decide (k < length rest) then S k else k) =
                       polls s + (if bool_decide (k < length rest) then S (S k) else S k)).
      { cbn [polls s1]. destruct (bool_decide _); lia. }
      destruct (length g <? 2)%nat.
      * rewrite (IH (S cur) duplicates s1 k) by done.
        cbn [trace final result app fs]. by rewrite Hpolls.
      * rewrite collect_duplicates_run.
        -- cbn [result]. rewrite (IH (S cur) _ s1 k) by done.
           cbn [trace final result fs]. rewrite Hpolls, <- !(assoc_L (++)).
           reflexivity.
        -- intros h Hh f Hf. apply (Hok g); [cbn [take]; apply elem_of_cons; by left|].
           by eapply digest_group_sub.
Qed.

End DupCancelled.

Lemma hashed_of_hashes (g : list Path) : hashed_of (EvHash <$> g) = g.
Proof. induction g as [|p g IH]; [reflexivity|]. cbn. f_equal. exact IH. Qed.

Lemma hashed_of_scan_events env total groups :
  forall cur f,
    f ∈ hashed_of (scan_events env total cur groups) -> exists g, g ∈ groups /\ f ∈ g.
Proof.
  induction groups as [|g gs IH]; intros cur f Hf.
  { cbn in Hf. by apply elem_of_nil in Hf. }
  cbn [scan_events] in Hf. rewrite hashed_of_app in Hf.
  apply elem_of_app in Hf as [Hf|Hf].
  - exists g. split; [apply elem_of_cons; by left|].
    unfold bucket_events in Hf. rewrite hashed_of_app in Hf.
    apply elem_of_app in Hf as [Hf|Hf]; [|cbn in Hf; by apply elem_of_nil in Hf].
    destruct (length g <? 2)%nat; [cbn in Hf; by apply elem_of_nil in Hf|].
    by rewrite hashed_of_hashes in Hf.
  - destruct (IH (S cur) f Hf) as (g' & Hg' & Hfg'). exists g'.
    split; [apply elem_of_cons; by right|done].
Qed.

(** X19. A duplicate scan cancelled at the poll before size bucket [k]
    still delivers what it found: the result holds the duplicate groups
    of the first [k] buckets, the digest function was called on files of
    those buckets only, the progress values stop at [k / n] without ever
    reaching [1.0], the stop event was polled [k + 1] times, and the
    closing log line gives the number of groups found so far. *)
Theorem duplicate_scan_cancelled_after (env : Env) (stop_event : nat -> bool)
    (base : Path) (include_sub images_only use_phash : bool)
    (perceptual_threshold : Q) (s : State) (files : list Path) (k : nat) :
  result (iter_files env base include_sub s) = Ok files ->
  let scanned := scan_listing env images_only files in
  let buckets := size_buckets env scanned in
  let r := duplicate_scan_worker env stop_event base include_sub images_only
                                 use_phash perceptual_threshold s in
  k < length buckets ->
  (forall j, j < k -> stop_event (polls s + j) = false) ->
  stop_event (polls s + k) = true ->
  mtime_ok env scanned ->
  let dups := flat_map (bucket_dups env) (take k buckets) in
  result r = Ok tt /\
  polls (final r) = polls s + S k /\
  dup_results_of (trace r) = [dups] /\
  last_log (trace r) =
    Some ("Found " +:+ pretty (length dups) +:+ " duplicate groups.") /\
  progress_of (trace r) = fractions (length buckets) 1 k /\
  count_one (trace r) = 0 /\
  (forall f, f ∈ hashed_of (trace r) ->
             exists g, g ∈ take k buckets /\ f ∈ g).
Proof.
  intros Hls scanned buckets r Hk Hrun Hstop Hok dups. subst r.
  assert (Hne : scan_listing env images_only files <> []).
  { intros Hnil. subst buckets scanned. rewrite Hnil in Hk. cbn in Hk. lia. }
  rewrite (duplicate_scan_worker_run _ _ _ _ _ _ _ _ _ Hls Hne). cbv zeta.
  fold scanned. fold buckets.
  rewrite (scan_buckets_upto env stop_event (length buckets) buckets 0 [] s k);
    [|lia|done|done|].
  2:{ intros g Hg f Hf. apply Hok.
      assert (Hgb : g ∈ buckets) by (eapply elem_of_sublist; [exact Hg|apply sublist_take]).
      apply size_buckets_elem in Hgb as (sz & -> & _).
      apply bucket_of_elem in Hf. tauto. }
  rewrite bool_decide_eq_true_2 by done.
  cbn [trace final result polls app]. fold dups.
  assert (Hpr : progress_of (scan_events env (length buckets) 0 (take k buckets)) =
                fractions (length buckets) 1 k).
  { rewrite progress_of_scan_events. by rewrite length_take, Nat.min_l by lia. }
  destruct (scan_events_quiet env (length buckets) (take k buckets) 0)
    as [Hnolog Hnores].
  split; [done|]. split; [done|]. split.
  { change (dup_results_of (EvLog ?a :: EvLog ?b :: ?t)) with (dup_results_of t).
    by rewrite dup_results_of_app, Hnores. }
  split.
  { unfold last_log.
    change (logs_of (EvLog ?a :: EvLog ?b :: ?t)) with (a :: b :: logs_of t).
    by rewrite logs_of_app, Hnolog. }
  assert (Hprog : progress_of
                    (EvLog "Listing files..."
                     :: EvLog ("Scanning " +:+ pretty (length scanned) +:+
                               " files for duplicates...")
                     :: scan_events env (length buckets) 0 (take k buckets) ++
                        [EvDupResult dups;
                         EvLog ("Found " +:+ pretty (length dups) +:+
                                " duplicate groups.")]) =
                  fractions (length buckets) 1 k).
  { change (progress_of (EvLog ?a :: EvLog ?b :: ?t)) with (progress_of t).
    rewrite progress_of_app, Hpr. apply app_nil_r. }
  split; [exact Hprog|]. split.
  { unfold count_one. rewrite Hprog, count_one_fractions by lia.
    by rewrite bool_decide_eq_false_2 by lia. }
  intros f Hf.
  change (hashed_of (EvLog ?a :: EvLog ?b :: ?t)) with (hashed_of t) in Hf.
  rewrite hashed_of_app in Hf. apply elem_of_app in Hf as [Hf|Hf];
    [|cbn in Hf; by apply elem_of_nil in Hf].
  by eapply hashed_of_scan_events.
Qed.

Lemma duplicate_scan_cancelled_after_witness :
  let r := duplicate_scan_worker Demo.env Demo.after_one Demo.base false false
                                 true 10 Demo.start in
  dup_results_of (trace r) =
    [[{| keep := Demo.b; delete := [Demo.a]; reason := "exact" |}]] /\
  last_log (trace r) = Some "Found 1 duplicate groups." /\
  progress_of (trace r) = [1 # 2] /\
  count_one (trace r) = 0.
Proof.
  destruct (duplicate_scan_cancelled_after Demo.env Demo.after_one Demo.base false
              false true 10%Q Demo.start [Demo.a; Demo.b; Demo.c] 1)
    as (_ & _ & Hres & Hlog & Hpr & Hone & _).
  - reflexivity.
  - vm_compute. lia.
  - intros j Hj. assert (j = 0) as -> by lia. reflexivity.
  - reflexivity.
  - intros f _. eexists. reflexivity.
  - cbv zeta. split; [rewrite Hres; vm_compute; reflexivity|].
    split; [rewrite Hlog; vm_compute; reflexivity|].
    split; [rewrite Hpr; vm_compute; reflexivity|exact Hone].
Defined.

(* ===================================================================== *)
(** * Classification and failures, down to the file system               *)
(* ===================================================================== *)

(* ===================================================================== *)
(** ** The resolution order of the classifier                             *)
(* ===================================================================== *)

Lemma EXT_TO_GROUP_listed e g :
  EXT_TO_GROUP !! e = Some g <-> exists exts, (g, exts) ∈ EXTENSIONS /\ e ∈ exts.
Proof.
  assert (Hnd : NoDup (concat EXTENSIONS.*2)).
  { apply (bool_decide_unpack _). vm_compute. exact I. }
  rewrite EXT_TO_GROUP_ext_table, ext_table_lookup_Some. split.
  - intros (t1 & exts & t2 & Heq & He & _). exists exts. split; [|done].
    rewrite Heq. apply elem_of_app. right. apply elem_of_cons. by left.
  - intros (exts & Hin & He).
    apply list_elem_of_split in Hin as (t1 & t2 & Heq).
    exists t1, exts, t2. split; [done|]. split; [done|].
    rewrite Heq in Hnd. rewrite fmap_app, fmap_cons, concat_app, concat_cons in Hnd.
    apply NoDup_app in Hnd as (_ & _ & Hnd).
    apply NoDup_app in Hnd as (_ & Hdisj & _).
    apply Forall_forall. intros [g' exts'] Hin' He'. simpl in He'.
    apply (Hdisj e); [done|].
    apply list_elem_of_In, in_concat. exists exts'.
    split; [|by apply list_elem_of_In].
    apply list_elem_of_In, list_elem_of_fmap. by exists (g', exts').
Qed.

(** The extensions of the table are written in lower-case ASCII. *)
Lemma EXTENSIONS_lower g exts e :
  (g, exts) ∈ EXTENSIONS -> e ∈ exts ->
  Str.isascii e = true /\ Str.lower_ascii_text e = e.
Proof.
  intros Hg He.
  assert (Hall : Forall (fun e => Str.isascii e = true /\ Str.lower_ascii_text e = e)
                        (concat EXTENSIONS.*2)).
  { repeat (constructor; [split; vm_compute; reflexivity|]). constructor. }
  eapply Forall_forall in Hall; [exact Hall|].
  apply list_elem_of_In, in_concat. exists exts.
  split; [|by apply list_elem_of_In].
  apply list_elem_of_In, list_elem_of_fmap. by exists (g, exts).
Qed.

Lemma upper_variant_lower written :
  forall listed,
    Str.isascii listed = true -> Str.lower_ascii_text listed = listed ->
    upper_variant written listed = true ->
    Str.isascii written = true /\ Str.lower_ascii_text written = listed.
Proof.
  induction written as [|a w IH]; intros [|b l]; cbn [upper_variant]; try done.
  cbn [Str.isascii Str.lower_ascii_text].
  intros [Hb Hl]%andb_true_iff [= Hlb Hll] [Hab Hwl]%andb_true_iff.
  destruct (IH l Hl Hll Hwl) as [Hw Hlw]. rewrite Hw, Hlw.
  apply Nat.ltb_lt in Hb.
  apply orb_true_iff in Hab as [Hab|Hab].
  - apply Ascii.eqb_eq in Hab as ->. rewrite Hlb.
    split; [|done]. apply andb_true_iff. split; [by apply Nat.ltb_lt|done].
  - cbv zeta in Hab.
    apply andb_true_iff in Hab as [[H1 H2]%andb_true_iff H3].
    apply Nat.leb_le in H1. apply Nat.leb_le in H2. apply Nat.eqb_eq in H3.
    split; [apply andb_true_iff; split; [apply Nat.ltb_lt; lia|done]|].
    f_equal. unfold Str.lower_ascii. rewrite H3.
    assert (Hup : ((65 <=? nat_of_ascii b - 32)%nat
                   && (nat_of_ascii b - 32 <=? 90)%nat) = true).
    { apply andb_true_iff. split; apply Nat.leb_le; lia. }
    cbv zeta. rewrite Hup.
    replace (nat_of_ascii b - 32 + 32) with (nat_of_ascii b) by lia.
    apply ascii_nat_embedding.
Qed.

Lemma mime_loop_first mime (rules before after : list (string * string)) key g :
  rules = before ++ (key, g) :: after ->
  String.prefix key mime = true ->
  Forall (fun rule => String.prefix rule.1 mime = false) before ->
  mime_loop mime rules = Some g.
Proof.
  intros -> Hkey Hbefore. induction Hbefore as [|[k0 g0] before Hk0 _ IH].
  - cbn [app mime_loop]. unfold Str.startswith. by rewrite Hkey.
  - cbn [app mime_loop]. unfold Str.startswith. cbn [fst] in Hk0. by rewrite Hk0.
Qed.

Lemma mime_loop_none mime (rules : list (string * string)) :
  Forall (fun rule => String.prefix rule.1 mime = false) rules ->
  mime_loop mime rules = None.
Proof.
  induction 1 as [|[k0 g0] rules Hk0 _ IH]; [reflexivity|].
  cbn [mime_loop]. unfold Str.startswith. cbn [fst] in Hk0. by rewrite Hk0.
Qed.

(** C3. For a path that is not a directory, [detect_group] resolves in
    this order. (a) When the lowercased extension is listed in the
    extension table, the category it is listed under is returned; the
    case of the ASCII letters of the extension does not matter.
    (b) Otherwise, when a MIME type is guessed from the file name, the
    category of the first entry of the ordered MIME list whose prefix
    matches is returned, and [Others] when no entry matches.
    (c) Otherwise [Others] is returned. The function is total, its value
    is one of the ten categories, and it depends on the lowercased
    extension and the guessed MIME type alone. *)
Theorem detect_group_resolution (env : Env) (path : Path) :
  is_dir env path = false ->
  let ext := lower env (suffix path) in
  (forall g exts,
      (g, exts) ∈ EXTENSIONS -> ext ∈ exts -> detect_group env path = Some g) /\
  (forall g exts e,
      (g, exts) ∈ EXTENSIONS -> e ∈ exts -> upper_variant (suffix path) e = true ->
      detect_group env path = Some g) /\
  ((forall g exts, (g, exts) ∈ EXTENSIONS -> ext ∉ exts) ->
   (forall mime,
       guess_type env (str path) = Some mime ->
       (forall before key g after,
           MIME_MAP = before ++ (key, g) :: after ->
           String.prefix key mime = true ->
           Forall (fun rule => String.prefix rule.1 mime = false) before ->
           detect_group env path = Some g) /\
       (Forall (fun rule => String.prefix rule.1 mime = false) MIME_MAP ->
        detect_group env path = Some "Others")) /\
   (guess_type env (str path) = None -> detect_group env path = Some "Others")) /\
  (exists g, detect_group env path = Some g /\ g ∈ DEFAULT_FOLDERS) /\
  (forall env' path',
      is_dir env' path' = false ->
      lower env' (suffix path') = ext ->
      guess_type env' (str path') = guess_type env (str path) ->
      detect_group env' path' = detect_group env path).
Proof.
  intros Hdir ext.
  assert (Ha : forall g exts,
             (g, exts) ∈ EXTENSIONS -> ext ∈ exts -> detect_group env path = Some g).
  { intros g exts Hg He. unfold detect_group. rewrite Hdir. cbv zeta. fold ext.
    assert (Hl : EXT_TO_GROUP !! ext = Some g) by (apply EXT_TO_GROUP_listed; eauto).
    by rewrite Hl. }
  split; [exact Ha|]. split.
  { intros g exts e Hg He Hup. apply (Ha g exts); [done|].
    destruct (EXTENSIONS_lower g exts e Hg He) as [Hascii Hlow].
    destruct (upper_variant_lower (suffix path) e Hascii Hlow Hup) as [Hw Hlw].
    subst ext. unfold lower. by rewrite Hw, Hlw. }
  split.
  { intros Hnone.
    assert (Hl : EXT_TO_GROUP !! ext = None).
    { destruct (EXT_TO_GROUP !! ext) as [g|] eqn:Hl; [|done].
      apply EXT_TO_GROUP_listed in Hl as (exts & Hg & He). by apply Hnone in Hg. }
    split.
    - intros mime Hmime. split.
      + intros before key g after Hsplit Hkey Hbefore.
        unfold detect_group. rewrite Hdir. cbv zeta. fold ext. rewrite Hl, Hmime.
        assert (Hne : Str.nonempty mime = true).
        { destruct mime; [|done].
          assert (Hkeys : Forall (fun rule => rule.1 <> "") MIME_MAP)
            by (repeat constructor; done).
          rewrite Hsplit in Hkeys. apply Forall_app in Hkeys as [_ Hkeys].
          apply Forall_cons in Hkeys as [Hk _]. cbn [fst] in Hk.
          destruct key; [done|discriminate]. }
        rewrite Hne. by rewrite (mime_loop_first mime MIME_MAP before after key g).
      + intros Hall. unfold detect_group. rewrite Hdir. cbv zeta. fold ext.
        rewrite Hl, Hmime. destruct (Str.nonempty mime); [|done].
        rewrite (mime_loop_none mime MIME_MAP Hall).
        by rewrite (mime_loop_pdf mime (mime_loop_none mime MIME_MAP Hall)).
    - intros Hmime. unfold detect_group. rewrite Hdir. cbv zeta. fold ext.
      by rewrite Hl, Hmime. }
  split.
  { destruct (detect_group env path) as [g|] eqn:Hg.
    - exists g. split; [done|]. by eapply detect_group_in_defaults.
    - unfold detect_group in Hg. rewrite Hdir in Hg. cbv zeta in Hg.
      repeat (match type of Hg with context [match ?x with _ => _ end] =>
                destruct x end; try discriminate). }
  intros env' path' Hdir' Hext Hmime. unfold detect_group.
  rewrite Hdir, Hdir'. cbv zeta. fold ext. by rewrite Hext, Hmime.
Qed.

Lemma detect_group_resolution_witness :
  (is_dir Demo.env ["d"; "HOLIDAY.JPG"] = false /\
   ("Photos", [".jpg"; ".jpeg"; ".png"; ".gif"; ".bmp"; ".tiff"; ".webp"; ".heic"])
     ∈ EXTENSIONS /\
   upper_variant (suffix ["d"; "HOLIDAY.JPG"]) ".jpg" = true) /\
  detect_group Demo.env ["d"; "HOLIDAY.JPG"] = Some "Photos" /\
  detect_group Demo.env ["d"; "talk." +:+ Demo.kelvin +:+ "EY"] = Some "Presentations" /\
  detect_group Demo3.env_mime ["d"; "clip.mpeg"] = Some "Videos" /\
  detect_group Demo3.env_mime ["d"; "setup.exe"] = Some "Others" /\
  detect_group Demo.env ["d"; "data.unknown"] = Some "Others".
Proof.
  assert (Hdir : forall env p, is_dir env p = is_dir Demo.env p -> is_dir env p = false).
  { intros env p ->. reflexivity. }
  assert (Hphotos : ("Photos", [".jpg"; ".jpeg"; ".png"; ".gif"; ".bmp"; ".tiff";
                                ".webp"; ".heic"]) ∈ EXTENSIONS)
    by (apply elem_of_cons; by left).
  assert (Hup : upper_variant (suffix ["d"; "HOLIDAY.JPG"]) ".jpg" = true)
    by (vm_compute; reflexivity).
  assert (Hno : forall env p,
             EXT_TO_GROUP !! lower env (suffix p) = None ->
             forall g exts, (g, exts) ∈ EXTENSIONS -> lower env (suffix p) ∉ exts).
  { intros env p Hl g exts Hg He.
    assert (EXT_TO_GROUP !! lower env (suffix p) = Some g)
      by (apply EXT_TO_GROUP_listed; eauto).
    congruence. }
  split; [split; [reflexivity|by split]|].
  split.
  { destruct (detect_group_resolution Demo.env ["d"; "HOLIDAY.JPG"] eq_refl)
      as (_ & Hcase & _).
    apply (Hcase "Photos" _ ".jpg" Hphotos); [|exact Hup].
    apply elem_of_cons. by left. }
  split.
  { destruct (detect_group_resolution Demo.env ["d"; "talk." +:+ Demo.kelvin +:+ "EY"]
                eq_refl) as (Ha & _).
    apply (Ha "Presentations" [".ppt"; ".pptx"; ".key"]).
    - do 5 (apply elem_of_cons; right). apply elem_of_cons. by left.
    - cbv zeta. assert (Hext : lower Demo.env
                            (suffix ["d"; "talk." +:+ Demo.kelvin +:+ "EY"]) = ".key")
        by (vm_compute; reflexivity).
      rewrite Hext. do 2 (apply elem_of_cons; right). apply elem_of_cons. by left. }
  split.
  { destruct (detect_group_resolution Demo3.env_mime ["d"; "clip.mpeg"] eq_refl)
      as (_ & _ & Hb & _).
    destruct Hb as [Hmime _]; [apply Hno; vm_compute; reflexivity|].
    destruct (Hmime "video/mpeg" eq_refl) as [Hfirst _].
    apply (Hfirst [("image", "Photos")] "video" "Videos"
                  [("audio", "Audio"); ("application/pdf", "PDFs");
                   ("text", "Documents")]); [reflexivity|reflexivity|].
    repeat constructor. }
  split.
  { destruct (detect_group_resolution Demo3.env_mime ["d"; "setup.exe"] eq_refl)
      as (_ & _ & Hb & _).
    destruct Hb as [Hmime _]; [apply Hno; vm_compute; reflexivity|].
    destruct (Hmime "application/x-msdownload" eq_refl) as [_ Hnone].
    apply Hnone. repeat constructor. }
  destruct (detect_group_resolution Demo.env ["d"; "data.unknown"] eq_refl)
    as (_ & _ & Hb & _).
  destruct Hb as [_ Hc]; [apply Hno; vm_compute; reflexivity|].
  by apply Hc.
Defined.

(* ===================================================================== *)
(** ** What the sort loop does to the file system                        *)
(* ===================================================================== *)

Section SortFs.

Variable env : Env.
Variable stop_event : nat -> bool.
Variable base : Path.
Variable move_mode : bool.
Variable groups_selected : list string.
Variable exif_by_date : bool.

Local Notation body f :=
  (try_except (sort_item env base move_mode groups_selected exif_by_date f)
              (fun e => log_cb ("Error " +:+ name f +:+ ": " +:+ e))).

Local Notation loop total idx files :=
  (sort_loop env stop_event base move_mode groups_selected exif_by_date total idx files).

Lemma created_below (group : string) (target_dir p : Path) :
  group ∈ DEFAULT_FOLDERS ->
  (base / group)%path `prefix_of` target_dir ->
  p `prefix_of` target_dir ->
  created_by_sort base p.
Proof.
  intros Hg Hpre Hp.
  destruct (prefix_weak_total _ _ _ Hp Hpre) as [Hle|Hge].
  - destruct Hle as [k Hk]. unfold div in Hk.
    destruct (decide (k = [])) as [->|Hne].
    + right. exists group. split; [done|]. unfold div. rewrite Hk.
      by rewrite app_nil_r.
    + left. destruct (exists_last Hne) as (k' & x & ->).
      rewrite (assoc_L (++)) in Hk. apply app_inj_tail in Hk as [-> _].
      by apply prefix_app_r.
  - right. by exists group.
Qed.

Lemma sort_body_fs f s :
  let r := body f s in
  (forall p, p ∈ fs s ->
     p ∈ fs (final r) \/ (p = f /\ move_mode = true /\ exists d, EvMove f d ∈ trace r)) /\
  (forall p, p ∈ fs (final r) -> p ∈ fs s \/ created_by_sort base p) /\
  (forall a b, EvMove a b ∈ trace r -> a = f /\ move_mode = true) /\
  (forall a b, EvCopy a b ∈ trace r -> a = f /\ move_mode = false).
Proof.
  assert (Hlog : forall msg,
            (forall a b, EvMove a b ∈ [EvLog msg] -> a = f /\ move_mode = true) /\
            (forall a b, EvCopy a b ∈ [EvLog msg] -> a = f /\ move_mode = false)).
  { intros msg. split; intros a b Hin; by apply list_elem_of_singleton in Hin. }
  cbv zeta. rewrite run_try_except. unfold sort_item.
  destruct (effective_group env groups_selected f) as [group|] eqn:Hg;
    [|cbn [raise trace final result log_cb emit app];
      split; [by left|split; [by left|apply Hlog]]].
  apply effective_group_in_defaults in Hg.
  cbv zeta.
  set (target_dir :=
         if String.eqb group "Photos" && exif_by_date && PIL_AVAILABLE env
         then match get_exif_date env f with
              | Some exif_dt =>
                  (base / group / pretty (year exif_dt) / Str.pad2 (month exif_dt))%path
              | None => (base / group)%path
              end
         else (base / group)%path).
  assert (Hpre : (base / group)%path `prefix_of` target_dir).
  { subst target_dir. destruct (_ && _); [|done].
    destruct (get_exif_date env f) as [dt|]; [|done].
    unfold div. by do 2 apply prefix_app_r. }
  clearbody target_dir.
  assert (Hanc : forall p, p ∈ ancestors target_dir -> created_by_sort base p).
  { intros p [Hp _]%elem_of_ancestors. by eapply created_below. }
  assert (Hmk : forall p,
             p ∈ fs s ∪ list_to_set (take (mkdir_partial env target_dir)
                                          (ancestors (parent target_dir))) ->
             p ∈ fs s \/ created_by_sort base p).
  { intros p [Hp|Hp]%elem_of_union; [by left|right].
    apply elem_of_list_to_set in Hp. by apply Hanc, (mkdir_partial_ancestors env). }
  set (fs1 := fs s ∪ list_to_set (ancestors target_dir)).
  pose proof (unique_dest_not_exists fs1 (target_dir / name f)%path) as Hfree.
  pose proof (parent_unique_dest fs1 (target_dir / name f)%path) as Hpar.
  rewrite parent_div in Hpar.
  assert (Hnew : forall p, p ∈ fs1 ∪ {[unique_dest fs1 (target_dir / name f)%path]} ->
                           p ∈ fs s \/ created_by_sort base p).
  { intros p [[Hp|Hp]%elem_of_union|Hp]%elem_of_union; [by left| |].
    - right. apply elem_of_list_to_set in Hp. by apply Hanc.
    - right. apply elem_of_singleton in Hp as ->. right. exists group. split; [done|].
      etrans; [exact Hpre|].
      pose proof (parent_prefix (unique_dest fs1 (target_dir / name f)%path)) as Hpp.
      by rewrite Hpar in Hpp. }
  cbv iota. destruct move_mode; rewrite run_bind.
  - rewrite safe_move_run, parent_div.
    destruct (mkdir_error env target_dir) as [e|];
      [cbn [raise trace final result log_cb emit app fs];
       split; [intros p Hp; left; set_solver|split; [exact Hmk|apply Hlog]]|].
    cbv zeta. fold fs1.
    destruct (move_error env f (unique_dest fs1 _)) as [e|] eqn:Hmv;
      cbn [raise trace final result log_cb emit app fs].
    + split; [|split; [|apply Hlog]].
      * intros p Hp. left. destruct (move_partial env f _); subst fs1; set_solver.
      * intros p Hp. apply Hnew. destruct (move_partial env f _); set_solver.
    + split; [|split; [|split]].
      * intros p Hp. destruct (decide (p = f)) as [->|Hne].
        -- right. split; [done|]. split; [done|]. eexists. apply elem_of_cons. by left.
        -- left. subst fs1. set_solver.
      * intros p Hp. apply Hnew. set_solver.
      * intros a b [Hin|Hin%list_elem_of_singleton]%elem_of_cons; [|discriminate].
        by injection Hin as -> ->.
      * intros a b [Hin|Hin%list_elem_of_singleton]%elem_of_cons; discriminate.
  - rewrite safe_copy_run, parent_div.
    destruct (mkdir_error env target_dir) as [e|];
      [cbn [raise trace final result log_cb emit app fs];
       split; [intros p Hp; left; set_solver|split; [exact Hmk|apply Hlog]]|].
    cbv zeta. fold fs1.
    destruct (copy_error env f (unique_dest fs1 _)) as [e|] eqn:Hcp;
      cbn [raise trace final result log_cb emit app fs].
    + split; [|split; [|apply Hlog]].
      * intros p Hp. left. destruct (copy_partial env f _); subst fs1; set_solver.
      * intros p Hp. apply Hnew. destruct (copy_partial env f _); set_solver.
    + split; [|split; [|split]].
      * intros p Hp. left. subst fs1. set_solver.
      * exact Hnew.
      * intros a b [Hin|Hin%list_elem_of_singleton]%elem_of_cons; discriminate.
      * intros a b [Hin|Hin%list_elem_of_singleton]%elem_of_cons; [|discriminate].
        by injection Hin as -> ->.
Qed.

Lemma sort_loop_fs total files :
  forall idx s,
    let r := loop total idx files s in
    (forall p, p ∈ fs s -> p ∈ fs (final r) \/ exists d, EvMove p d ∈ trace r) /\
    (forall p, p ∈ fs (final r) -> p ∈ fs s \/ created_by_sort base p) /\
    (forall a b, EvMove a b ∈ trace r -> a ∈ files /\ move_mode = true) /\
    (forall a b, EvCopy a b ∈ trace r -> a ∈ files /\ move_mode = false).
Proof.
  induction files as [|f rest IH]; intros idx s; cbv zeta.
  - cbn. split; [by left|]. split; [by left|].
    split; intros a b Hin; by apply elem_of_nil in Hin.
  - destruct (stop_event (polls s)) eqn:Hstop.
    + rewrite sort_loop_stopped by done. cbn [trace final fs].
      split; [by left|]. split; [by left|].
      split; intros a b Hin; by apply list_elem_of_singleton in Hin.
    + rewrite sort_loop_step by done. cbv zeta. cbn [trace final result].
      set (s1 := {| fs := fs s; polls := S (polls s) |}).
      destruct (sort_body_fs f s1) as (Hkeep1 & Hnew1 & Hmv1 & Hcp1).
      cbv zeta in Hkeep1, Hnew1, Hmv1, Hcp1.
      set (s2 := final (try_except _ _ s1)) in *.
      destruct (IH (S idx) s2) as (Hkeep2 & Hnew2 & Hmv2 & Hcp2).
      cbv zeta in Hkeep2, Hnew2, Hmv2, Hcp2.
      split; [|split; [|split]].
      * intros p Hp. destruct (Hkeep1 p Hp) as [Hp1|(-> & _ & d & Hd)].
        -- destruct (Hkeep2 p Hp1) as [Hp2|[d Hd]]; [by left|].
           right. exists d. apply elem_of_app. right. apply elem_of_cons. by right.
        -- right. exists d. apply elem_of_app. by left.
      * intros p Hp. destruct (Hnew2 p Hp) as [Hp2|Hc]; [|by right].
        destruct (Hnew1 p Hp2) as [Hp1|Hc]; [by left|by right].
      * intros a b [Hin|[Hin|Hin]%elem_of_cons]%elem_of_app.
        -- destruct (Hmv1 a b Hin) as [-> Hm]. split; [apply elem_of_cons; by left|done].
        -- discriminate.
        -- destruct (Hmv2 a b Hin) as [Ha Hm]. split; [apply elem_of_cons; by right|done].
      * intros a b [Hin|[Hin|Hin]%elem_of_cons]%elem_of_app.
        -- destruct (Hcp1 a b Hin) as [-> Hm]. split; [apply elem_of_cons; by left|done].
        -- discriminate.
        -- destruct (Hcp2 a b Hin) as [Ha Hm]. split; [apply elem_of_cons; by right|done].
Qed.

(** A loop that is never cancelled runs over a concatenation as over its
    two parts, one after the other. *)
Lemma sort_loop_app total l1 l2 :
  (forall k, stop_event k = false) ->
  forall idx s,
    let r1 := loop total idx l1 s in
    let r2 := loop total (idx + length l1) l2 (final r1) in
    loop total idx (l1 ++ l2) s =
    {| trace := trace r1 ++ trace r2; final := final r2; result := result r2 |}.
Proof.
  intros Hrun. induction l1 as [|f l1 IH]; intros idx s; cbv zeta.
  - cbn [app length sort_loop mret M_ret ret trace final result].
    rewrite Nat.add_0_r. by destruct (loop total idx l2 s).
  - rewrite <- app_comm_cons. rewrite !sort_loop_step by apply Hrun. cbv zeta.
    cbn [trace final result length]. rewrite IH. cbv zeta. cbn [trace final result].
    rewrite Nat.add_succ_r. cbn [Nat.add]. f_equal.
    rewrite <- (assoc_L (++)). reflexivity.
Qed.

(** A file filed under [Others] whose placement meets no I/O error: the
    destination is new and exists afterwards, and a moved source is
    gone. *)
Lemma sort_body_others_fs f s :
  effective_group env groups_selected f = Some "Others" ->
  mkdir_error env (base / "Others")%path = None ->
  (forall d, copy_error env f d = None) ->
  (forall d, move_error env f d = None) ->
  exists d,
    parent d = (base / "Others")%path /\
    (trace (body f s) =
     if move_mode then [EvMove f d; EvLog ("Moved: " +:+ name f)]
     else [EvCopy f d; EvLog ("Copied: " +:+ name f)]) /\
    (d ∉ fs s) /\ (d ∈ fs (final (body f s))) /\
    (move_mode = true -> f ∈ fs s -> f ∉ fs (final (body f s))).
Proof.
  intros Hg Hmk Hcp Hmv.
  rewrite run_try_except. unfold sort_item. rewrite Hg.
  change (String.eqb "Others" "Photos") with false. cbv zeta.
  change (false && exif_by_date && PIL_AVAILABLE env) with false. cbv iota.
  set (dst := (base / "Others" / name f)%path).
  assert (Hparent : parent dst = (base / "Others")%path) by apply parent_div.
  set (fs1 := fs s ∪ list_to_set (ancestors (base / "Others")%path)).
  pose proof (unique_dest_not_exists fs1 dst) as Hfree.
  destruct move_mode; rewrite run_bind.
  - rewrite safe_move_run, Hparent, Hmk. cbv zeta. rewrite Hmv.
    cbn [raise trace final result log_cb emit app fs]. fold fs1.
    exists (unique_dest fs1 dst). split; [by rewrite parent_unique_dest|].
    split; [done|]. split; [subst fs1; set_solver|]. split; [set_solver|].
    intros _ Hf [Hin|Hin]%elem_of_union; [set_solver|].
    apply elem_of_singleton in Hin. apply Hfree. rewrite <- Hin. subst fs1. set_solver.
  - rewrite safe_copy_run, Hparent, Hmk. cbv zeta. rewrite Hcp.
    cbn [raise trace final result log_cb emit app fs]. fold fs1.
    exists (unique_dest fs1 dst). split; [by rewrite parent_unique_dest|].
    split; [done|]. split; [subst fs1; set_solver|]. split; [set_solver|done].
Qed.

End SortFs.

(* ===================================================================== *)
(** ** Files outside the selection                                       *)
(* ===================================================================== *)

Lemma ensure_dirs_fs (env : Env) (base : Path) (s : State) :
  (forall g, g ∈ DEFAULT_FOLDERS -> mkdir_error env (base / g)%path = None) ->
  let r := ensure_dirs env base DEFAULT_FOLDERS s in
  result r = Ok tt /\ polls (final r) = polls s /\
  fs (final r) = fs s ∪ list_to_set ((fun g => (base / g)%path) <$> DEFAULT_FOLDERS).
Proof.
  intros Hmk. cbv zeta.
  pose proof (mkdir_all_prefix env base DEFAULT_FOLDERS s (mret tt) Hmk) as H.
  change (ensure_dirs env base DEFAULT_FOLDERS s)
    with (foldr (fun g k => mkdir env (base / g)%path;; k) (mret tt) DEFAULT_FOLDERS s).
  rewrite H. cbv zeta. cbn [trace final result mret M_ret ret fs polls]. done.
Qed.

Lemma ensure_dirs_created (env : Env) (base : Path) (s : State) (p : Path) :
  (forall g, g ∈ DEFAULT_FOLDERS -> mkdir_error env (base / g)%path = None) ->
  p ∈ fs (final (ensure_dirs env base DEFAULT_FOLDERS s)) ->
  p ∈ fs s \/ created_by_sort base p.
Proof.
  intros Hmk Hp. destruct (ensure_dirs_fs env base s Hmk) as (_ & _ & Hfs).
  cbv zeta in Hfs. rewrite Hfs in Hp.
  apply elem_of_union in Hp as [Hp|Hp]; [by left|right].
  apply elem_of_list_to_set, list_elem_of_fmap in Hp as (g & -> & Hg).
  right. by exists g.
Qed.

(** C10. In a sort that is not cancelled, a file whose detected category
    is not in the caller's non-empty selection is filed under [Others]:
    unless its placement meets an I/O error, it is copied (or moved, in
    move mode) to a path directly inside [base / "Others"], and that
    path exists when the run ends. After a copy the source is still
    there. After a move of the files of a listing without repetitions,
    all of which exist, the destination is still there and a source
    that lay under [base] outside the category folders is gone. *)
Theorem unselected_category_goes_to_others
    (env : Env) (stop_event : nat -> bool) (base : Path)
    (move_mode include_sub : bool) (groups_selected : list string)
    (exif_by_date : bool) (s : State) (files : list Path) (f : Path) (g : string) :
  result (iter_files env base include_sub s) = Ok files ->
  (forall d, d ∈ DEFAULT_FOLDERS -> mkdir_error env (base / d)%path = None) ->
  (forall k, stop_event k = false) ->
  f ∈ files ->
  groups_selected <> [] ->
  detect_group env f = Some g ->
  g ∉ groups_selected ->
  (forall d, copy_error env f d = None) ->
  (forall d, move_error env f d = None) ->
  let r := sort_worker env stop_event base move_mode include_sub
                       groups_selected exif_by_date s in
  let tr := trace r in
  effective_group env groups_selected f = Some "Others" /\
  exists d,
    parent d = (base / "Others")%path /\
    (if move_mode then EvMove f d else EvCopy f d) ∈ tr /\
    (f, d) ∈ placed_of tr /\
    EvLog ((if move_mode then "Moved: " else "Copied: ") +:+ name f) ∈ tr /\
    (move_mode = false ->
       d ∈ fs (final r) /\ (f ∈ fs s -> f ∈ fs (final r))) /\
    (move_mode = true ->
       NoDup files -> (forall f', f' ∈ files -> f' ∈ fs s) ->
       d ∈ fs (final r) /\
       (base `prefix_of` f -> f <> base ->
        (forall g', g' ∈ DEFAULT_FOLDERS -> ~ (base / g')%path `prefix_of` f) ->
        f ∉ fs (final r))).
Proof.
  intros Hls Hmk Hrun Hf Hsel Hg Hnot Hcp Hmv r tr.
  assert (Heff : effective_group env groups_selected f = Some "Others").
  { unfold effective_group. rewrite Hg. simpl.
    rewrite bool_decide_eq_false_2 by done.
    by rewrite bool_decide_eq_false_2 by done. }
  split; [exact Heff|].
  assert (Hne : files <> []) by (intros ->; by apply elem_of_nil in Hf).
  pose proof (sort_worker_cases env stop_event base move_mode include_sub groups_selected
                                exif_by_date files s Hls Hne) as Hw.
  cbv zeta in Hw.
  destruct (ensure_dirs_fs env base s Hmk) as (Hr0 & _ & Hfs0). cbv zeta in Hr0, Hfs0.
  rewrite Hr0 in Hw.
  pose proof (ensure_dirs_created env base s) as Hnew0.
  set (s0 := final (ensure_dirs env base DEFAULT_FOLDERS s)) in *.
  assert (Hsub0 : fs s ⊆ fs s0) by (rewrite Hfs0; set_solver).
  apply list_elem_of_split in Hf as (l1 & l2 & ->).
  pose proof (sort_loop_app env stop_event base move_mode groups_selected exif_by_date
                            (length (l1 ++ f :: l2)) l1 (f :: l2) Hrun 1 s0) as Happ.
  cbv zeta in Happ.
  destruct (sort_loop_fs env stop_event base move_mode groups_selected exif_by_date
                         (length (l1 ++ f :: l2)) l1 1 s0) as (Hkeep1 & _ & Hmv1 & _).
  cbv zeta in Hkeep1, Hmv1.
  set (r1 := sort_loop env stop_event base move_mode groups_selected exif_by_date
                       (length (l1 ++ f :: l2)) 1 l1 s0) in *.
  rewrite sort_loop_step in Happ by apply Hrun. cbv zeta in Happ.
  cbn [trace final result] in Happ.
  set (s1 := {| fs := fs (final r1); polls := S (polls (final r1)) |}) in *.
  destruct (sort_body_others_fs env base move_mode groups_selected exif_by_date f s1)
    as (d & Hparent & Htr & Hdnew & Hdin & Hgone); [done| |done|done|].
  { apply Hmk. unfold DEFAULT_FOLDERS. set_solver. }
  set (rb := try_except (sort_item env base move_mode groups_selected exif_by_date f)
                        (fun e => log_cb ("Error " +:+ name f +:+ ": " +:+ e)) s1) in *.
  destruct (sort_body_fs env stop_event base move_mode groups_selected exif_by_date f s1)
    as (Hkeepb & _ & _). cbv zeta in Hkeepb. fold rb in Hkeepb.
  destruct (sort_loop_fs env stop_event base move_mode groups_selected exif_by_date
                         (length (l1 ++ f :: l2)) l2 (S (1 + length l1)) (final rb))
    as (Hkeep2 & Hnew2 & Hmv2 & _).
  cbv zeta in Hkeep2, Hnew2, Hmv2.
  set (r2 := sort_loop env stop_event base move_mode groups_selected exif_by_date
                       (length (l1 ++ f :: l2)) (S (1 + length l1)) l2 (final rb)) in *.
  rewrite Happ in Hw. cbn [trace final result] in Hw.
  subst tr r. rewrite Hw. cbn [trace final result].
  exists d. split; [exact Hparent|].
  assert (Hin : forall ev,
             ev ∈ trace rb ->
             ev ∈ EvLog ("Scanning " +:+ str base +:+ "...")
                  :: EvLog ("Found " +:+ pretty (length (l1 ++ f :: l2))
                            +:+ " files. Processing...")
                  :: (trace r1
                      ++ trace rb
                      ++ EvProgress (py_div (1 + length l1) (length (l1 ++ f :: l2)))
                         :: trace r2)
                     ++ [EvProgress 1; EvLog "Operation complete!"]).
  { intros ev Hev. do 2 (apply elem_of_cons; right). apply elem_of_app. left.
    apply elem_of_app. right. apply elem_of_app. by left. }
  assert (Hev : (if move_mode then EvMove f d else EvCopy f d) ∈ trace rb).
  { rewrite Htr. destruct move_mode; apply elem_of_cons; by left. }
  assert (Hlg : EvLog ((if move_mode then "Moved: " else "Copied: ") +:+ name f)
                ∈ trace rb).
  { rewrite Htr. destruct move_mode; apply elem_of_cons; right; apply elem_of_cons; by left. }
  split; [by apply Hin|]. split.
  { apply In_placed_of. destruct move_mode; [right|left]; by apply Hin. }
  split; [by apply Hin|]. split.
  - intros Hmode. split.
    + destruct (Hkeep2 d Hdin) as [Hd|[d' Hd']]; [done|].
      apply Hmv2 in Hd' as [_ Hm]. congruence.
    + intros Hfs. apply Hsub0 in Hfs.
      destruct (Hkeep1 f Hfs) as [Hf1|[d' Hd']];
        [|apply Hmv1 in Hd' as [_ Hm]; congruence].
      destruct (Hkeepb f Hf1) as [Hfb|(_ & Hm & _)]; [|congruence].
      destruct (Hkeep2 f Hfb) as [Hf2|[d' Hd']]; [done|].
      apply Hmv2 in Hd' as [_ Hm]. congruence.
  - intros Hmode Hnd Hex.
    apply NoDup_app in Hnd as (_ & Hdisj & Hnd2).
    apply NoDup_cons in Hnd2 as [Hfl2 _].
    assert (Hlater : forall x, x ∈ f :: l2 -> x ∈ fs s1).
    { intros x Hx.
      assert (Hxs : x ∈ fs s0).
      { apply Hsub0, Hex. apply elem_of_app. by right. }
      destruct (Hkeep1 x Hxs) as [Hx1|[d' Hd']]; [done|].
      apply Hmv1 in Hd' as [Hx1 _]. by destruct (Hdisj x Hx1). }
    split.
    + destruct (Hkeep2 d Hdin) as [Hd|[d' Hd']]; [done|].
      apply Hmv2 in Hd' as [Hd2 _]. destruct Hdnew.
      apply Hlater. apply elem_of_cons. by right.
    + intros Hunder Hnb Hout Hfin.
      destruct (Hnew2 f Hfin) as [Hfb|[Hup|(g' & Hg' & Hpre)]].
      * apply (Hgone Hmode); [|done]. apply Hlater. apply elem_of_cons. by left.
      * apply Hnb. apply prefix_length_eq; [done|]. by apply prefix_length.
      * by apply (Hout g').
Qed.

Lemma unselected_category_goes_to_others_witness :
  let r := sort_worker Demo.env Demo.never Demo.base true false
                       ["Photos"] false Demo.start in
  (result (iter_files Demo.env Demo.base false Demo.start) = Ok [Demo.a; Demo.b; Demo.c] /\
   (forall d, d ∈ DEFAULT_FOLDERS -> mkdir_error Demo.env (Demo.base / d)%path = None) /\
   (forall k, Demo.never k = false) /\
   (Demo.c ∈ [Demo.a; Demo.b; Demo.c]) /\
   ["Photos"] <> [] /\
   detect_group Demo.env Demo.c = Some "Documents" /\
   ("Documents" ∉ ["Photos"]) /\
   (forall d, copy_error Demo.env Demo.c d = None) /\
   (forall d, move_error Demo.env Demo.c d = None)) /\
  effective_group Demo.env ["Photos"] Demo.c = Some "Others" /\
  exists d,
    parent d = (Demo.base / "Others")%path /\
    EvMove Demo.c d ∈ trace r /\
    (Demo.c, d) ∈ placed_of (trace r) /\
    EvLog ("Moved: " +:+ name Demo.c) ∈ trace r /\
    (d ∈ fs (final r)) /\
    (Demo.c ∈ fs Demo.start) /\
    (Demo.c ∉ fs (final r)).
Proof.
  intros r.
  assert (H1 : result (iter_files Demo.env Demo.base false Demo.start)
               = Ok [Demo.a; Demo.b; Demo.c]) by reflexivity.
  assert (H2 : forall d, d ∈ DEFAULT_FOLDERS ->
                         mkdir_error Demo.env (Demo.base / d)%path = None)
    by (intros; reflexivity).
  assert (H3 : forall k, Demo.never k = false) by (intros; reflexivity).
  assert (H4 : Demo.c ∈ [Demo.a; Demo.b; Demo.c])
    by (apply (bool_decide_unpack _); vm_compute; exact I).
  assert (H5 : ["Photos"] <> @nil string) by discriminate.
  assert (H6 : detect_group Demo.env Demo.c = Some "Documents") by (vm_compute; reflexivity).
  assert (H7 : "Documents" ∉ ["Photos"])
    by (apply (bool_decide_unpack _); vm_compute; exact I).
  assert (H8 : forall d, copy_error Demo.env Demo.c d = None) by (intros; reflexivity).
  assert (H9 : forall d, move_error Demo.env Demo.c d = None) by (intros; reflexivity).
  assert (Hnd : NoDup [Demo.a; Demo.b; Demo.c])
    by (apply (bool_decide_unpack _); vm_compute; exact I).
  assert (Hex : forall f', f' ∈ [Demo.a; Demo.b; Demo.c] -> f' ∈ fs Demo.start).
  { intros f' Hf'. unfold Demo.start. cbn [fs]. set_solver. }
  assert (Hc : Demo.c ∈ fs Demo.start) by (apply Hex, H4).
  assert (Hunder : Demo.base `prefix_of` Demo.c) by (by exists ["c.txt"]).
  assert (Hnb : Demo.c <> Demo.base) by discriminate.
  assert (Hout : forall g', g' ∈ DEFAULT_FOLDERS ->
                            ~ (Demo.base / g')%path `prefix_of` Demo.c).
  { intros g' Hg' [k Hk]. unfold Demo.c, Demo.base, PathOps.div in Hk.
    cbn [app] in Hk. injection Hk as Hg'' _. subst g'.
    revert Hg'. apply (bool_decide_unpack _). vm_compute. exact I. }
  split; [by repeat split|].
  destruct (unselected_category_goes_to_others
              Demo.env Demo.never Demo.base true false ["Photos"] false Demo.start
              [Demo.a; Demo.b; Demo.c] Demo.c "Documents" H1 H2 H3 H4 H5 H6 H7 H8 H9)
    as (Heff & d & Hp & Hev & Hpl & Hlog & _ & Hmove).
  destruct (Hmove eq_refl Hnd Hex) as [Hd Hgone].
  split; [exact Heff|]. exists d.
  split; [exact Hp|]. split; [exact Hev|]. split; [exact Hpl|]. split; [exact Hlog|].
  split; [exact Hd|]. split; [exact Hc|]. exact (Hgone Hunder Hnb Hout).
Defined.

(* ===================================================================== *)
(** ** Per-item failures, on the trace and on the file system            *)
(* ===================================================================== *)



